(** * Ray-Caster: [main.c]

    A shallow embedding of the 2D ray caster (segment intersection, ray
    extension, nearest-hit search, ray fan, density clamp, and the
    rendering loop of [main] as the sequence of its library calls)
    together with the properties its specification states about it and
    further properties of the code.

    The program computes on C [double]s.  The embedding is written once,
    over an interface [Double] of the operations the program uses, and is
    read at two instances:

    - [binary64]: Rocq's primitive IEEE 754 binary64 floats, the
      arithmetic the compiled program runs on when every operation is
      rounded to [double] on its own (no fused multiply-add, no extended
      precision); executable;
    - [ideal]: rounding-free arithmetic on real numbers extended with one
      not-a-number value produced by a division by zero; the setting in
      which the geometric statements (a point lies on a segment, a ray
      leaves a rectangle) are exact. *)

From Stdlib Require Import ZArith QArith Reals Qreals Floats.
From Stdlib Require Import List Bool Lia Lra Psatz.
From Stdlib Require String.
Import ListNotations.

Set Implicit Arguments.
Open Scope nat_scope.

(** ** The interface of [double] *)

Declare Scope dbl_scope.
Delimit Scope dbl_scope with D.

(** Operations of C's [double] used by the program.  [lit] reads a decimal
    literal, [of_int] is the implicit conversion from an integer type,
    [to_int] the cast [(int) d], which C leaves undefined when the
    truncated value does not fit an [int] (result [None]). *)
Class Double (D : Type) : Type := {
  lit : Q -> D;
  of_int : Z -> D;
  to_int : D -> option Z;
  add : D -> D -> D;
  sub : D -> D -> D;
  mul : D -> D -> D;
  div : D -> D -> D;
  neg : D -> D;
  fabs : D -> D;
  sqrt : D -> D;
  ltb : D -> D -> bool;
  leb : D -> D -> bool
}.

(** The two functions of [<math.h>] that have no counterpart among the
    primitive float operations. *)
Class Libm (D : Type) : Type := {
  cos : D -> D;
  sin : D -> D
}.

Notation "# q" := (lit q%Q) (at level 1, format "# q") : dbl_scope.
Infix "+" := add : dbl_scope.
Infix "-" := sub : dbl_scope.
Infix "*" := mul : dbl_scope.
Infix "/" := div : dbl_scope.
Notation "- a" := (neg a) : dbl_scope.
Infix "<?" := ltb : dbl_scope.
Infix "<=?" := leb : dbl_scope.
Notation "a >? b" := (ltb b a) (only parsing) : dbl_scope.

(** ** The program *)

Section Program.
Context {D : Type} {DD : Double D}.
Local Open Scope dbl_scope.

Definition INT16_MAX : Z := 32767.
Definition INT64_MAX : Z := 9223372036854775807.

Definition MONITOR_SIZE_X : Z := 1920.
Definition MONITOR_SIZE_Y : Z := 1080.
Definition monitor_widescreen_compensation : D :=
  of_int MONITOR_SIZE_X / of_int MONITOR_SIZE_Y.

Definition PI : D := #3.14159265359.

Definition CIRCLE_RADIUS : D := #0.05.

(** Initial value of the global [RAY_DENSITY]. *)
Definition RAY_DENSITY_init : D := #180.0.

Record Point : Type := mkPoint { x : D; y : D }.

Record Line : Type := mkLine { point1 : Point; point2 : Point }.

(** An initialiser [{{ax, ay}, {bx, by}}] of literals.  A negated literal
    is written as the literal of the negative number: the same value. *)
Definition seg (ax ay bx by_ : Q) : Line :=
  mkLine (mkPoint #ax #ay) (mkPoint #bx #by_).

Definition walls : list Line :=
  [ seg 0.65 0.5 0.7 0.8;
    seg 0.2 0.3 0.4 (-0.2);
    seg 0.4 (-0.2) 0.05 (-0.3);
    seg 0.05 (-0.3) (-0.2) (-0.1);
    seg (-0.2) (-0.1) (-0.1) 0.2;
    seg (-0.1) 0.2 0.2 0.3;
    seg (-0.5) 0.5 (-0.3) 0.3;
    seg (-0.3) 0.5 (-0.5) 0.3;
    seg (-0.5) (-0.5) (-0.2) (-0.5) ].

Definition normalizeMonitorCoordinates (xpos ypos : D) : Point :=
  let norm_x := (xpos - of_int MONITOR_SIZE_X / #2.0)
                / (of_int MONITOR_SIZE_X / #2.0) in
  let norm_y := (ypos - of_int MONITOR_SIZE_Y / #2.0)
                / (of_int MONITOR_SIZE_Y / #2.0) in
  let norm_x :=
    if norm_x >? #1.0 then #1.0
    else if norm_x <? - #1.0 then - #1.0
    else norm_x in
  let norm_y :=
    if norm_y >? #1.0 then #1.0
    else if norm_y <? - #1.0 then - #1.0
    else norm_y in
  let norm_y := norm_y * of_int (-1) in
  mkPoint norm_x norm_y.

(** [pow(a, 2)]: the square, taken as the rounded product [a * a]. *)
Definition pow_2 (a : D) : D := a * a.

Definition pointDistance (p1 p2 : Point) : D :=
  sqrt (pow_2 (x p2 - x p1) + pow_2 (y p2 - y p1)).

(** The denominator shared by the two parametric quotients. *)
Definition denominator (l1 l2 : Line) : D :=
  let x1 := x (point1 l1) in let y1 := y (point1 l1) in
  let x2 := x (point2 l1) in let y2 := y (point2 l1) in
  let x3 := x (point1 l2) in let y3 := y (point1 l2) in
  let x4 := x (point2 l2) in let y4 := y (point2 l2) in
  (x1 - x2) * (y3 - y4) - (y1 - y2) * (x3 - x4).

Definition param_t (l1 l2 : Line) : D :=
  let x1 := x (point1 l1) in let y1 := y (point1 l1) in
  let x3 := x (point1 l2) in let y3 := y (point1 l2) in
  let x4 := x (point2 l2) in let y4 := y (point2 l2) in
  ((x1 - x3) * (y3 - y4) - (y1 - y3) * (x3 - x4)) / denominator l1 l2.

Definition param_u (l1 l2 : Line) : D :=
  let x1 := x (point1 l1) in let y1 := y (point1 l1) in
  let x2 := x (point2 l1) in let y2 := y (point2 l1) in
  let x3 := x (point1 l2) in let y3 := y (point1 l2) in
  (- ((x1 - x2) * (y1 - y3) - (y1 - y2) * (x1 - x3))) / denominator l1 l2.

(** [Some p]: the C function returns 1 and stores [p] through the out
    pointer; [None]: it returns 0 and leaves the pointee untouched. *)
Definition findLineSegmentIntersection (l1 l2 : Line) : option Point :=
  let x1 := x (point1 l1) in let y1 := y (point1 l1) in
  let x2 := x (point2 l1) in let y2 := y (point2 l1) in
  let t := param_t l1 l2 in
  let u := param_u l1 l2 in
  if (#0.0 <=? t) && (t <=? #1.0) && (#0.0 <=? u) && (u <=? #1.0)
  then Some (mkPoint (x1 + t * (x2 - x1)) (y1 + t * (y2 - y1)))
  else None.

Definition ARBITRARY_OUT_OF_BOUNDS_COORD : D := of_int INT16_MAX.

Definition expandLine (original : Line) : Line :=
  let p1 := point1 original in
  let p2 := point2 original in
  if fabs (x p2 - x p1) <? #10e-7 then
    if y p2 <? y p1
    then mkLine p1
           (mkPoint (x p1) (of_int (-1) * ARBITRARY_OUT_OF_BOUNDS_COORD))
    else mkLine p1 (mkPoint (x p1) ARBITRARY_OUT_OF_BOUNDS_COORD)
  else if fabs (y p2 - y p1) <? #10e-7 then
    if x p2 <? x p1
    then mkLine p1 (mkPoint (#(-1.0) * ARBITRARY_OUT_OF_BOUNDS_COORD) (y p1))
    else mkLine p1 (mkPoint ARBITRARY_OUT_OF_BOUNDS_COORD (y p1))
  else
    let slope := (y p2 - y p1) / (x p2 - x p1) in
    let y_intercept := y p1 - (slope * x p1) in
    let ex := ARBITRARY_OUT_OF_BOUNDS_COORD in
    let ey := (slope * ex) + y_intercept in
    let ex := if x p2 <? x p1 then ex * of_int (-1) else ex in
    let ey := if y p2 <? y p1 then ey * of_int 1 else ey in
    mkLine p1 (mkPoint ex ey).

(** The three locals of [findNearestIntersectionPoint] that
    [evaluateIntersection] updates through pointers.  The two [Point]s
    are declared without initialiser: [None] is their indeterminate
    initial content. *)
Record Search : Type := mkSearch {
  intersection : option Point;
  temp : option Point;
  dist_to_intersection : D
}.

Definition evaluateIntersection (start expanded toIntersect : Line)
    (st : Search) : Search :=
  match findLineSegmentIntersection expanded toIntersect with
  | Some hit =>
      if pointDistance (point1 start) hit <? dist_to_intersection st
      then mkSearch (Some hit) (Some hit) (pointDistance (point1 start) hit)
      else mkSearch (intersection st) (Some hit) (dist_to_intersection st)
  | None => st
  end.

Definition borders : list Line :=
  [ seg (-1.1) 1.1 1.1 1.1;
    seg 1.1 1.1 1.1 (-1.1);
    seg (-1.1) (-1.1) 1.1 (-1.1);
    seg (-1.1) 1.1 (-1.1) (-1.1) ].

Definition search_init : Search := mkSearch None None (of_int INT64_MAX).

(** One [for] loop of [findNearestIntersectionPoint] over an array. *)
Definition scan (start expanded : Line) (obstacles : list Line)
    (st : Search) : Search :=
  fold_left (fun s o => evaluateIntersection start expanded o s) obstacles st.

(** The search with the wall array as a parameter; the result is the
    final content of the local [intersection]. *)
Definition findNearestIntersectionPointAmong (ws : list Line)
    (start : Line) : option Point :=
  let expanded := expandLine start in
  intersection (scan start expanded borders
                  (scan start expanded ws search_init)).

Definition findNearestIntersectionPoint (start : Line) : option Point :=
  findNearestIntersectionPointAmong walls start.

Definition scroll_callback (RAY_DENSITY yoffset : D) : D :=
  let RAY_DENSITY := RAY_DENSITY + yoffset in
  if RAY_DENSITY <? #0.0 then #0.0
  else if RAY_DENSITY >? #1080.0 then #1080.0
  else RAY_DENSITY.

(** The density after each of a sequence of scroll events. *)
Fixpoint densities (RAY_DENSITY : D) (events : list D) : list D :=
  match events with
  | [] => []
  | yoffset :: rest =>
      let d := scroll_callback RAY_DENSITY yoffset in d :: densities d rest
  end.

Section Rays.
Context {LM : Libm D}.

Definition angle_increment (RAY_DENSITY : D) : D :=
  #2.0 * PI / RAY_DENSITY.

(** The probe segment built by iteration [i] of the loop of [drawRays]. *)
Definition probe (normalizedOrigin : Point) (inc : D) (i : Z) : Line :=
  let xpos := x normalizedOrigin + CIRCLE_RADIUS * cos (of_int i * inc) in
  let ypos := y normalizedOrigin
              + (CIRCLE_RADIUS * monitor_widescreen_compensation)
                * sin (of_int i * inc) in
  let onCircumference := mkPoint xpos ypos in
  mkLine normalizedOrigin onCircumference.

(** Values taken by the loop counter: [0 <= i < n]. *)
Definition counter_values (n : Z) : list Z :=
  map Z.of_nat (seq 0 (Z.to_nat n)).

Definition probes (RAY_DENSITY : D) (normalizedOrigin : Point)
    : option (list Line) :=
  let inc := angle_increment RAY_DENSITY in
  match to_int RAY_DENSITY with
  | Some n => Some (map (probe normalizedOrigin inc) (counter_values n))
  | None => None
  end.

(** The pairs of vertices handed to OpenGL in one frame: the origin and
    the end point found for each probe. *)
Definition drawRaysAmong (ws : list Line) (RAY_DENSITY xorigin yorigin : D)
    : option (list (Point * option Point)) :=
  let normalizedOrigin := normalizeMonitorCoordinates xorigin yorigin in
  match probes RAY_DENSITY normalizedOrigin with
  | Some ps =>
      Some (map (fun p =>
                   (normalizedOrigin, findNearestIntersectionPointAmong ws p))
                ps)
  | None => None
  end.

Definition drawRays (RAY_DENSITY xorigin yorigin : D) :=
  drawRaysAmong walls RAY_DENSITY xorigin yorigin.
End Rays.
End Program.

Arguments Point D : clear implicits.
Arguments Line D : clear implicits.
Arguments Search D : clear implicits.

(** ** The window and the rendering loop *)

(** The calls of the GLFW and OpenGL libraries that the program makes.
    What [main] does is the sequence of these calls and its exit status.
    The window argument of the GLFW calls is left out.
    [glVertex2d None] stands for a call with the two coordinates of an
    [endPoint] that was never assigned.  [glVertex2f] carries the
    [double]s it is called with (the call converts them to [float]). *)
Inductive Call (D : Type) : Type :=
| glfwInit
| glfwWindowHint_RESIZABLE_FALSE
| glfwCreateWindow (width height : Z) (title : String.string)
| glfwTerminate
| glfwMakeContextCurrent
| glfwSetScrollCallback
| glfwWindowShouldClose
| glfwGetCursorPos
| glfwSwapBuffers
| glfwPollEvents
| glClear_COLOR_BUFFER_BIT
| glLineWidth (width : Q)
| glColor3f (red green blue : Q)
| glEnable_LINE_SMOOTH
| glBegin_LINES
| glVertex2d (vertex : option (Point D))
| glVertex2f (vx vy : D)
| glEnd.

Arguments glfwInit {D}.
Arguments glfwWindowHint_RESIZABLE_FALSE {D}.
Arguments glfwCreateWindow {D}.
Arguments glfwTerminate {D}.
Arguments glfwMakeContextCurrent {D}.
Arguments glfwSetScrollCallback {D}.
Arguments glfwWindowShouldClose {D}.
Arguments glfwGetCursorPos {D}.
Arguments glfwSwapBuffers {D}.
Arguments glfwPollEvents {D}.
Arguments glClear_COLOR_BUFFER_BIT {D}.
Arguments glLineWidth {D}.
Arguments glColor3f {D}.
Arguments glEnable_LINE_SMOOTH {D}.
Arguments glBegin_LINES {D}.
Arguments glEnd {D}.

(** What the libraries answer during one iteration of the loop of
    [main]: the cursor position stored by [glfwGetCursorPos], and the
    vertical offsets of the scroll events for which [glfwPollEvents]
    calls [scroll_callback], in order. *)
Record Iteration (D : Type) : Type := mkIteration {
  cursor_x : D;
  cursor_y : D;
  scrolled : list D
}.

(** What the libraries answer during one run: whether [glfwInit] and
    [glfwCreateWindow] succeed, and the iterations after which
    [glfwWindowShouldClose] answers true. *)
Record Run (D : Type) : Type := mkRun {
  init_succeeds : bool;
  window_created : bool;
  iterations : list (Iteration D)
}.

(** How the process ends: [return status] in [main], or [exit(status)]. *)
Inductive Outcome : Type :=
| Returned (status : Z)
| Exited (status : Z).

Section Title.
Import String.
Definition window_title : String.string := "Raycaster"%string.
End Title.

Section Rendering.
Context {D : Type} {DD : Double D} {LM : Libm D}.

Definition drawWall (w : Line D) : list (Call D) :=
  [ glColor3f 1.0 1.0 1.0;
    glLineWidth 5.0;
    glEnable_LINE_SMOOTH;
    glBegin_LINES;
    glVertex2f (x (point1 w)) (y (point1 w));
    glVertex2f (x (point2 w)) (y (point2 w));
    glEnd ].

(** The two vertices that the loop of [drawRays] specifies for each ray. *)
Definition vertices (rays : list (Point D * option (Point D)))
    : list (Call D) :=
  flat_map (fun ray => [glVertex2d (Some (fst ray)); glVertex2d (snd ray)])
           rays.

(** The calls of [drawRays]; [None] if the cast of the density to [int]
    is undefined. *)
Definition drawRays_calls (RAY_DENSITY xorigin yorigin : D)
    : option (list (Call D)) :=
  match drawRays RAY_DENSITY xorigin yorigin with
  | Some rays =>
      Some ([glfwGetCursorPos; glLineWidth 1.0; glBegin_LINES]
            ++ vertices rays ++ [glEnd])
  | None => None
  end.

(** The body of the loop of [main]. *)
Definition iteration_calls (RAY_DENSITY : D) (it : Iteration D)
    : option (list (Call D)) :=
  match drawRays_calls RAY_DENSITY (cursor_x it) (cursor_y it) with
  | Some rays =>
      Some ([glClear_COLOR_BUFFER_BIT] ++ rays
            ++ flat_map drawWall walls
            ++ [glfwSwapBuffers; glfwPollEvents])
  | None => None
  end.

(** The scroll callbacks run by the [glfwPollEvents] of one iteration. *)
Definition poll (RAY_DENSITY : D) (it : Iteration D) : D :=
  fold_left scroll_callback (scrolled it) RAY_DENSITY.

(** The loop of [main]: the calls made and the final density. *)
Fixpoint render_loop (RAY_DENSITY : D) (its : list (Iteration D))
    : option (list (Call D) * D) :=
  match its with
  | [] => Some ([glfwWindowShouldClose], RAY_DENSITY)
  | it :: rest =>
      match iteration_calls RAY_DENSITY it with
      | Some calls =>
          match render_loop (poll RAY_DENSITY it) rest with
          | Some (calls', d) =>
              Some (glfwWindowShouldClose :: calls ++ calls', d)
          | None => None
          end
      | None => None
      end
  end.

(** [initializeWindow]: the calls made, and whether it returns ([false]:
    it calls [exit(-1)]). *)
Definition initializeWindow (created : bool) : list (Call D) * bool :=
  ([glfwWindowHint_RESIZABLE_FALSE;
    glfwCreateWindow 1920 1080 window_title]
   ++ (if created then [glfwMakeContextCurrent; glfwSetScrollCallback]
       else [glfwTerminate]),
   created).

Definition main (r : Run D) : option (list (Call D) * Outcome) :=
  if negb (init_succeeds r) then Some ([glfwInit], Returned (-1))
  else
    let (calls, returns) := initializeWindow (window_created r) in
    if negb returns then Some (glfwInit :: calls, Exited (-1))
    else
      match render_loop RAY_DENSITY_init (iterations r) with
      | Some (loop, _) =>
          Some (glfwInit :: calls ++ loop ++ [glfwTerminate], Returned 0)
      | None => None
      end.
End Rendering.

(** ** IEEE 754 binary64 *)

(** Conversion of an integer to the nearest binary64 value (ties to
    even), as the specification of the primitive conversion has it. *)
Definition float_of_Z (z : Z) : float :=
  SF2Prim (binary_normalize prec emax z 0 false).

(** A decimal literal [n/d] is the quotient of two exactly represented
    integers, rounded once. *)
Definition float_of_Q (q : Q) : float :=
  PrimFloat.div (float_of_Z (Qnum q)) (float_of_Z (Zpos (Qden q))).

Definition INT_MIN : Z := -2147483648.
Definition INT_MAX : Z := 2147483647.

Definition int_range (z : Z) : option Z :=
  if ((INT_MIN <=? z) && (z <=? INT_MAX))%Z then Some z else None.

(** Truncation toward zero. *)
Definition float_to_Z (f : float) : option Z :=
  match Prim2SF f with
  | S754_zero _ => Some 0%Z
  | S754_finite s m e =>
      let a := Z.shiftl (Zpos m) e in
      int_range (if s then (- a)%Z else a)
  | S754_infinity _ | S754_nan => None
  end.

#[export] Instance binary64 : Double float := {|
  lit := float_of_Q;
  of_int := float_of_Z;
  to_int := float_to_Z;
  add := PrimFloat.add;
  sub := PrimFloat.sub;
  mul := PrimFloat.mul;
  div := PrimFloat.div;
  neg := PrimFloat.opp;
  fabs := PrimFloat.abs;
  sqrt := PrimFloat.sqrt;
  ltb := PrimFloat.ltb;
  leb := PrimFloat.leb
|}.

(** ** Rounding-free arithmetic

    The same operations on real numbers, without rounding or overflow.
    [None] is the one exceptional value: the result of a division by zero
    and of any operation on it.  Every comparison with it is false, as
    every comparison with an IEEE not-a-number is; an IEEE infinity
    compares with numbers, so the two semantics agree on a quotient by
    zero only where it is tested against a bounded range, as the program
    does with its parameters [t] and [u]. *)

Definition ideal : Type := option R.

Definition Rltb (a b : R) : bool := if Rlt_dec a b then true else false.
Definition Rleb (a b : R) : bool := if Rle_dec a b then true else false.

Definition ideal_op1 (f : R -> R) (a : ideal) : ideal :=
  match a with Some a => Some (f a) | None => None end.

Definition ideal_op2 (f : R -> R -> R) (a b : ideal) : ideal :=
  match a, b with Some a, Some b => Some (f a b) | _, _ => None end.

Definition ideal_div (a b : ideal) : ideal :=
  match a, b with
  | Some a, Some b => if Req_dec_T b 0 then None else Some (a / b)%R
  | _, _ => None
  end.

Definition ideal_sqrt (a : ideal) : ideal :=
  match a with
  | Some a => if Rlt_dec a 0 then None else Some (R_sqrt.sqrt a)
  | None => None
  end.

Definition ideal_cmp (f : R -> R -> bool) (a b : ideal) : bool :=
  match a, b with Some a, Some b => f a b | _, _ => false end.

(** Truncation toward zero. *)
Definition Rtrunc (r : R) : Z :=
  if Rle_dec 0 r then Int_part r else (- Int_part (- r))%Z.

Definition ideal_to_int (a : ideal) : option Z :=
  match a with Some r => int_range (Rtrunc r) | None => None end.

#[export] Instance ideal_double : Double ideal := {|
  lit := fun q => Some (Q2R q);
  of_int := fun z => Some (IZR z);
  to_int := ideal_to_int;
  add := ideal_op2 Rplus;
  sub := ideal_op2 Rminus;
  mul := ideal_op2 Rmult;
  div := ideal_div;
  neg := ideal_op1 Ropp;
  fabs := ideal_op1 Rabs;
  sqrt := ideal_sqrt;
  ltb := ideal_cmp Rltb;
  leb := ideal_cmp Rleb
|}.

#[export] Instance ideal_libm : Libm ideal := {|
  cos := ideal_op1 Rtrigo_def.cos;
  sin := ideal_op1 Rtrigo_def.sin
|}.

(** Points and segments with real coordinates. *)
Definition rpoint (a b : R) : Point ideal := mkPoint (Some a) (Some b).
Definition rline (a b c d : R) : Line ideal :=
  mkLine (rpoint a b) (rpoint c d).

(** ** Laws of the comparisons and conversions

    The few facts about [double] arithmetic that the properties of the
    search and of the ray fan rest on.  They hold of IEEE arithmetic with
    its infinities and not-a-number values, so they say nothing on
    totality of the order. *)

Class DoubleOk (D : Type) {DD : Double D} : Prop := {
  ltb_leb : forall a b : D, (a <? b)%D = true -> (a <=? b)%D = true;
  leb_ltb_trans : forall a b c : D,
    (a <=? b)%D = true -> (b <? c)%D = true -> (a <? c)%D = true;
  ltb_leb_false : forall a b : D, (a <? b)%D = true -> (b <=? a)%D = false;
  div_zero_outside : forall a z : D,
    (z <=? #0.0)%D = true -> (#0.0 <=? z)%D = true ->
    ((#0.0 <=? a / z) && (a / z <=? #1.0))%D = false;
  to_int_of_int : forall n : Z,
    (0 <= n <= INT_MAX)%Z -> to_int (of_int n) = Some n
}.

Arguments DoubleOk D {DD}.

(** ** Notions used in the statements *)

Section SearchDefinitions.
Context {D : Type} {DD : Double D}.
Variable start : Line D.

(** The hit of the extended probe on an obstacle and the distance of a
    point from the start of the probe, as [evaluateIntersection]
    computes them. *)
Definition hit (o : Line D) : option (Point D) :=
  findLineSegmentIntersection (expandLine start) o.

Definition dist (q : Point D) : D := pointDistance (point1 start) q.

Definition sentinel : D := of_int INT64_MAX.

Definition run (obstacles : list (Line D)) : Search D :=
  scan start (expandLine start) obstacles search_init.

(** Nothing recorded: no obstacle so far had a hit below the sentinel. *)
Definition nothing_yet (l : list (Line D)) (st : Search D) : Prop :=
  intersection st = None /\ dist_to_intersection st = sentinel /\
  forall j o q, nth_error l j = Some o -> hit o = Some q ->
                (dist q <? sentinel)%D = false.

(** Obstacle [i] gave the recorded point [p]: no hit is strictly nearer,
    and every hit of an earlier obstacle is not even as near. *)
Definition first_nearest (l : list (Line D)) (i : nat) (p : Point D) : Prop :=
  (exists o, nth_error l i = Some o /\ hit o = Some p) /\
  (dist p <? sentinel)%D = true /\
  forall j o q, nth_error l j = Some o -> hit o = Some q ->
                (dist q <? dist p)%D = false /\
                (j < i -> (dist q <=? dist p)%D = false).

Definition recorded (l : list (Line D)) (st : Search D) : Prop :=
  exists i p, intersection st = Some p /\
              dist_to_intersection st = dist p /\ first_nearest l i p.
End SearchDefinitions.

(** The search returns the hit [p] of obstacle number [i] of the list
    walls-then-borders; no obstacle has a hit strictly nearer to the start
    of the probe, and every hit of an obstacle before [i] is strictly
    farther (or at no comparable distance): among equally near hits the
    first in iteration order is the one returned. *)
Definition returns_first_nearest {D : Type} {DD : Double D}
    (ws : list (Line D)) (start : Line D) : Prop :=
  exists i o p,
    findNearestIntersectionPointAmong ws start = Some p /\
    nth_error (ws ++ borders) i = Some o /\
    hit start o = Some p /\
    forall j o' q,
      nth_error (ws ++ borders) j = Some o' -> hit start o' = Some q ->
      (dist start q <? dist start p)%D = false /\
      (j < i -> (dist start q <=? dist start p)%D = false).

(** Some obstacle is hit by the extended probe. *)
Definition some_hit {D : Type} {DD : Double D}
    (ws : list (Line D)) (start : Line D) : Prop :=
  exists o q, In o (ws ++ borders) /\ hit start o = Some q.

(** Some obstacle is hit at a distance below the initial bound of the
    search, [(double) INT64_MAX]. *)
Definition some_hit_in_reach {D : Type} {DD : Double D}
    (ws : list (Line D)) (start : Line D) : Prop :=
  exists o q, In o (ws ++ borders) /\ hit start o = Some q /\
              (dist start q <? sentinel)%D = true.

(** The two segments are parallel: the denominator of the parametric
    quotients is zero (of either sign). *)
Definition parallel {D : Type} {DD : Double D} (l1 l2 : Line D) : Prop :=
  (denominator l1 l2 <=? #0.0)%D = true /\
  (#0.0 <=? denominator l1 l2)%D = true.

Definition within_bounds {D : Type} {DD : Double D} (d : D) : bool :=
  ((#0.0 <=? d) && (d <=? #1080.0))%D.

Definition strictly_inside {D : Type} {DD : Double D} (p : Point D) : bool :=
  ((#(-1.1) <? x p) && (x p <? #1.1) && (#(-1.1) <? y p) && (y p <? #1.1))%D.

(** Dot product of the directions of two segments. *)
Definition direction_dot {D : Type} {DD : Double D} (a b : Line D) : D :=
  ((x (point2 a) - x (point1 a)) * (x (point2 b) - x (point1 b))
   + (y (point2 a) - y (point1 a)) * (y (point2 b) - y (point1 b)))%D.

(** Both coordinates within [-1, 1]. *)
Definition in_unit_square {D : Type} {DD : Double D} (p : Point D) : bool :=
  ((- #1.0 <=? x p) && (x p <=? #1.0)
   && (- #1.0 <=? y p) && (y p <=? #1.0))%D.

(** Both coordinates of magnitude below 256: the normalized space
    [-1, 1] of the program, its border at 1.1, and room to spare. *)
Definition in_view {D : Type} {DD : Double D} (p : Point D) : bool :=
  ((fabs (x p) <? #256.0) && (fabs (y p) <? #256.0))%D.

(** The range test of [findLineSegmentIntersection] on one parameter. *)
Definition in_range {D : Type} {DD : Double D} (t : D) : bool :=
  ((#0.0 <=? t) && (t <=? #1.0))%D.

(** The density after each of a sequence of integer ticks, computed on
    integers: the running sum, clamped after every tick. *)
Fixpoint tick_sums (n : Z) (ticks : list Z) : list Z :=
  match ticks with
  | [] => []
  | k :: rest =>
      let n' := Z.max 0 (Z.min 1080 (n + k)) in n' :: tick_sums n' rest
  end.

(** *** Discipline of the library calls *)

(** The state of the libraries that the discipline of calls depends on:
    whether [glfwInit] was called, whether a context is current, and the
    number of vertices of the open [glBegin] block, if any. *)
Record Discipline : Type := mkDiscipline {
  initialised : bool;
  current : bool;
  block : option nat
}.

(** One call, if the state allows it.  OpenGL needs a current context;
    between [glBegin] and [glEnd] only vertices and colours may be
    specified; a block of [GL_LINES] takes its vertices in pairs; GLFW
    is used between [glfwInit] and [glfwTerminate] only, and not inside
    a block. *)
Definition allowed {D : Type} (s : Discipline) (c : Call D)
    : option Discipline :=
  match c with
  | glfwInit =>
      if initialised s then None else Some (mkDiscipline true false None)
  | glfwTerminate =>
      match initialised s, block s with
      | true, None => Some (mkDiscipline false false None)
      | _, _ => None
      end
  | glfwMakeContextCurrent =>
      match initialised s, block s with
      | true, None => Some (mkDiscipline true true None)
      | _, _ => None
      end
  | glfwWindowHint_RESIZABLE_FALSE | glfwCreateWindow _ _ _
  | glfwSetScrollCallback | glfwWindowShouldClose | glfwGetCursorPos
  | glfwSwapBuffers | glfwPollEvents =>
      match initialised s, block s with
      | true, None => Some s
      | _, _ => None
      end
  | glClear_COLOR_BUFFER_BIT | glLineWidth _ | glEnable_LINE_SMOOTH =>
      match current s, block s with
      | true, None => Some s
      | _, _ => None
      end
  | glColor3f _ _ _ => if current s then Some s else None
  | glBegin_LINES =>
      match current s, block s with
      | true, None => Some (mkDiscipline (initialised s) true (Some 0))
      | _, _ => None
      end
  | glVertex2d _ | glVertex2f _ _ =>
      match current s, block s with
      | true, Some n => Some (mkDiscipline (initialised s) true (Some (S n)))
      | _, _ => None
      end
  | glEnd =>
      match current s, block s with
      | true, Some n =>
          if Nat.even n then Some (mkDiscipline (initialised s) true None)
          else None
      | _, _ => None
      end
  end.

Fixpoint follow {D : Type} (s : Discipline) (calls : list (Call D))
    : option Discipline :=
  match calls with
  | [] => Some s
  | c :: rest =>
      match allowed s c with
      | Some s' => follow s' rest
      | None => None
      end
  end.

(** A whole run keeps the discipline: every call is allowed when it is
    made, and at the end no context is current and no block is open. *)
Definition disciplined {D : Type} (calls : list (Call D)) : Prop :=
  exists s, follow (mkDiscipline false false None) calls = Some s /\
            current s = false /\ block s = None.

(** The state in which the loop of [main] runs. *)
Definition drawing : Discipline := mkDiscipline true true None.

Definition is_vertex2d {D : Type} (c : Call D) : bool :=
  match c with glVertex2d _ => true | _ => false end.

Definition is_vertex2f {D : Type} (c : Call D) : bool :=
  match c with glVertex2f _ _ => true | _ => false end.

Definition is_swap {D : Type} (c : Call D) : bool :=
  match c with glfwSwapBuffers => true | _ => false end.

Definition is_terminate {D : Type} (c : Call D) : bool :=
  match c with glfwTerminate => true | _ => false end.

(** The calls of OpenGL proper. *)
Definition is_gl {D : Type} (c : Call D) : bool :=
  match c with
  | glClear_COLOR_BUFFER_BIT | glLineWidth _ | glColor3f _ _ _
  | glEnable_LINE_SMOOTH | glBegin_LINES | glVertex2d _ | glVertex2f _ _
  | glEnd => true
  | _ => false
  end.

Definition number_of {A : Type} (p : A -> bool) (l : list A) : nat :=
  length (filter p l).

(** ** Inputs and library values for the evaluations in binary64 *)

(** Test inputs, in binary64. *)
Definition fpoint (a b : Q) : Point float := mkPoint (lit a) (lit b).
Definition fline (a b c d : Q) : Line float :=
  mkLine (fpoint a b) (fpoint c d).

(** A probe pointing east from the centre of the screen. *)
Definition probe_east : Line float := fline 0 0 0.05 0.
(** A probe pointing west from a start far to the east of the screen. *)
Definition probe_far : Line float := fline 1e19 0 0 0.
(** A probe that starts east of the east border and points away from it. *)
Definition probe_outside : Line float := fline 2 0 3 0.

(** A probe pointing up and to the left. *)
Definition probe_up_left : Line float := fline 0 0 (-0.05) 0.05.

(** A probe whose line passes through the corner (1.1, 1.1). *)
Definition probe_corner : Line float := fline (-0.39) 0.12 (-0.241) 0.218.

Definition SF_is_number (a : spec_float) : bool :=
  match a with S754_zero _ | S754_finite _ _ _ => true | _ => false end.

(** Scroll ticks: integer densities and offsets of a few units.  The sum
    is exact, so a tick changes the density by its offset, clamped. *)
Definition tick_exact (n k : Z) : bool :=
  PrimFloat.Leibniz.eqb
    (scroll_callback (of_int n : float) (of_int k))
    (of_int (Z.max 0 (Z.min 1080 (n + k)))).

Definition Zrange (lo : Z) (len : nat) : list Z :=
  map (fun i => (lo + Z.of_nat i)%Z) (seq 0 len).

(** Values returned by the C library's [cos] and [sin] at the angles that
    occur in the examples of this file: the four multiples of
    [2.0 * PI / 4], and [173 * (2.0 * PI / 180)].  Nothing else is sampled;
    other arguments give a not-a-number. *)
Definition libm_samples : list (float * (float * float)) :=
  [ (0x0p+0, (0x1p+0, 0x0p+0));
    (0x1.921fb54442eeap+0, (-0x1.d1b9676733ae9p-44, 0x1p+0));
    (0x1.921fb54442eeap+1, (-0x1p+0, -0x1.d1b9676733ae9p-43));
    (0x1.2d97c7f332330p+2, (0x1.5dcb0d8d66c2fp-42, -0x1p+0));
    (0x1.827c57763aa3ep+2, (0x1.f0ca99f79bd86p-1, -0x1.ef74bf2e482eap-3))
  ]%float.

Fixpoint sample (a : float) (t : list (float * (float * float)))
    : float * float :=
  match t with
  | [] => (PrimFloat.nan, PrimFloat.nan)
  | (k, v) :: t' => if PrimFloat.Leibniz.eqb k a then v else sample a t'
  end.

Definition libm_sampled : Libm float := {|
  cos := fun a => fst (sample a libm_samples);
  sin := fun a => snd (sample a libm_samples)
|}.

(** Zero or a finite number: not an infinity, not a not-a-number. *)
Definition is_finite (f : float) : bool := SF_is_number (Prim2SF f).

(** A run of two iterations: two scroll events in the first, none in the
    second. *)
Definition run_two_frames : Run float :=
  mkRun true true
    [ mkIteration (lit 960) (lit 540) [lit (-1); lit 2];
      mkIteration (lit 100) (lit 200) [] ].


(** ** Magnitudes in binary64

    [SF_below k a]: [a] is a zero or a finite number of magnitude below
    [2^k].  [SF_above j a]: [a] is a finite number of magnitude at least
    [2^(j-1)]. *)

Definition SF_below (k : Z) (a : spec_float) : Prop :=
  match a with
  | S754_zero _ => True
  | S754_finite _ m e => (Zpos (digits2_pos m) + e <= k)%Z
  | _ => False
  end.

Definition SF_above (j : Z) (a : spec_float) : Prop :=
  match a with
  | S754_finite _ m e => (j <= Zpos (digits2_pos m) + e)%Z
  | _ => False
  end.

Definition SF_not_negative (a : spec_float) : Prop :=
  match a with
  | S754_zero _ | S754_finite false _ _ => True
  | _ => False
  end.

Definition below (k : Z) (f : float) : Prop := SF_below k (Prim2SF f).

Definition at_least (j : Z) (f : float) : Prop := SF_above j (Prim2SF f).

Definition not_negative (f : float) : Prop := SF_not_negative (Prim2SF f).

(** ** The parameters of two segments, without rounding

    The value of a finite binary64 number is a rational; on the
    coordinates as they are stored, the two quotients of
    [findLineSegmentIntersection] can be computed exactly. *)






(** ** Values up to the sign of a zero

    A value with the sign of a zero forgotten, and with the sign of an
    infinity forgotten as well. *)
Definition SF_unsigned_zero (a : spec_float) : spec_float :=
  match a with
  | S754_zero _ => S754_zero false
  | _ => a
  end.

Definition SF_unsigned (a : spec_float) : spec_float :=
  match a with
  | S754_zero _ => S754_zero false
  | S754_infinity _ => S754_infinity false
  | _ => a
  end.

Definition SF_same (a b : spec_float) : Prop :=
  SF_unsigned_zero a = SF_unsigned_zero b.

Definition SF_alike (a b : spec_float) : Prop :=
  SF_unsigned a = SF_unsigned b.

(** ** Real constants and notions of the exact geometry *)

Section ExactDefinitions.
Local Open Scope R_scope.

(** The denominator and the two numerators of the parametric quotients. *)
Definition den (x1 y1 x2 y2 x3 y3 x4 y4 : R) : R :=
  (x1 - x2) * (y3 - y4) - (y1 - y2) * (x3 - x4).

Definition num_t (x1 y1 x3 y3 x4 y4 : R) : R :=
  (x1 - x3) * (y3 - y4) - (y1 - y3) * (x3 - x4).

Definition num_u (x1 y1 x2 y2 x3 y3 : R) : R :=
  - ((x1 - x2) * (y1 - y3) - (y1 - y2) * (x1 - x3)).

Definition in_unit (r : R) : bool := Rleb 0 r && Rleb r 1.

(** Half the side of the border square. *)
Definition w : R := 11 / 10.

Definition north : Line ideal := rline (- w) w w w.
Definition east : Line ideal := rline w w w (- w).
Definition south : Line ideal := rline (- w) (- w) w (- w).
Definition west : Line ideal := rline (- w) w (- w) (- w).

(** The threshold [10e-7] and the coordinate [INT16_MAX]. *)
Definition eps : R := / 1000000.
Definition far : R := 32767.

(** Where the segment from a point inside the square to a point outside
    meets the boundary: on a horizontal side (first case) or on a vertical
    side (second case). *)
Definition meets_horizontal (x1 y1 ex ey c : R) : Prop :=
  ey <> y1 /\ 0 <= (c - y1) / (ey - y1) <= 1 /\
  - w <= x1 + (c - y1) / (ey - y1) * (ex - x1) <= w.

Definition meets_vertical (x1 y1 ex ey c : R) : Prop :=
  ex <> x1 /\ 0 <= (c - x1) / (ex - x1) <= 1 /\
  - w <= y1 + (c - x1) / (ex - x1) * (ey - y1) <= w.

(** The program's constants as real numbers. *)
Definition PIr : R := 314159265359 / 100000000000.
Definition radius : R := 5 / 100.
Definition compensation : R := 1920 / 1080.
(** The increment at density 4. *)
Definition quarter : R := 2 * PIr / 4.

Definition ray_x (i : Z) : R :=
  0 + radius * Rtrigo_def.cos (IZR i * quarter).
Definition ray_y (i : Z) : R :=
  0 + radius * compensation * Rtrigo_def.sin (IZR i * quarter).
End ExactDefinitions.

(** * Properties *)

(** *** Literals and conversions in binary64 *)

(** The literals of the program denote the binary64 numbers nearest to
    them, [(double) INT64_MAX] is [2^63], and a negated literal is the
    literal of the negative number. *)
Lemma literals_binary64 :
  (#0.05%D, #1.1%D, #3.14159265359%D, #10e-7%D, #0.65%D)
  = (0x1.999999999999ap-5, 0x1.199999999999ap+0, 0x1.921fb54442eeap+1,
     0x1.0c6f7a0b5ed8dp-20, 0x1.4cccccccccccdp-1)%float /\
  (of_int INT64_MAX : float) = 0x1p+63%float /\
  (- #1.1)%D = (#(-1.1)%D : float) /\
  (of_int (-1) * of_int INT16_MAX)%D = (#(-32767)%D : float).
Proof. repeat split; vm_compute; reflexivity. Qed.

(** *** Order of the specification floats *)

Ltac cmp_cases :=
  repeat match goal with
  | H : context [Z.compare ?a ?b] |- _ =>
      destruct (Z.compare_spec a b); try discriminate H
  | H : context [Pos.compare_cont Eq ?a ?b] |- _ =>
      change (Pos.compare_cont Eq a b) with (Pos.compare a b) in H;
      destruct (Pos.compare_spec a b); simpl in H; try discriminate H
  | |- context [Z.compare ?a ?b] =>
      destruct (Z.compare_spec a b)
  | |- context [Pos.compare_cont Eq ?a ?b] =>
      change (Pos.compare_cont Eq a b) with (Pos.compare a b);
      destruct (Pos.compare_spec a b); simpl
  end; subst; try reflexivity; try discriminate; try lia.

Ltac sf_cases a b :=
  destruct a as [[|]|[|]| |[|] ? ?], b as [[|]|[|]| |[|] ? ?]; simpl;
  try discriminate; try reflexivity; try congruence.

Lemma SFltb_leb a b : SFltb a b = true -> SFleb a b = true.
Proof.
  unfold SFltb, SFleb. destruct (SFcompare a b) as [[ | | ]|]; easy.
Qed.

Lemma SFleb_ltb_trans a b c :
  SFleb a b = true -> SFltb b c = true -> SFltb a c = true.
Proof.
  unfold SFltb, SFleb.
  destruct c as [[|]|[|]| |[|] ? ?]; sf_cases a b; intros H1 H2; cmp_cases.
Qed.

Lemma SFltb_leb_false a b : SFltb a b = true -> SFleb b a = false.
Proof.
  unfold SFltb, SFleb. sf_cases a b; intros H1; cmp_cases.
Qed.

Lemma SFltb_false_leb a b :
  a <> S754_nan -> b <> S754_nan -> SFltb a b = false -> SFleb b a = true.
Proof.
  unfold SFltb, SFleb. sf_cases a b; intros _ _ H1; cmp_cases.
Qed.

(** A value that is both [<= 0] and [>= 0] is one of the two zeros. *)
Lemma SF_zero_between z :
  SFleb z (S754_zero false) = true -> SFleb (S754_zero false) z = true ->
  exists s, z = S754_zero s.
Proof.
  unfold SFleb. destruct z as [s|[|]| |[|] m e]; simpl; try discriminate.
  intros _ _. now exists s.
Qed.

(** A quotient by zero is an infinity or not a number: never in [0, 1]. *)
Lemma SFdiv_zero_outside a s :
  let q := SF64div a (S754_zero s) in
  SFleb (S754_zero false) q
  && SFleb q (S754_finite false 4503599627370496 (-52))
  = false.
Proof.
  destruct a as [[|]|[|]| |[|] m e], s; reflexivity.
Qed.

Lemma Prim2SF_lit_0 : Prim2SF (float_of_Q 0.0) = S754_zero false.
Proof. reflexivity. Qed.

Lemma Prim2SF_lit_1 :
  Prim2SF (float_of_Q 1.0) = S754_finite false 4503599627370496 (-52).
Proof. reflexivity. Qed.

(** An [int] that is not negative converts to a [double] exactly: its
    digits are shifted up to the 53 of the significand, nothing is
    rounded away, and truncation gives the integer back. *)

Lemma digits2_pos_bound (p : positive) (n : Z) :
  (0 <= n)%Z -> (Zpos p < 2 ^ n)%Z -> (Zpos (digits2_pos p) <= n)%Z.
Proof.
  revert n. induction p as [p IH|p IH|]; intros n Hn H;
    (assert (0 < n)%Z
      by (destruct (Z.eq_dec n 0) as [->|]; [simpl in H; lia | lia]));
    simpl; try lia;
    replace n with (Z.succ (n - 1)) in H by lia;
    rewrite Z.pow_succ_r in H by lia;
    specialize (IH (n - 1)%Z ltac:(lia) ltac:(lia)); lia.
Qed.

Lemma iter_xO_digits (p k : positive) :
  digits2_pos (Pos.iter xO p k) = (digits2_pos p + k)%positive.
Proof.
  induction k as [|k IH] using Pos.peano_ind.
  - simpl. lia.
  - rewrite Pos.iter_succ. simpl. rewrite IH. lia.
Qed.

Lemma iter_xO_value (p k : positive) :
  Zpos (Pos.iter xO p k) = (Zpos p * 2 ^ Zpos k)%Z.
Proof.
  induction k as [|k IH] using Pos.peano_ind.
  - simpl. lia.
  - rewrite Pos.iter_succ, Pos2Z.inj_succ, Z.pow_succ_r by lia.
    rewrite Pos2Z.inj_xO, IH. ring.
Qed.

Lemma round_canonical (m : positive) (e : Z) :
  fexp prec emax (Zpos (digits2_pos m) + e) = e -> (e <= emax - prec)%Z ->
  binary_round_aux prec emax false (Zpos m) e loc_Exact
  = S754_finite false m e.
Proof.
  intros Hf He. unfold binary_round_aux, shr_fexp.
  cbn [Zdigits2 shr_record_of_loc]. rewrite Hf, Z.sub_diag.
  cbn [shr shr_m loc_of_shr_record round_nearest_even Zdigits2].
  rewrite Hf, Z.sub_diag. cbn [shr shr_m].
  destruct (Z.leb_spec e (emax - prec)); [reflexivity | lia].
Qed.

Lemma binary_normalize_int (p : positive) :
  (Zpos p < 2 ^ 53)%Z ->
  exists m e,
    binary_normalize prec emax (Zpos p) 0 false = S754_finite false m e /\
    SpecFloat.valid_binary prec emax (S754_finite false m e) = true /\
    Z.shiftl (Zpos m) e = Zpos p.
Proof.
  intros Hp.
  pose proof (@digits2_pos_bound p 53 ltac:(lia) Hp) as Hd.
  unfold binary_normalize, binary_round, shl_align.
  set (d := digits2_pos p) in *.
  assert (Hfe : fexp prec emax (Zpos d + 0) = (Zpos d - 53)%Z).
  { unfold fexp, SpecFloat.emin, prec, emax. lia. }
  rewrite Hfe, Z.sub_0_r.
  destruct (Zpos d - 53)%Z as [|q|k] eqn:Ek; try lia.
  - exists p, 0%Z.
    assert (Hc : fexp prec emax (Zpos (digits2_pos p) + 0) = 0%Z)
      by (fold d; rewrite Hfe; lia).
    split; [|split].
    + apply round_canonical; [exact Hc | unfold emax, prec; lia].
    + unfold SpecFloat.valid_binary, bounded, canonical_mantissa.
      rewrite Hc. reflexivity.
    + apply Z.shiftl_0_r.
  - exists (Pos.iter xO p k), (Zneg k).
    assert (Hc : fexp prec emax
                   (Zpos (digits2_pos (Pos.iter xO p k)) + Zneg k)
                 = Zneg k).
    { rewrite iter_xO_digits. fold d.
      unfold fexp, SpecFloat.emin, prec, emax. lia. }
    split; [|split].
    + apply round_canonical; [exact Hc | unfold emax, prec; lia].
    + unfold SpecFloat.valid_binary, bounded, canonical_mantissa.
      rewrite Hc, Z.eqb_refl. apply Z.leb_le. unfold emax, prec. lia.
    + rewrite iter_xO_value.
      change (Zneg k) with (- Zpos k)%Z.
      rewrite <- Z.shiftr_opp_r, Z.opp_involutive, Z.shiftr_div_pow2 by lia.
      apply Z.div_mul. lia.
Qed.

Lemma float_int_round_trip (n : Z) :
  (0 <= n <= INT_MAX)%Z -> float_to_Z (float_of_Z n) = Some n.
Proof.
  intros Hn. destruct n as [|p|p]; [reflexivity| |lia].
  assert (Hp : (Zpos p < 2 ^ 53)%Z) by (unfold INT_MAX in Hn; lia).
  destruct (binary_normalize_int Hp) as (m & e & Hb & Hv & Hs).
  unfold float_to_Z, float_of_Z.
  rewrite Hb, (FloatAxioms.Prim2SF_SF2Prim _ Hv), Hs.
  unfold int_range.
  destruct (Z.leb_spec INT_MIN (Zpos p)) as [_|H];
    [|unfold INT_MIN in H; lia].
  destruct (Z.leb_spec (Zpos p) INT_MAX) as [_|H]; [reflexivity | lia].
Qed.

#[export] Instance binary64_ok : DoubleOk float.
Proof.
  constructor; cbn [ltb leb div lit to_int of_int binary64].
  - intros a b. rewrite FloatAxioms.ltb_spec, FloatAxioms.leb_spec.
    apply SFltb_leb.
  - intros a b c. rewrite !FloatAxioms.ltb_spec, FloatAxioms.leb_spec.
    apply SFleb_ltb_trans.
  - intros a b. rewrite FloatAxioms.ltb_spec, FloatAxioms.leb_spec.
    apply SFltb_leb_false.
  - intros a z.
    rewrite !FloatAxioms.leb_spec, FloatAxioms.div_spec, Prim2SF_lit_0,
      Prim2SF_lit_1.
    intros H1 H2. destruct (SF_zero_between _ H1 H2) as [s ->].
    apply SFdiv_zero_outside.
  - apply float_int_round_trip.
Qed.

(** *** The laws in rounding-free arithmetic *)

Lemma Rltb_true a b : Rltb a b = true <-> (a < b)%R.
Proof. unfold Rltb. destruct (Rlt_dec a b); split; easy. Qed.

Lemma Rltb_false a b : Rltb a b = false <-> (b <= a)%R.
Proof.
  unfold Rltb. destruct (Rlt_dec a b); split; try easy; intros; lra.
Qed.

Lemma Rleb_true a b : Rleb a b = true <-> (a <= b)%R.
Proof. unfold Rleb. destruct (Rle_dec a b); split; easy. Qed.

Lemma Rleb_false a b : Rleb a b = false <-> (b < a)%R.
Proof.
  unfold Rleb. destruct (Rle_dec a b); split; try easy; intros; lra.
Qed.

Lemma Rtrunc_IZR n : Rtrunc (IZR n) = n.
Proof.
  unfold Rtrunc. destruct (Rle_dec 0 (IZR n)) as [H|H].
  - symmetry. apply Int_part_spec. lra.
  - rewrite <- opp_IZR.
    assert (E : (- n)%Z = Int_part (IZR (- n))) by (apply Int_part_spec; lra).
    rewrite <- E. lia.
Qed.

#[export] Instance ideal_ok : DoubleOk ideal.
Proof.
  constructor; cbn [ltb leb div lit to_int of_int ideal_double].
  - intros [a|] [b|]; simpl; try discriminate.
    rewrite Rltb_true, Rleb_true. lra.
  - intros [a|] [b|] [c|]; simpl; try discriminate.
    rewrite !Rltb_true, Rleb_true. lra.
  - intros [a|] [b|]; simpl; try discriminate.
    rewrite Rltb_true, Rleb_false. lra.
  - intros a [z|]; simpl; try discriminate.
    rewrite !Rleb_true. unfold Q2R; simpl. intros H1 H2.
    assert (z = 0%R) as -> by lra.
    destruct a as [a|]; simpl; [|reflexivity].
    destruct (Req_dec_T 0 0) as [_|N]; [reflexivity | now elim N].
  - intros n Hn. unfold ideal_to_int. rewrite Rtrunc_IZR.
    unfold int_range, INT_MIN, INT_MAX in *.
    destruct (Z.leb_spec (-2147483648) n), (Z.leb_spec n 2147483647);
      simpl; try reflexivity; lia.
Qed.

(** ** The nearest-hit search *)

Section SearchFacts.
Context {D : Type} {DD : Double D}.
Variable start : Line D.

Lemma scan_app ex l1 l2 (st : Search D) :
  scan start ex (l1 ++ l2) st = scan start ex l2 (scan start ex l1 st).
Proof. apply fold_left_app. Qed.

Lemma run_snoc l o :
  run start (l ++ [o])
  = evaluateIntersection start (expandLine start) o (run start l).
Proof. unfold run. now rewrite scan_app. Qed.

Lemma findNearest_run ws :
  findNearestIntersectionPointAmong ws start
  = intersection (run start (ws ++ borders)).
Proof.
  unfold findNearestIntersectionPointAmong, run. now rewrite scan_app.
Qed.

Lemma nth_error_snoc_inv (A : Type) (l : list A) (a b : A) j :
  nth_error (l ++ [a]) j = Some b ->
  (j < length l /\ nth_error l j = Some b) \/ (j = length l /\ b = a).
Proof.
  intros H. destruct (Nat.lt_ge_cases j (length l)) as [Hlt|Hge].
  - left. split; [assumption|]. now rewrite nth_error_app1 in H.
  - right. rewrite nth_error_app2 in H by assumption.
    destruct (j - length l) as [|k] eqn:E; simpl in H.
    + split; [lia | congruence].
    + destruct k; discriminate.
Qed.

Context {OK : DoubleOk D}.

Lemma ltb_irrefl (a : D) : (a <? a)%D = false.
Proof.
  destruct (a <? a)%D eqn:E; [|reflexivity].
  pose proof (ltb_leb _ _ E) as H1. pose proof (ltb_leb_false _ _ E) as H2.
  congruence.
Qed.

Lemma leb_false_ltb_false (a b : D) :
  (a <=? b)%D = false -> (a <? b)%D = false.
Proof.
  intros H. destruct (a <? b)%D eqn:E; [|reflexivity].
  apply ltb_leb in E. congruence.
Qed.

(** A hit that beats bound [b] is strictly nearer than everything that
    did not beat [b]. *)
Lemma beaten_by (q q' : Point D) (b : D) :
  (dist start q <? b)%D = true -> (dist start q' <? b)%D = false ->
  (dist start q' <=? dist start q)%D = false.
Proof.
  intros H1 H2.
  destruct (dist start q' <=? dist start q)%D eqn:E; [|reflexivity].
  rewrite (leb_ltb_trans _ _ _ E H1) in H2. discriminate.
Qed.

Lemma search_invariant l :
  nothing_yet start l (run start l) \/ recorded start l (run start l).
Proof.
  induction l as [|o l IH] using rev_ind.
  - left. repeat split. intros [|j] o q H; discriminate.
  - rewrite run_snoc. unfold evaluateIntersection.
    fold (hit start o). destruct (hit start o) as [q|] eqn:Hq.
    + fold (dist start q).
      destruct (dist start q <? dist_to_intersection (run start l))%D eqn:Hlt.
      * (* the new hit is recorded *)
        right. exists (length l), q. simpl. repeat split.
        -- exists o. split; [|assumption].
           rewrite nth_error_app2, Nat.sub_diag by lia. reflexivity.
        -- destruct IH as [(_ & Hd & _)|(i & p & _ & Hd & _ & Hs & _)].
           ++ now rewrite Hd in Hlt.
           ++ rewrite Hd in Hlt.
              exact (leb_ltb_trans _ _ _ (ltb_leb _ _ Hlt) Hs).
        -- apply nth_error_snoc_inv in H as [[Hj H]|[-> ->]].
           ++ apply leb_false_ltb_false.
              destruct IH as [(_ & Hd & Hn)|(i & p & _ & Hd & _ & _ & Hm)].
              ** rewrite Hd in Hlt. eapply beaten_by; eauto.
              ** rewrite Hd in Hlt. eapply beaten_by; eauto.
                 eapply Hm; eauto.
           ++ rewrite Hq in H0. injection H0 as <-. apply ltb_irrefl.
        -- intros Hj. apply nth_error_snoc_inv in H as [[_ H]|[-> _]]; [|lia].
           destruct IH as [(_ & Hd & Hn)|(i & p & _ & Hd & _ & _ & Hm)].
           ++ rewrite Hd in Hlt. eapply beaten_by; eauto.
           ++ rewrite Hd in Hlt. eapply beaten_by; eauto.
              eapply Hm; eauto.
      * (* the new hit is discarded *)
        destruct IH
          as [(Hi & Hd & Hn)|(i & p & Hi & Hd & (o' & Ho' & Hp) & Hs & Hm)].
        -- left. simpl. repeat split; try assumption.
           intros j o' q' H H'.
           apply nth_error_snoc_inv in H as [[_ H]|[-> ->]]; [eauto|].
           rewrite Hq in H'. injection H' as <-. now rewrite Hd in Hlt.
        -- right. exists i, p. simpl. repeat split; try assumption.
           ++ exists o'. split; [|assumption].
              rewrite nth_error_app1; [assumption|].
              apply nth_error_Some. congruence.
           ++ apply nth_error_snoc_inv in H as [[_ H]|[-> ->]].
              ** eapply Hm; eauto.
              ** rewrite Hq in H0. injection H0 as <-. now rewrite Hd in Hlt.
           ++ intros Hj. apply nth_error_snoc_inv in H as [[_ H]|[-> ->]].
              ** eapply Hm; eauto.
              ** assert (i < length l) by (apply nth_error_Some; congruence).
                 lia.
    + (* no hit on the new obstacle *)
      destruct IH
        as [(Hi & Hd & Hn)|(i & p & Hi & Hd & (o' & Ho' & Hp) & Hs & Hm)].
      * left. repeat split; try assumption.
        intros j o' q' H H'.
        apply nth_error_snoc_inv in H as [[_ H]|[-> ->]]; [eauto|].
        unfold hit in *. congruence.
      * right. exists i, p. repeat split; try assumption.
        -- exists o'. split; [|assumption].
           rewrite nth_error_app1; [assumption|].
           apply nth_error_Some. congruence.
        -- apply nth_error_snoc_inv in H as [[_ H]|[-> ->]].
           ++ eapply Hm; eauto.
           ++ unfold hit in *. congruence.
        -- intros Hj. apply nth_error_snoc_inv in H as [[_ H]|[-> ->]].
           ++ eapply Hm; eauto.
           ++ unfold hit in *. congruence.
Qed.
End SearchFacts.

(** The outcome of the search: either nothing is returned and no obstacle
    has a hit below the initial bound, or the first of the nearest hits is
    returned. *)
Lemma search_final_state {D : Type} {DD : Double D} {OK : DoubleOk D}
    (ws : list (Line D)) (start : Line D) :
  (findNearestIntersectionPointAmong ws start = None /\
   forall o q, In o (ws ++ borders) -> hit start o = Some q ->
               (dist start q <? sentinel)%D = false) \/
  returns_first_nearest ws start.
Proof.
  rewrite findNearest_run.
  destruct (search_invariant start (ws ++ borders))
    as [(Hi & _ & Hn)|(i & p & Hi & _ & (o' & Ho' & Hp) & _ & Hm)].
  - left. split; [assumption|]. intros o q Hin Hq.
    destruct (In_nth_error _ _ Hin) as [j Hj]. eauto.
  - right. exists i, o', p. rewrite findNearest_run. auto.
Qed.

(** In any arithmetic with the comparison laws: if some obstacle (walls
    in array order, then the four borders) is hit by the extended probe
    nearer than the initial bound [(double) INT64_MAX],
    [findNearestIntersectionPoint] returns the hit of an obstacle whose
    distance from the start of the probe is minimal over all obstacles
    hit, and of equally near hits the one of the obstacle first in
    iteration order. *)
Lemma first_minimum_within_reach {D : Type} {DD : Double D} {OK : DoubleOk D}
    (ws : list (Line D)) (start : Line D) :
  some_hit_in_reach ws start -> returns_first_nearest ws start.
Proof.
  intros (o & q & Hin & Hq & Hs).
  destruct (search_final_state ws start) as [[_ Hn]|H]; [|exact H].
  rewrite (Hn o q Hin Hq) in Hs. discriminate.
Qed.

(** Far outside the normalized space the initial bound is in the way:
    the extended probe from (1e19, 0) towards the screen crosses the west
    border at a distance above [(double) INT64_MAX], and no point is
    returned. *)
Lemma far_hit_not_returned :
  some_hit walls probe_far /\ ~ returns_first_nearest walls probe_far.
Proof.
  split.
  - exists (seg (-1.1) 1.1 (-1.1) (-1.1)).
    eexists. split; [|vm_compute; reflexivity].
    apply in_or_app. right. simpl. auto.
  - intros (i & o & p & H & _). vm_compute in H. discriminate.
Qed.

(** *** A search without any hit *)

Section NoHit.
Context {D : Type} {DD : Double D}.
Variable start : Line D.

(** What is recorded is the hit of an obstacle already visited. *)
Lemma recorded_is_a_hit l :
  intersection (run start l) = None \/
  exists o p, In o l /\ hit start o = Some p /\
              intersection (run start l) = Some p.
Proof.
  induction l as [|o l IH] using rev_ind.
  - now left.
  - rewrite run_snoc. unfold evaluateIntersection. fold (hit start o).
    destruct (hit start o) as [q|] eqn:Hq.
    + destruct (_ <? _)%D; simpl.
      * right. exists o, q. repeat split; auto.
        apply in_or_app. right. now left.
      * destruct IH as [IH|(o' & p & Hin & Hp & Hi)]; [now left|].
        right. exists o', p. repeat split; auto. apply in_or_app. now left.
    + destruct IH as [IH|(o' & p & Hin & Hp & Hi)]; [now left|].
      right. exists o', p. repeat split; auto. apply in_or_app. now left.
Qed.
End NoHit.

(** C9: if the extended probe hits no wall and no border,
    [findNearestIntersectionPoint] returns the content of its local
    [intersection] as it was declared, never assigned: the model's [None].
    Nothing is signalled.  Conversely a determined point is returned only
    when an obstacle is hit, and it is the hit of one of them. *)
Theorem no_hit_returns_unassigned {D : Type} {DD : Double D}
    (ws : list (Line D)) (start : Line D) :
  ((forall o, In o (ws ++ borders) -> hit start o = None) ->
   findNearestIntersectionPointAmong ws start = None) /\
  (forall p, findNearestIntersectionPointAmong ws start = Some p ->
             exists o, In o (ws ++ borders) /\ hit start o = Some p).
Proof.
  rewrite findNearest_run.
  destruct (recorded_is_a_hit start (ws ++ borders))
    as [H|(o & p & Hin & Hp & Hi)].
  - split; [auto|]. intros p Hp. congruence.
  - split.
    + intros Hno. rewrite (Hno o Hin) in Hp. discriminate.
    + intros p' Hp'. exists o. split; [assumption|]. congruence.
Qed.

Lemma no_hit_returns_unassigned_witness :
  (forall o, In o (walls ++ borders) -> hit probe_outside o = None) /\
  findNearestIntersectionPoint probe_outside = None.
Proof.
  assert (H : forall o, In o (walls ++ borders) -> hit probe_outside o = None).
  { intros o Hin. cbv [walls borders app In] in Hin.
    repeat (destruct Hin as [<-|Hin]; [vm_compute; reflexivity|]).
    contradiction. }
  split; [exact H|].
  exact (proj1 (no_hit_returns_unassigned walls probe_outside) H).
Defined.

(** *** Parallel segments *)

(** C5: for parallel segments, the denominator of the two quotients
    being zero, [findLineSegmentIntersection] reports no intersection.  The
    division by zero yields an infinity or a not-a-number, which fails the
    range test; the function is total, nothing is raised. *)
Theorem parallel_no_intersection {D : Type} {DD : Double D} {OK : DoubleOk D}
    (l1 l2 : Line D) :
  parallel l1 l2 -> findLineSegmentIntersection l1 l2 = None.
Proof.
  intros [H1 H2]. unfold findLineSegmentIntersection, param_t.
  rewrite (div_zero_outside _ _ H1 H2). reflexivity.
Qed.

(** Two distinct parallel segments, and two overlapping segments of one
    line. *)
Lemma parallel_no_intersection_witness :
  (parallel (fline 0 0 1 1) (fline 0 1 1 2) /\
   findLineSegmentIntersection (fline 0 0 1 1) (fline 0 1 1 2) = None) /\
  (parallel (fline 0 0 2 2) (fline 1 1 3 3) /\
   findLineSegmentIntersection (fline 0 0 2 2) (fline 1 1 3 3) = None).
Proof.
  assert (H1 : parallel (fline 0 0 1 1) (fline 0 1 1 2))
    by (split; vm_compute; reflexivity).
  assert (H2 : parallel (fline 0 0 2 2) (fline 1 1 3 3))
    by (split; vm_compute; reflexivity).
  split; split; try assumption.
  - exact (parallel_no_intersection H1).
  - exact (parallel_no_intersection H2).
Defined.

(** ** The density clamp *)

(** *** Rounding never invents a not-a-number *)

Lemma iter_pos_preserves (A : Type) (P : A -> Prop) (f : A -> A) :
  (forall a, P a -> P (f a)) -> forall p a, P a -> P (iter_pos f p a).
Proof.
  intros Hf. induction p as [p IH|p IH|]; intros a Ha; simpl; auto.
Qed.

Lemma shr_1_nonneg mrs : (0 <= shr_m mrs)%Z -> (0 <= shr_m (shr_1 mrs))%Z.
Proof.
  destruct mrs as [m r s]. simpl.
  destruct m as [|[p|p|]|p]; simpl; intros H; lia.
Qed.

Lemma shr_nonneg mrs e n :
  (0 <= shr_m mrs)%Z -> (0 <= shr_m (fst (shr mrs e n)))%Z.
Proof.
  intros H. destruct n as [|p|p]; simpl; auto.
  apply (iter_pos_preserves (fun r => (0 <= shr_m r)%Z));
    auto using shr_1_nonneg.
Qed.

Lemma shr_fexp_nonneg m e l :
  (0 <= m)%Z -> (0 <= shr_m (fst (shr_fexp prec emax m e l)))%Z.
Proof.
  intros H. unfold shr_fexp. apply shr_nonneg.
  destruct l as [|[ | | ]]; simpl; assumption.
Qed.

Lemma round_nearest_even_nonneg m l :
  (0 <= m)%Z -> (0 <= round_nearest_even m l)%Z.
Proof.
  intros H. destruct l as [|[ | | ]]; simpl; try lia.
  destruct (Z.even m); lia.
Qed.

Lemma binary_round_aux_not_nan s m e l :
  (0 <= m)%Z -> binary_round_aux prec emax s m e l <> S754_nan.
Proof.
  intros H. unfold binary_round_aux.
  pose proof (shr_fexp_nonneg e l H) as H1.
  destruct (shr_fexp prec emax m e l) as [mrs' e'] eqn:E1. simpl in H1.
  pose proof (shr_fexp_nonneg e' loc_Exact
                (round_nearest_even_nonneg (loc_of_shr_record mrs') H1)) as H2.
  destruct (shr_fexp prec emax _ e' loc_Exact) as [mrs'' e''].
  simpl in H2. destruct (shr_m mrs'') as [|p|p]; try discriminate; [|lia].
  destruct (Z.leb e'' (emax - prec)); discriminate.
Qed.

Lemma binary_normalize_not_nan m e sz :
  binary_normalize prec emax m e sz <> S754_nan.
Proof.
  destruct m as [|p|p]; simpl; try discriminate; unfold binary_round;
    destruct (shl_align _ _ _) as [mz ez];
    apply binary_round_aux_not_nan; lia.
Qed.

(** The sum of a finite number and of anything but a not-a-number is not a
    not-a-number. *)
Lemma SFadd_not_nan a b :
  SF_is_number a = true -> b <> S754_nan -> SF64add a b <> S754_nan.
Proof.
  destruct a as [sa|sa| |sa ma ea]; try discriminate;
    destruct b as [sb|sb| |sb mb eb]; intros _ Hb; try congruence;
    simpl; try discriminate.
  - destruct sa, sb; discriminate.
  - apply binary_normalize_not_nan.
Qed.

Lemma is_nan_Prim2SF (a : float) :
  PrimFloat.is_nan a = false <-> Prim2SF a <> S754_nan.
Proof.
  unfold PrimFloat.is_nan. rewrite negb_false_iff, FloatAxioms.eqb_spec.
  unfold SFeqb. destruct (Prim2SF a) as [[|]|[|]| |[|] m e]; simpl;
    try (split; [discriminate | reflexivity]);
    try (split; [discriminate | congruence]);
    rewrite Z.compare_refl;
    change (Pos.compare_cont Eq m m) with (Pos.compare m m);
    rewrite Pos.compare_refl; simpl; split; (discriminate || reflexivity).
Qed.

Lemma Prim2SF_lit_1080 :
  Prim2SF (float_of_Q 1080.0) = S754_finite false 4749890231992320 (-42).
Proof. reflexivity. Qed.

Lemma within_bounds_number (d : float) :
  within_bounds d = true -> SF_is_number (Prim2SF d) = true.
Proof.
  unfold within_bounds. cbn [leb lit binary64].
  rewrite !FloatAxioms.leb_spec, Prim2SF_lit_0, Prim2SF_lit_1080,
    andb_true_iff.
  destruct (Prim2SF d) as [[|]|[|]| |[|] m e]; simpl; intros [H1 H2];
    try reflexivity; discriminate.
Qed.

(** One scroll event, case by case. *)
Lemma scroll_callback_cases (d y : float) :
  ((d + y <? #0.0)%D = true -> scroll_callback d y = #0.0%D) /\
  ((d + y >? #1080.0)%D = true -> scroll_callback d y = #1080.0%D) /\
  (within_bounds (d + y)%D = true -> scroll_callback d y = (d + y)%D).
Proof.
  unfold scroll_callback, within_bounds. repeat split.
  - intros ->. reflexivity.
  - intros H. destruct (d + y <? #0.0)%D eqn:E.
    + pose proof (leb_ltb_trans _ _ _ (ltb_leb _ _ H) E) as F.
      vm_compute in F. discriminate.
    + now rewrite H.
  - rewrite andb_true_iff. intros [H1 H2].
    destruct (d + y <? #0.0)%D eqn:E1.
    { apply ltb_leb_false in E1. congruence. }
    destruct (#1080.0 <? d + y)%D eqn:E2.
    { apply ltb_leb_false in E2. congruence. }
    reflexivity.
Qed.

Lemma scroll_callback_within (d y : float) :
  within_bounds d = true -> PrimFloat.is_nan y = false ->
  within_bounds (scroll_callback d y) = true.
Proof.
  intros Hd Hy. unfold scroll_callback.
  destruct (d + y <? #0.0)%D eqn:E1; [vm_compute; reflexivity|].
  destruct (#1080.0 <? d + y)%D eqn:E2; [vm_compute; reflexivity|].
  assert (Hs : Prim2SF (d + y)%D <> S754_nan).
  { cbn [add binary64]. rewrite FloatAxioms.add_spec. apply SFadd_not_nan.
    - now apply within_bounds_number.
    - now apply is_nan_Prim2SF. }
  unfold within_bounds. cbn [ltb leb lit binary64] in *.
  rewrite FloatAxioms.ltb_spec in E1, E2. rewrite !FloatAxioms.leb_spec.
  rewrite (SFltb_false_leb Hs) by (rewrite ?Prim2SF_lit_0; easy).
  rewrite SFltb_false_leb; try assumption; try reflexivity.
  rewrite Prim2SF_lit_1080. discriminate.
Qed.

Lemma In_Zrange lo len z :
  (lo <= z < lo + Z.of_nat len)%Z -> In z (Zrange lo len).
Proof.
  intros H. unfold Zrange. apply in_map_iff.
  exists (Z.to_nat (z - lo)). split; [lia|]. apply in_seq. lia.
Qed.

Lemma scroll_ticks_exact (n k : Z) :
  (0 <= n <= 1080)%Z -> (-10 <= k <= 10)%Z ->
  scroll_callback (of_int n : float) (of_int k)
  = of_int (Z.max 0 (Z.min 1080 (n + k))).
Proof.
  intros Hn Hk.
  assert (H : forallb (fun n => forallb (tick_exact n) (Zrange (-10) 21))
                      (Zrange 0 1081) = true) by (vm_compute; reflexivity).
  rewrite forallb_forall in H.
  assert (In1 : In n (Zrange 0 1081)) by (apply In_Zrange; simpl; lia).
  assert (In2 : In k (Zrange (-10) 21)) by (apply In_Zrange; simpl; lia).
  specialize (H n In1). rewrite forallb_forall in H.
  specialize (H k In2). now apply FloatAxioms.Leibniz.eqb_spec in H.
Qed.

(** C8: the density starts within [0, 1080] (at 180) and every scroll
    event whose offset is a number leaves it there: a sum below 0 is
    replaced by 0, a sum above 1080 by 1080, and a sum within the bounds is
    stored as it is, so the density changes by the offset; for an integer
    density and a tick of up to ten units the sum is exact.  No event
    raises anything: the clamp is a total function. *)
Theorem density_stays_clamped (events : list float) :
  Forall (fun yoffset => PrimFloat.is_nan yoffset = false) events ->
  within_bounds (RAY_DENSITY_init : float) = true /\
  Forall (fun d => within_bounds d = true)
         (densities RAY_DENSITY_init events) /\
  (forall d y : float,
    ((d + y <? #0.0)%D = true -> scroll_callback d y = #0.0%D) /\
    ((d + y >? #1080.0)%D = true -> scroll_callback d y = #1080.0%D) /\
    (within_bounds (d + y)%D = true -> scroll_callback d y = (d + y)%D)) /\
  (forall n k : Z,
    (0 <= n <= 1080)%Z -> (-10 <= k <= 10)%Z ->
    scroll_callback (of_int n : float) (of_int k)
    = of_int (Z.max 0 (Z.min 1080 (n + k)))).
Proof.
  intros Hev. split; [vm_compute; reflexivity|].
  split; [|split; [apply scroll_callback_cases | apply scroll_ticks_exact]].
  assert (H0 : within_bounds (RAY_DENSITY_init : float) = true)
    by (vm_compute; reflexivity).
  revert H0. generalize (RAY_DENSITY_init : float).
  induction Hev as [|y ys Hy _ IH]; intros d Hd; simpl; constructor.
  - now apply scroll_callback_within.
  - apply IH. now apply scroll_callback_within.
Qed.

Lemma density_stays_clamped_witness :
  let events := [lit 1; lit (-500); lit 2000; lit 0.5; PrimFloat.infinity] in
  Forall (fun yoffset => PrimFloat.is_nan yoffset = false) events /\
  Forall (fun d => within_bounds d = true) (densities RAY_DENSITY_init events).
Proof.
  assert (H : Forall (fun yoffset => PrimFloat.is_nan yoffset = false)
                     [lit 1; lit (-500); lit 2000; lit 0.5; PrimFloat.infinity])
    by (repeat constructor).
  split; [exact H | exact (proj1 (proj2 (density_stays_clamped H)))].
Defined.

(** ** The ray fan *)

Lemma counter_values_length n : length (counter_values n) = Z.to_nat n.
Proof. unfold counter_values. now rewrite length_map, length_seq. Qed.

Lemma counter_values_nth n i :
  (0 <= i < n)%Z -> nth_error (counter_values n) (Z.to_nat i) = Some i.
Proof.
  intros H. unfold counter_values.
  rewrite nth_error_map, nth_error_seq.
  destruct (Nat.ltb_spec (Z.to_nat i) (Z.to_nat n)); [|lia].
  simpl. f_equal. lia.
Qed.

(** C6: for every origin and every count [N > 0] (an [int], so at most
    [INT_MAX]), the generator run at density [N] produces exactly [N]
    probe segments; the [i]-th runs from the origin to
    [(origin.x + r * cos (i * (2 PI / N)),
      origin.y + (r * c) * sin (i * (2 PI / N)))] with [r = 0.05],
    [c = 1920 / 1080] and [PI] the program's constant 3.14159265359, and
    the frame drawn holds one ray per probe, in this order. *)
Theorem ray_fan {D : Type} {DD : Double D} {LM : Libm D} {OK : DoubleOk D}
    (N : Z) (xorigin yorigin : D) :
  (0 < N <= INT_MAX)%Z ->
  let origin := normalizeMonitorCoordinates xorigin yorigin in
  exists ps : list (Line D),
    probes (of_int N) origin = Some ps /\
    length ps = Z.to_nat N /\
    (forall i : Z, (0 <= i < N)%Z ->
       let angle := (of_int i * (#2.0 * #3.14159265359 / of_int N))%D in
       nth_error ps (Z.to_nat i)
       = Some (mkLine origin
                 (mkPoint
                    (x origin + #0.05 * cos angle)%D
                    (y origin
                     + (#0.05 * (of_int 1920 / of_int 1080))
                       * sin angle)%D))) /\
    drawRays (of_int N) xorigin yorigin
    = Some (map (fun p => (origin, findNearestIntersectionPoint p)) ps).
Proof.
  intros HN origin. unfold drawRays, drawRaysAmong. fold origin.
  unfold probes. rewrite to_int_of_int by lia.
  eexists. split; [reflexivity|].
  split; [now rewrite length_map, counter_values_length|].
  split; [|reflexivity].
  intros i Hi. rewrite nth_error_map, counter_values_nth by assumption.
  reflexivity.
Qed.

Lemma ray_fan_witness :
  (0 < 4 <= INT_MAX)%Z /\
  exists ps : list (Line float),
    probes (LM := libm_sampled) (of_int 4)
      (normalizeMonitorCoordinates (lit 960) (lit 540)) = Some ps /\
    length ps = 4.
Proof.
  split; [unfold INT_MAX; lia|].
  destruct (ray_fan (LM := libm_sampled) (N := 4) (lit 960 : float) (lit 540)
              ltac:(unfold INT_MAX; lia)) as (ps & H1 & H2 & _).
  exists ps. split; [exact H1 | exact H2].
Defined.

(** C10: at density 0 the cast [(int) RAY_DENSITY] is 0, the loop of
    [drawRays] runs no iteration and the frame holds no ray, whatever the
    library functions and the search would return: neither the angular
    increment, the infinite quotient [2 PI / 0], nor
    [findNearestIntersectionPoint] is used. *)
Theorem no_rays_at_zero_density (LM : Libm float) (ws : list (Line float))
    (xorigin yorigin : float) :
  angle_increment (#0.0 : float)%D = PrimFloat.infinity /\
  to_int (#0.0 : float)%D = Some 0%Z /\
  probes #0.0%D (normalizeMonitorCoordinates xorigin yorigin) = Some [] /\
  drawRaysAmong ws #0.0%D xorigin yorigin = Some [].
Proof. repeat split. Qed.

(** ** The extension of a probe, evaluated *)

(** C3 fails on the code: a probe that points left and is neither
    horizontal nor vertical is not extended along its direction.  The
    ordinate is computed at abscissa +32767 and kept when the abscissa is
    negated.  The probe from (0,0) to (-0.05, 0.05), up-left, is extended
    to (-32767, -32767), down-left: the two directions are orthogonal. *)
Lemma expandLine_mirrors_leftward_probe :
  expandLine probe_up_left = fline 0 0 (-32767) (-32767) /\
  direction_dot probe_up_left (expandLine probe_up_left) = #0%D.
Proof. split; vm_compute; reflexivity. Qed.

(** ** Rays through a corner of the border, evaluated *)

(** C4 fails on the code: the probe from (-0.39, 0.12) to (-0.241, 0.218)
    starts strictly inside the border and aims at its corner (1.1, 1.1).
    Rounding puts the parameter [u] just above 1 on the north border and
    just below 0 on the east border; no wall is on the way, so the search
    records nothing. *)
Lemma corner_ray_misses_every_border :
  strictly_inside (point1 probe_corner) = true /\
  (#1.0 <? param_u (expandLine probe_corner) (seg (-1.1) 1.1 1.1 1.1))%D
  = true /\
  (param_u (expandLine probe_corner) (seg 1.1 1.1 1.1 (-1.1)) <? #0.0)%D
  = true /\
  map (hit probe_corner) (walls ++ borders) = repeat None 13 /\
  findNearestIntersectionPoint probe_corner = None.
Proof. repeat split; vm_compute; reflexivity. Qed.

(** The same on a frame at the initial density 180: with the cursor at
    (1514, 1008.837342572935) the ray of index 173 ends nowhere. *)
Lemma sampled_ray_misses_every_border :
  let ypos := 0x1.f86b2e0a9b26fp+9%float in
  let origin := normalizeMonitorCoordinates #1514%D ypos in
  strictly_inside origin = true /\
  option_map (fun frame => nth_error frame 173)
    (drawRays (LM := libm_sampled) RAY_DENSITY_init #1514%D ypos)
  = Some (Some (origin, None)).
Proof. split; vm_compute; reflexivity. Qed.

(** ** Exact geometry: the program in rounding-free arithmetic *)

Section Exact.
Local Open Scope R_scope.

Lemma ideal_div_nonzero (a b : R) :
  b <> 0 -> (Some a / Some b)%D = Some (a / b).
Proof.
  intros H. cbn. destruct (Req_dec_T b 0); [contradiction | reflexivity].
Qed.

Lemma ideal_div_some (a b : R) :
  b <> 0 -> ideal_div (Some a) (Some b) = Some (a / b).
Proof. exact (@ideal_div_nonzero a b). Qed.

Lemma ideal_div_zero (a : ideal) : (a / Some 0)%D = None.
Proof.
  destruct a as [a|]; cbn; [|reflexivity].
  destruct (Req_dec_T 0 0) as [_|N]; [reflexivity | now elim N].
Qed.

Lemma Q2R_0 : Q2R 0.0 = 0.
Proof. unfold Q2R; simpl; lra. Qed.

Lemma Q2R_1 : Q2R 1.0 = 1.
Proof. unfold Q2R; simpl; lra. Qed.

Lemma in_unit_true r : in_unit r = true <-> 0 <= r <= 1.
Proof. unfold in_unit. rewrite andb_true_iff, !Rleb_true. tauto. Qed.

Lemma in_unit_false r : in_unit r = false <-> ~ (0 <= r <= 1).
Proof.
  rewrite <- in_unit_true. destruct (in_unit r); split; congruence.
Qed.

Lemma ideal_parallel_iff x1 y1 x2 y2 x3 y3 x4 y4 :
  parallel (rline x1 y1 x2 y2) (rline x3 y3 x4 y4)
  <-> den x1 y1 x2 y2 x3 y3 x4 y4 = 0.
Proof.
  unfold parallel, denominator, den. cbn.
  rewrite !Rleb_true, Q2R_0. split; [intros [H1 H2]|intros H]; lra.
Qed.

(** What [findLineSegmentIntersection] computes on real coordinates. *)
Lemma ideal_intersection x1 y1 x2 y2 x3 y3 x4 y4 :
  let d := den x1 y1 x2 y2 x3 y3 x4 y4 in
  let t := num_t x1 y1 x3 y3 x4 y4 / d in
  let u := num_u x1 y1 x2 y2 x3 y3 / d in
  findLineSegmentIntersection (rline x1 y1 x2 y2) (rline x3 y3 x4 y4)
  = if Req_dec_T d 0 then None
    else if in_unit t && in_unit u
         then Some (rpoint (x1 + t * (x2 - x1)) (y1 + t * (y2 - y1)))
         else None.
Proof.
  intros d t u.
  unfold findLineSegmentIntersection, param_t, param_u, denominator.
  cbn -[ideal_div]. fold (den x1 y1 x2 y2 x3 y3 x4 y4). fold d.
  destruct (Req_dec_T d 0) as [E|N].
  - rewrite E, !ideal_div_zero. reflexivity.
  - rewrite !ideal_div_nonzero by assumption. cbn.
    rewrite Q2R_0, Q2R_1.
    fold (num_t x1 y1 x3 y3 x4 y4) (num_u x1 y1 x2 y2 x3 y3) t u.
    unfold in_unit. rewrite <- !andb_assoc. reflexivity.
Qed.

(** Cramer's rule: the two quotients are the solution of the parametric
    equation [A.start + t (A.end - A.start) = B.start + u (B.end - B.start)]. *)
Lemma parameters_solve x1 y1 x2 y2 x3 y3 x4 y4 :
  let d := den x1 y1 x2 y2 x3 y3 x4 y4 in
  let t := num_t x1 y1 x3 y3 x4 y4 / d in
  let u := num_u x1 y1 x2 y2 x3 y3 / d in
  d <> 0 ->
  x1 + t * (x2 - x1) = x3 + u * (x4 - x3) /\
  y1 + t * (y2 - y1) = y3 + u * (y4 - y3).
Proof.
  intros d t u Hd. unfold t, u, num_t, num_u. unfold d, den in *.
  split; field; assumption.
Qed.

Lemma parameters_unique x1 y1 x2 y2 x3 y3 x4 y4 t u :
  den x1 y1 x2 y2 x3 y3 x4 y4 <> 0 ->
  x1 + t * (x2 - x1) = x3 + u * (x4 - x3) ->
  y1 + t * (y2 - y1) = y3 + u * (y4 - y3) ->
  t = num_t x1 y1 x3 y3 x4 y4 / den x1 y1 x2 y2 x3 y3 x4 y4 /\
  u = num_u x1 y1 x2 y2 x3 y3 / den x1 y1 x2 y2 x3 y3 x4 y4.
Proof.
  intros Hd Hx Hy.
  assert (Et : t * den x1 y1 x2 y2 x3 y3 x4 y4 = num_t x1 y1 x3 y3 x4 y4).
  { unfold den, num_t.
    transitivity (t * (x2 - x1) * (y4 - y3) - t * (y2 - y1) * (x4 - x3));
      [ring|].
    replace (t * (x2 - x1)) with (x3 + u * (x4 - x3) - x1) by lra.
    replace (t * (y2 - y1)) with (y3 + u * (y4 - y3) - y1) by lra.
    ring. }
  assert (Eu : u * den x1 y1 x2 y2 x3 y3 x4 y4 = num_u x1 y1 x2 y2 x3 y3).
  { unfold den, num_u.
    transitivity (u * (y4 - y3) * (x2 - x1) - u * (x4 - x3) * (y2 - y1));
      [ring|].
    replace (u * (y4 - y3)) with (y1 + t * (y2 - y1) - y3) by lra.
    replace (u * (x4 - x3)) with (x1 + t * (x2 - x1) - x3) by lra.
    ring. }
  rewrite <- Et, <- Eu. split; field; assumption.
Qed.

(** In rounding-free arithmetic: for non-parallel segments [A] and [B]
    with real end points, let
    [t] and [u] be the parameters with
    [A.start + t (A.end - A.start) = B.start + u (B.end - B.start)].
    [findLineSegmentIntersection A B] returns a point exactly when both
    lie in [0, 1]; the point is [A.start + t (A.end - A.start)], which is
    also [B.start + u (B.end - B.start)]: it lies on both segments.  When
    [t] or [u] is outside [0, 1], nothing is reported.  The point is on
    the segments exactly. *)
Theorem intersection_iff_parameters_in_unit_interval
    (x1 y1 x2 y2 x3 y3 x4 y4 t u : R) :
  ~ parallel (rline x1 y1 x2 y2) (rline x3 y3 x4 y4) ->
  x1 + t * (x2 - x1) = x3 + u * (x4 - x3) ->
  y1 + t * (y2 - y1) = y3 + u * (y4 - y3) ->
  let A := rline x1 y1 x2 y2 in
  let B := rline x3 y3 x4 y4 in
  param_t A B = Some t /\ param_u A B = Some u /\
  (0 <= t <= 1 /\ 0 <= u <= 1 ->
   findLineSegmentIntersection A B
   = Some (rpoint (x1 + t * (x2 - x1)) (y1 + t * (y2 - y1))) /\
   rpoint (x1 + t * (x2 - x1)) (y1 + t * (y2 - y1))
   = rpoint (x3 + u * (x4 - x3)) (y3 + u * (y4 - y3))) /\
  (~ (0 <= t <= 1 /\ 0 <= u <= 1) -> findLineSegmentIntersection A B = None).
Proof.
  intros Hp Hx Hy A B. rewrite ideal_parallel_iff in Hp.
  destruct (parameters_unique Hp Hx Hy) as [Ht Hu].
  assert (Pt : param_t A B = Some t).
  { unfold param_t, denominator. cbn -[ideal_div].
    fold (den x1 y1 x2 y2 x3 y3 x4 y4).
    rewrite ideal_div_nonzero by assumption. now rewrite Ht. }
  assert (Pu : param_u A B = Some u).
  { unfold param_u, denominator. cbn -[ideal_div].
    fold (den x1 y1 x2 y2 x3 y3 x4 y4).
    rewrite ideal_div_nonzero by assumption. now rewrite Hu. }
  split; [exact Pt|]. split; [exact Pu|].
  unfold A, B. rewrite ideal_intersection.
  destruct (Req_dec_T _ 0) as [E|_]; [contradiction|].
  rewrite <- Ht, <- Hu. split.
  - intros [H1 H2]. apply in_unit_true in H1, H2. rewrite H1, H2. simpl.
    split; [reflexivity|]. now rewrite Hx, Hy.
  - intros H. destruct (in_unit t) eqn:E1, (in_unit u) eqn:E2; simpl;
      try reflexivity.
    apply in_unit_true in E1, E2. tauto.
Qed.

(** The diagonals of a square cross in its centre. *)
Lemma intersection_iff_parameters_in_unit_interval_witness :
  ~ parallel (rline 0 0 2 2) (rline 0 2 2 0) /\
  findLineSegmentIntersection (rline 0 0 2 2) (rline 0 2 2 0)
  = Some (rpoint (0 + / 2 * (2 - 0)) (0 + / 2 * (2 - 0))).
Proof.
  assert (Hp : ~ parallel (rline 0 0 2 2) (rline 0 2 2 0))
    by (rewrite ideal_parallel_iff; unfold den; lra).
  split; [exact Hp|].
  refine (proj1 (proj1 (proj2 (proj2
    (@intersection_iff_parameters_in_unit_interval
       0 0 2 2 0 2 2 0 (/ 2) (/ 2) Hp _ _))) _)); lra.
Defined.

(** In any arithmetic, the decision is the range test on the computed
    parameters and the point is computed from [t]. *)
Lemma intersection_decision {D : Type} {DD : Double D} (l1 l2 : Line D) :
  let t := param_t l1 l2 in
  let u := param_u l1 l2 in
  findLineSegmentIntersection l1 l2
  = if ((#0.0 <=? t) && (t <=? #1.0) && (#0.0 <=? u) && (u <=? #1.0))%D
    then Some (mkPoint (x (point1 l1) + t * (x (point2 l1) - x (point1 l1)))%D
                       (y (point1 l1) + t * (y (point2 l1) - y (point1 l1)))%D)
    else None.
Proof. reflexivity. Qed.
End Exact.

(** *** The four borders in exact arithmetic *)

Section ExactBorders.
Local Open Scope R_scope.

Lemma Q2R_w : Q2R 1.1 = w.
Proof. unfold Q2R, w; simpl; lra. Qed.

Lemma Q2R_minus_w : Q2R (-1.1) = - w.
Proof. unfold Q2R, w; simpl; lra. Qed.

Lemma ideal_borders : borders = [north; east; south; west].
Proof.
  unfold borders, seg, north, east, south, west, rline, rpoint. cbn.
  rewrite Q2R_w, Q2R_minus_w. reflexivity.
Qed.

(** A segment from [(x1, y1)] to [(x2, y2)] against each border: the hit,
    if any, is where the segment reaches the line of the border, and it is
    a hit when that point is within the border. *)
Lemma hit_horizontal_border (c x1 y1 x2 y2 : R) :
  y2 <> y1 ->
  let t := (c - y1) / (y2 - y1) in
  let xh := x1 + t * (x2 - x1) in
  findLineSegmentIntersection (rline x1 y1 x2 y2) (rline (- w) c w c)
  = if in_unit t && in_unit ((xh + w) / (2 * w))
    then Some (rpoint xh (y1 + t * (y2 - y1))) else None.
Proof.
  intros Hy t xh. rewrite ideal_intersection. cbv zeta.
  destruct (Req_dec_T _ 0) as [E|N].
  - exfalso. unfold den, w in E. nra.
  - replace (num_t x1 y1 (- w) c w c / den x1 y1 x2 y2 (- w) c w c) with t
      by (unfold t, num_t, den, w; field; lra).
    replace (num_u x1 y1 x2 y2 (- w) c / den x1 y1 x2 y2 (- w) c w c)
      with ((xh + w) / (2 * w))
      by (unfold xh, t, num_u, den, w; field; lra).
    reflexivity.
Qed.

Lemma hit_vertical_border (c x1 y1 x2 y2 : R) :
  x2 <> x1 ->
  let t := (c - x1) / (x2 - x1) in
  let yh := y1 + t * (y2 - y1) in
  findLineSegmentIntersection (rline x1 y1 x2 y2) (rline c w c (- w))
  = if in_unit t && in_unit ((w - yh) / (2 * w))
    then Some (rpoint (x1 + t * (x2 - x1)) yh) else None.
Proof.
  intros Hx t yh. rewrite ideal_intersection. cbv zeta.
  destruct (Req_dec_T _ 0) as [E|N].
  - exfalso. unfold den, w in E. nra.
  - replace (num_t x1 y1 c w c (- w) / den x1 y1 x2 y2 c w c (- w)) with t
      by (unfold t, num_t, den, w; field; lra).
    replace (num_u x1 y1 x2 y2 c w / den x1 y1 x2 y2 c w c (- w))
      with ((w - yh) / (2 * w))
      by (unfold yh, t, num_u, den, w; field; lra).
    reflexivity.
Qed.

Lemma miss_horizontal_border (c x1 y1 x2 : R) :
  findLineSegmentIntersection (rline x1 y1 x2 y1) (rline (- w) c w c) = None.
Proof.
  rewrite ideal_intersection. cbv zeta.
  destruct (Req_dec_T _ 0) as [E|N]; [reflexivity|].
  exfalso. apply N. unfold den. ring.
Qed.

Lemma miss_vertical_border (c x1 y1 y2 : R) :
  findLineSegmentIntersection (rline x1 y1 x1 y2) (rline c w c (- w)) = None.
Proof.
  rewrite ideal_intersection. cbv zeta.
  destruct (Req_dec_T _ 0) as [E|N]; [reflexivity|].
  exfalso. apply N. unfold den. ring.
Qed.

Lemma ideal_pointDistance (a b c d : R) :
  pointDistance (rpoint a b) (rpoint c d)
  = Some (R_sqrt.sqrt ((c - a) * (c - a) + (d - b) * (d - b))).
Proof.
  unfold pointDistance, pow_2. cbn.
  destruct (Rlt_dec _ 0) as [H|_]; [exfalso | reflexivity].
  pose proof (Rle_0_sqr (c - a)). pose proof (Rle_0_sqr (d - b)).
  unfold Rsqr in *. lra.
Qed.

Lemma sqrt_below (z c : R) :
  0 <= z -> 0 < c -> z < c * c -> R_sqrt.sqrt z < c.
Proof.
  intros Hz Hc H. rewrite <- (sqrt_square c) by lra.
  apply sqrt_lt_1; nra.
Qed.

(** A point of the border square is within reach of the search from any
    start inside the square. *)
Lemma border_point_in_reach (a b c d e f : R) :
  - w <= a <= w -> - w <= b <= w -> - w <= c <= w -> - w <= d <= w ->
  (dist (rline a b e f) (rpoint c d) <? sentinel)%D = true.
Proof.
  intros Ha Hb Hc Hd. unfold dist, sentinel, rline. cbn [point1].
  fold (rpoint a b). rewrite ideal_pointDistance. cbn. apply Rltb_true.
  pose proof (Rle_0_sqr (c - a)). pose proof (Rle_0_sqr (d - b)).
  assert ((c - a) * (c - a) <= 9) by (unfold w in *; nra).
  assert ((d - b) * (d - b) <= 9) by (unfold w in *; nra).
  unfold Rsqr in *. apply sqrt_below; unfold INT64_MAX; lra.
Qed.
End ExactBorders.

(** *** The extension in exact arithmetic *)

Section ExactExtension.
Local Open Scope R_scope.

Lemma ideal_lit_eps : @lit ideal _ 10e-7 = Some eps.
Proof. cbn. f_equal. unfold Q2R, eps; simpl; lra. Qed.

Lemma rline_eq (a b c d a' b' c' d' : R) :
  a = a' -> b = b' -> c = c' -> d = d' -> rline a b c d = rline a' b' c' d'.
Proof. congruence. Qed.

Lemma ideal_expandLine (x1 y1 x2 y2 : R) :
  expandLine (rline x1 y1 x2 y2)
  = if Rltb (Rabs (x2 - x1)) eps then
      if Rltb y2 y1 then rline x1 y1 x1 (- far) else rline x1 y1 x1 far
    else if Rltb (Rabs (y2 - y1)) eps then
      if Rltb x2 x1 then rline x1 y1 (- far) y1 else rline x1 y1 far y1
    else
      let slope := (y2 - y1) / (x2 - x1) in
      let y_intercept := y1 - slope * x1 in
      rline x1 y1 (if Rltb x2 x1 then - far else far)
            (slope * far + y_intercept).
Proof.
  unfold expandLine, ARBITRARY_OUT_OF_BOUNDS_COORD, INT16_MAX.
  rewrite !ideal_lit_eps. cbn -[ideal_div Rabs]. fold far.
  destruct (Rltb (Rabs (x2 - x1)) eps) eqn:Ex.
  { destruct (Rltb y2 y1); apply rline_eq; lra. }
  destruct (Rltb (Rabs (y2 - y1)) eps) eqn:Ey.
  { destruct (Rltb x2 x1); apply rline_eq; unfold Q2R; simpl; lra. }
  assert (Hx : x2 - x1 <> 0).
  { apply Rltb_false in Ex. intros E. rewrite E, Rabs_R0 in Ex.
    unfold eps in Ex. lra. }
  rewrite ideal_div_nonzero by assumption. cbn.
  destruct (Rltb x2 x1), (Rltb y2 y1); apply rline_eq; lra.
Qed.

(** Whatever the probe, the end of the extension has an abscissa or an
    ordinate of magnitude 32767. *)
Lemma expandLine_end_far (x1 y1 x2 y2 : R) :
  exists ex ey, expandLine (rline x1 y1 x2 y2) = rline x1 y1 ex ey /\
                (Rabs ex = far \/ Rabs ey = far).
Proof.
  rewrite ideal_expandLine.
  assert (F : Rabs far = far) by (apply Rabs_right; unfold far; lra).
  assert (F' : Rabs (- far) = far) by (now rewrite Rabs_Ropp).
  destruct (Rltb (Rabs (x2 - x1)) eps).
  { destruct (Rltb y2 y1); eexists; eexists; split; try reflexivity; auto. }
  destruct (Rltb (Rabs (y2 - y1)) eps).
  { destruct (Rltb x2 x1); eexists; eexists; split; try reflexivity; auto. }
  cbv zeta.
  destruct (Rltb x2 x1); eexists; eexists; split; try reflexivity; auto.
Qed.
End ExactExtension.

(** *** A segment that leaves the border square crosses a border *)

Section Enclosure.
Local Open Scope R_scope.

(** The parameter at which a segment from [a] to [b] reaches [c]. *)
Lemma cross_param (a b c : R) :
  a < c < b \/ b < c < a ->
  let t := (c - a) / (b - a) in 0 < t < 1 /\ t * (b - a) = c - a.
Proof.
  intros H t.
  assert (Hne : b - a <> 0) by lra.
  assert (E : t * (b - a) = c - a) by (unfold t; field; assumption).
  split; [|exact E].
  destruct H as [H|H]; split; nra.
Qed.

(** If at parameter [t] the coordinate [a + t da] is beyond [c], then [c]
    was reached at an earlier parameter. *)
Lemma earlier_crossing (a da t c : R) :
  0 < t < 1 ->
  a < c < a + t * da \/ a + t * da < c < a ->
  let s := (c - a) / da in 0 < s < t /\ s * da = c - a.
Proof.
  intros Ht H s.
  assert (Hne : da <> 0) by (intros E; rewrite E in H; lra).
  assert (E : s * da = c - a) by (unfold s; field; assumption).
  split; [|exact E].
  destruct H as [H|H].
  - assert (0 < da) by nra. split; nra.
  - assert (da < 0) by nra. split; nra.
Qed.

Lemma between_products (s t d : R) :
  0 < s < t -> d <> 0 ->
  (0 < d -> 0 < s * d < t * d) /\ (d < 0 -> t * d < s * d < 0).
Proof. intros Hs Hd. split; intros H; split; nra. Qed.

Lemma leaves_through_top_or_bottom (x1 y1 ex ey c : R) :
  - w < x1 < w -> - w < y1 < w ->
  (c = w /\ w < ey) \/ (c = - w /\ ey < - w) ->
  meets_horizontal x1 y1 ex ey c \/
  meets_vertical x1 y1 ex ey w \/ meets_vertical x1 y1 ex ey (- w).
Proof.
  intros Hx Hy Hc. unfold meets_horizontal, meets_vertical.
  assert (Hb : y1 < c < ey \/ ey < c < y1) by lra.
  destruct (cross_param Hb) as [Ht Et].
  set (t := (c - y1) / (ey - y1)) in *.
  assert (Hdy : ey - y1 <> 0) by lra.
  destruct (Rlt_dec w (x1 + t * (ex - x1))) as [Hr|Hr];
    [|destruct (Rlt_dec (x1 + t * (ex - x1)) (- w)) as [Hl|Hl]].
  - right. left.
    destruct (@earlier_crossing x1 (ex - x1) t w Ht) as [Hs Es]; [lra|].
    set (s := (w - x1) / (ex - x1)) in *.
    destruct (between_products Hs Hdy) as [Hp Hn].
    split; [intros E; rewrite E, Rminus_diag, Rmult_0_r in Hr; lra|].
    split; [lra|]. destruct Hc as [[-> Hc]|[-> Hc]]; lra.
  - right. right.
    destruct (@earlier_crossing x1 (ex - x1) t (- w) Ht) as [Hs Es]; [lra|].
    set (s := (- w - x1) / (ex - x1)) in *.
    destruct (between_products Hs Hdy) as [Hp Hn].
    split; [intros E; rewrite E, Rminus_diag, Rmult_0_r in Hl; lra|].
    split; [lra|]. destruct Hc as [[-> Hc]|[-> Hc]]; lra.
  - left. repeat split; lra.
Qed.

Lemma leaves_through_a_side (x1 y1 ex ey c : R) :
  - w < x1 < w -> - w < y1 < w -> - w <= ey <= w ->
  (c = w /\ w < ex) \/ (c = - w /\ ex < - w) ->
  meets_vertical x1 y1 ex ey c.
Proof.
  intros Hx Hy He Hc. unfold meets_vertical.
  assert (Hb : x1 < c < ex \/ ex < c < x1) by lra.
  destruct (cross_param Hb) as [Ht Et].
  set (t := (c - x1) / (ex - x1)) in *.
  split; [lra|]. split; [lra|]. split; nra.
Qed.

Lemma leaves_square (x1 y1 ex ey : R) :
  - w < x1 < w -> - w < y1 < w -> w < Rabs ex \/ w < Rabs ey ->
  meets_horizontal x1 y1 ex ey w \/ meets_horizontal x1 y1 ex ey (- w) \/
  meets_vertical x1 y1 ex ey w \/ meets_vertical x1 y1 ex ey (- w).
Proof.
  intros Hx Hy Ho.
  destruct (Rlt_dec w ey) as [Ht|Ht].
  { destruct (@leaves_through_top_or_bottom x1 y1 ex ey w) as [H|[H|H]];
      auto. }
  destruct (Rlt_dec ey (- w)) as [Hb|Hb].
  { destruct (@leaves_through_top_or_bottom x1 y1 ex ey (- w)) as [H|[H|H]];
      auto. }
  assert (He : - w <= ey <= w) by lra.
  assert (Hex : w < ex \/ ex < - w).
  { destruct Ho as [Ho|Ho]; revert Ho; unfold Rabs;
      destruct (Rcase_abs _); lra. }
  destruct Hex as [Hex|Hex]; right; right; [left|right];
    apply leaves_through_a_side; auto.
Qed.

(** The hits on the four borders that correspond to the four cases. *)
Lemma horizontal_hit (x1 y1 ex ey c : R) :
  meets_horizontal x1 y1 ex ey c ->
  findLineSegmentIntersection (rline x1 y1 ex ey) (rline (- w) c w c)
  = Some (rpoint (x1 + (c - y1) / (ey - y1) * (ex - x1)) c).
Proof.
  intros (Hne & Ht & Hxh). rewrite hit_horizontal_border by assumption.
  cbv zeta. rewrite (proj2 (in_unit_true _) Ht).
  rewrite (proj2 (in_unit_true _)) by (unfold w in *; lra).
  simpl. apply f_equal, f_equal2; [reflexivity|]. f_equal. field. lra.
Qed.

Lemma vertical_hit (x1 y1 ex ey c : R) :
  meets_vertical x1 y1 ex ey c ->
  findLineSegmentIntersection (rline x1 y1 ex ey) (rline c w c (- w))
  = Some (rpoint c (y1 + (c - x1) / (ex - x1) * (ey - y1))).
Proof.
  intros (Hne & Ht & Hyh). rewrite hit_vertical_border by assumption.
  cbv zeta. rewrite (proj2 (in_unit_true _) Ht).
  rewrite (proj2 (in_unit_true _)) by (unfold w in *; lra).
  simpl. apply f_equal, f_equal2; [|reflexivity]. f_equal. field. lra.
Qed.

(** A segment from strictly inside the square to a point outside it hits
    one of the four borders, at a point of the square. *)
Lemma some_border_hit (x1 y1 ex ey : R) :
  - w < x1 < w -> - w < y1 < w -> w < Rabs ex \/ w < Rabs ey ->
  exists o a b,
    In o borders /\
    findLineSegmentIntersection (rline x1 y1 ex ey) o = Some (rpoint a b) /\
    - w <= a <= w /\ - w <= b <= w.
Proof.
  intros Hx Hy Ho. rewrite ideal_borders.
  destruct (@leaves_square x1 y1 ex ey Hx Hy Ho) as [H|[H|[H|H]]].
  - exists north. do 2 eexists. split; [simpl; auto|].
    split; [apply (horizontal_hit H)|]. destruct H as (_ & _ & H).
    unfold w in *. lra.
  - exists south. do 2 eexists. split; [simpl; auto|].
    split; [apply (horizontal_hit H)|]. destruct H as (_ & _ & H).
    unfold w in *. lra.
  - exists east. do 2 eexists. split; [simpl; auto|].
    split; [apply (vertical_hit H)|]. destruct H as (_ & _ & H).
    unfold w in *. lra.
  - exists west. do 2 eexists. split; [simpl; auto|].
    split; [apply (vertical_hit H)|]. destruct H as (_ & _ & H).
    unfold w in *. lra.
Qed.

(** The border encloses the screen, in exact arithmetic: from every start
    strictly inside the border, whatever the direction of the probe and
    whatever the walls, the search returns a point.  Rounding breaks this
    for rays that graze a corner, as the evaluation of the corner probe
    in binary64 shows. *)
Theorem border_enclosure_exact (ws : list (Line ideal)) (x1 y1 x2 y2 : R) :
  - w < x1 < w -> - w < y1 < w ->
  returns_first_nearest ws (rline x1 y1 x2 y2).
Proof.
  intros Hx Hy.
  destruct (search_final_state ws (rline x1 y1 x2 y2)) as [[_ Hn]|H];
    [exfalso | exact H].
  destruct (expandLine_end_far x1 y1 x2 y2) as (ex & ey & He & Hf).
  assert (Ho : w < Rabs ex \/ w < Rabs ey)
    by (unfold w, far in *; destruct Hf as [-> | ->]; [left|right]; lra).
  destruct (@some_border_hit x1 y1 ex ey Hx Hy Ho)
    as (o & a & b & Hin & Hh & Ha & Hb).
  assert (Hq : hit (rline x1 y1 x2 y2) o = Some (rpoint a b))
    by (unfold hit; now rewrite He).
  specialize (Hn o (rpoint a b) (in_or_app _ _ _ (or_intror Hin)) Hq).
  rewrite (@border_point_in_reach x1 y1 a b x2 y2) in Hn
    by (unfold w in *; lra).
  discriminate.
Qed.
End Enclosure.

(** *** The end-to-end scenario in exact arithmetic *)

Lemma only_hit_returned {D : Type} {DD : Double D} {OK : DoubleOk D}
    (ws : list (Line D)) (start : Line D) (p : Point D) :
  some_hit_in_reach ws start ->
  (forall o q, In o (ws ++ borders) -> hit start o = Some q -> q = p) ->
  findNearestIntersectionPointAmong ws start = Some p.
Proof.
  intros (o0 & q0 & Hin0 & Hq0 & Hs) Hu.
  destruct (search_final_state ws start)
    as [[_ Hn]|(i & o & q & Hf & Hn & Hq & _)].
  - rewrite (Hn o0 q0 Hin0 Hq0) in Hs. discriminate.
  - rewrite Hf. f_equal.
    apply (Hu o q); [eapply nth_error_In; eassumption | assumption].
Qed.

Section Scenario.
Local Open Scope R_scope.

Lemma pi_bounds : 3.14159 < Rtrigo1.PI < 3.1416.
Proof.
  pose proof (PI_2_3_7_ineq 3) as [Hlo Hhi].
  unfold sum_f_R0, tg_alt, PI_2_3_7_tg, Ratan_seq in Hlo, Hhi.
  simpl in Hlo, Hhi. split; lra.
Qed.

Lemma sin_small (d : R) : Rabs d < 1 -> Rabs (Rtrigo_def.sin d) <= Rabs d.
Proof.
  intros H. pose proof pi_bounds as Hpi.
  destruct (Rtotal_order d 0) as [Hd|[->|Hd]].
  - rewrite (Rabs_left d) in * by assumption.
    pose proof (sin_gt_x d Hd). pose proof (sin_lt_0_var d ltac:(lra) Hd).
    rewrite Rabs_left by assumption. lra.
  - rewrite sin_0, Rabs_R0. lra.
  - rewrite (Rabs_right d) in * by lra.
    pose proof (sin_lt_x d Hd). pose proof (sin_gt_0 d Hd ltac:(lra)).
    rewrite Rabs_right by lra. lra.
Qed.

Lemma ideal_origin :
  normalizeMonitorCoordinates (#960 : ideal)%D #540%D = rpoint 0 0.
Proof.
  unfold normalizeMonitorCoordinates, MONITOR_SIZE_X, MONITOR_SIZE_Y.
  cbn -[ideal_div Rltb]. unfold Q2R; cbn -[ideal_div Rltb Rinv Rmult IZR].
  rewrite !ideal_div_some by lra. cbn -[Rltb Rinv Rmult IZR Rdiv].
  replace ((960 * / 1 - 1920 / (20 * / 10)) / (1920 / (20 * / 10))) with 0
    by (field; lra).
  replace ((540 * / 1 - 1080 / (20 * / 10)) / (1080 / (20 * / 10))) with 0
    by (field; lra).
  repeat match goal with
  | |- context [Rltb ?a ?b] =>
      rewrite (proj2 (Rltb_false a b)) by lra
  end.
  unfold rpoint. cbn. f_equal; f_equal; lra.
Qed.

Lemma ideal_probe (i : Z) :
  probe (rpoint 0 0) (angle_increment (of_int 4)) i
  = rline 0 0 (ray_x i) (ray_y i).
Proof.
  unfold probe, angle_increment, PI, CIRCLE_RADIUS,
    monitor_widescreen_compensation, MONITOR_SIZE_X, MONITOR_SIZE_Y.
  cbn -[ideal_div]. rewrite !ideal_div_some by lra. cbn.
  apply rline_eq; try reflexivity;
    unfold ray_x, ray_y, radius, compensation, quarter, PIr, Q2R; simpl;
    repeat f_equal; lra.
Qed.
End Scenario.

Lemma returned_from_hits {D : Type} {DD : Double D} {OK : DoubleOk D}
    (ws : list (Line D)) (start : Line D) (p : Point D) :
  In (Some p) (map (hit start) (ws ++ borders)) ->
  Forall (fun h => h = None \/ h = Some p) (map (hit start) (ws ++ borders)) ->
  (dist start p <? sentinel)%D = true ->
  findNearestIntersectionPointAmong ws start = Some p.
Proof.
  intros Hin Hall Hd. apply only_hit_returned.
  - apply in_map_iff in Hin as (o & Ho & Hin). now exists o, p.
  - intros o q Hin' Hq. rewrite Forall_forall in Hall.
    destruct (Hall (hit start o) (in_map _ _ _ Hin')) as [E|E];
      congruence.
Qed.

Section ScenarioRays.
Local Open Scope R_scope.

Lemma in_unit_neg (t : R) : t < 0 -> in_unit t = false.
Proof. intros H. apply in_unit_false. lra. Qed.

Lemma quotient_in_unit (a b : R) :
  (0 <= a <= b /\ 0 < b) \/ (b <= a <= 0 /\ b < 0) -> 0 <= a / b <= 1.
Proof.
  intros H. assert (Hb : b <> 0) by lra.
  assert (E : a / b * b = a) by (field; assumption).
  destruct H as [[H H']|[H H']]; split; nra.
Qed.

Lemma quotient_negative (a b : R) :
  (a < 0 /\ 0 < b) \/ (0 < a /\ b < 0) -> a / b < 0.
Proof.
  intros H. assert (Hb : b <> 0) by lra.
  assert (E : a / b * b = a) by (field; assumption).
  destruct H as [[H H']|[H H']]; nra.
Qed.

(** A horizontal segment reaches a vertical line, a vertical segment a
    horizontal line. *)
Lemma meets_vertical_level (x1 y1 ex c : R) :
  - w <= y1 <= w ->
  (x1 <= c <= ex /\ x1 < ex) \/ (ex <= c <= x1 /\ ex < x1) ->
  meets_vertical x1 y1 ex y1 c.
Proof.
  intros Hy H. unfold meets_vertical.
  split; [lra|]. split; [apply quotient_in_unit; lra|].
  rewrite Rminus_diag, Rmult_0_r. lra.
Qed.

Lemma meets_horizontal_level (x1 y1 ey c : R) :
  - w <= x1 <= w ->
  (y1 <= c <= ey /\ y1 < ey) \/ (ey <= c <= y1 /\ ey < y1) ->
  meets_horizontal x1 y1 x1 ey c.
Proof.
  intros Hx H. unfold meets_horizontal.
  split; [lra|]. split; [apply quotient_in_unit; lra|].
  rewrite Rminus_diag, Rmult_0_r. lra.
Qed.

(** Hits of the four axis-parallel extensions from the centre. *)
Lemma hits_east :
  map (findLineSegmentIntersection (rline 0 0 far 0)) [north; east; south; west]
  = [None; Some (rpoint w 0); None; None].
Proof.
  unfold north, east, south, west. cbn [map].
  rewrite !miss_horizontal_border.
  rewrite (@vertical_hit 0 0 far 0 w)
    by (apply meets_vertical_level; unfold w, far; lra).
  rewrite (@hit_vertical_border (- w) 0 0 far 0) by (unfold far; lra).
  cbv zeta. rewrite (@in_unit_neg ((- w - 0) / (far - 0)))
    by (apply quotient_negative; unfold w, far; lra).
  cbn [andb]. rewrite Rminus_diag, Rmult_0_r, Rplus_0_r. reflexivity.
Qed.

Lemma hits_west :
  map (findLineSegmentIntersection (rline 0 0 (- far) 0))
      [north; east; south; west]
  = [None; None; None; Some (rpoint (- w) 0)].
Proof.
  unfold north, east, south, west. cbn [map].
  rewrite !miss_horizontal_border.
  rewrite (@vertical_hit 0 0 (- far) 0 (- w))
    by (apply meets_vertical_level; unfold w, far; lra).
  rewrite (@hit_vertical_border w 0 0 (- far) 0) by (unfold far; lra).
  cbv zeta. rewrite (@in_unit_neg ((w - 0) / (- far - 0)))
    by (apply quotient_negative; unfold w, far; lra).
  cbn [andb]. rewrite Rminus_diag, Rmult_0_r, Rplus_0_r. reflexivity.
Qed.

Lemma hits_north :
  map (findLineSegmentIntersection (rline 0 0 0 far)) [north; east; south; west]
  = [Some (rpoint 0 w); None; None; None].
Proof.
  unfold north, east, south, west. cbn [map].
  rewrite !miss_vertical_border.
  rewrite (@horizontal_hit 0 0 0 far w)
    by (apply meets_horizontal_level; unfold w, far; lra).
  rewrite (@hit_horizontal_border (- w) 0 0 0 far) by (unfold far; lra).
  cbv zeta. rewrite (@in_unit_neg ((- w - 0) / (far - 0)))
    by (apply quotient_negative; unfold w, far; lra).
  cbn [andb]. rewrite Rminus_diag, Rmult_0_r, Rplus_0_r. reflexivity.
Qed.

Lemma hits_south :
  map (findLineSegmentIntersection (rline 0 0 0 (- far)))
      [north; east; south; west]
  = [None; None; Some (rpoint 0 (- w)); None].
Proof.
  unfold north, east, south, west. cbn [map].
  rewrite !miss_vertical_border.
  rewrite (@horizontal_hit 0 0 0 (- far) (- w))
    by (apply meets_horizontal_level; unfold w, far; lra).
  rewrite (@hit_horizontal_border w 0 0 0 (- far)) by (unfold far; lra).
  cbv zeta. rewrite (@in_unit_neg ((w - 0) / (- far - 0)))
    by (apply quotient_negative; unfold w, far; lra).
  cbn [andb]. rewrite Rminus_diag, Rmult_0_r, Rplus_0_r. reflexivity.
Qed.
End ScenarioRays.

Section ScenarioSearch.
Local Open Scope R_scope.

Lemma hits_from_centre (px py : R) :
  map (hit (rline 0 0 px py)) ([] ++ borders)
  = map (findLineSegmentIntersection (expandLine (rline 0 0 px py)))
        [north; east; south; west].
Proof. rewrite ideal_borders. reflexivity. Qed.

Ltac single_hit :=
  match goal with
  | |- In _ _ => simpl; auto
  | |- Forall _ _ =>
      repeat apply Forall_cons; try apply Forall_nil;
      first [now left | now right]
  | |- _ = true => apply border_point_in_reach; unfold w; lra
  end.

(** The search from the centre for a probe that counts as horizontal or
    as vertical. *)
Lemma search_east (px py : R) :
  eps <= Rabs px -> Rabs py < eps -> 0 <= px ->
  findNearestIntersectionPointAmong [] (rline 0 0 px py) = Some (rpoint w 0).
Proof.
  intros Hx Hy Hs. apply returned_from_hits;
    rewrite ?hits_from_centre, ?ideal_expandLine, ?Rminus_0_r;
    rewrite ?(proj2 (Rltb_false _ _) Hx), ?(proj2 (Rltb_true _ _) Hy),
      ?(proj2 (Rltb_false _ _) Hs), ?hits_east; single_hit.
Qed.

Lemma search_west (px py : R) :
  eps <= Rabs px -> Rabs py < eps -> px < 0 ->
  findNearestIntersectionPointAmong [] (rline 0 0 px py)
  = Some (rpoint (- w) 0).
Proof.
  intros Hx Hy Hs. apply returned_from_hits;
    rewrite ?hits_from_centre, ?ideal_expandLine, ?Rminus_0_r;
    rewrite ?(proj2 (Rltb_false _ _) Hx), ?(proj2 (Rltb_true _ _) Hy),
      ?(proj2 (Rltb_true _ _) Hs), ?hits_west; single_hit.
Qed.

Lemma search_north (px py : R) :
  Rabs px < eps -> 0 <= py ->
  findNearestIntersectionPointAmong [] (rline 0 0 px py) = Some (rpoint 0 w).
Proof.
  intros Hx Hs. apply returned_from_hits;
    rewrite ?hits_from_centre, ?ideal_expandLine, ?Rminus_0_r;
    rewrite ?(proj2 (Rltb_true _ _) Hx), ?(proj2 (Rltb_false _ _) Hs),
      ?hits_north; single_hit.
Qed.

Lemma search_south (px py : R) :
  Rabs px < eps -> py < 0 ->
  findNearestIntersectionPointAmong [] (rline 0 0 px py)
  = Some (rpoint 0 (- w)).
Proof.
  intros Hx Hs. apply returned_from_hits;
    rewrite ?hits_from_centre, ?ideal_expandLine, ?Rminus_0_r;
    rewrite ?(proj2 (Rltb_true _ _) Hx), ?(proj2 (Rltb_true _ _) Hs),
      ?hits_south; single_hit.
Qed.
End ScenarioSearch.

Section ScenarioAngles.
Local Open Scope R_scope.

Ltac abs_lra := unfold Rabs in *; repeat destruct (Rcase_abs _); lra.

Lemma PIr_close : Rabs (Rtrigo1.PI - PIr) < 8 / 1000000.
Proof. pose proof pi_bounds. unfold PIr. abs_lra. Qed.

(** The program's [PI / 2], [PI] and [3 PI / 2] miss the quarter turns by
    a few millionths. *)
Lemma cos_quarter_small : Rabs (Rtrigo_def.cos (1 * quarter)) <= 4 / 1000000.
Proof.
  pose proof PIr_close as H.
  rewrite <- sin_shift.
  apply Rle_trans with (Rabs (Rtrigo1.PI / 2 - 1 * quarter)).
  - apply sin_small. unfold quarter in *. abs_lra.
  - unfold quarter in *. abs_lra.
Qed.

Lemma sin_quarter_pos : 0 < Rtrigo_def.sin (1 * quarter).
Proof.
  pose proof pi_bounds. apply sin_gt_0; unfold quarter, PIr; lra.
Qed.

Lemma sin_half_small : Rabs (Rtrigo_def.sin (2 * quarter)) <= 8 / 1000000.
Proof.
  pose proof PIr_close as H.
  rewrite <- sin_PI_x.
  apply Rle_trans with (Rabs (Rtrigo1.PI - 2 * quarter)).
  - apply sin_small. unfold quarter in *. abs_lra.
  - unfold quarter in *. abs_lra.
Qed.

Lemma cos_half_negative : Rtrigo_def.cos (2 * quarter) <= - (9 / 10).
Proof.
  pose proof pi_bounds as Hpi. pose proof sin_half_small as Hs.
  assert (Hc : Rtrigo_def.cos (2 * quarter) < 0)
    by (apply cos_lt_0; unfold quarter, PIr; lra).
  pose proof (sin2_cos2 (2 * quarter)) as E. unfold Rsqr in E.
  assert (Hs' : Rtrigo_def.sin (2 * quarter) * Rtrigo_def.sin (2 * quarter)
                <= 1 / 100).
  { assert (- (1 / 10) <= Rtrigo_def.sin (2 * quarter) <= 1 / 10) by abs_lra.
    nra. }
  nra.
Qed.

Lemma cos_three_quarters_small :
  Rabs (Rtrigo_def.cos (3 * quarter)) <= 12 / 1000000.
Proof.
  pose proof PIr_close as H.
  replace (Rtrigo_def.cos (3 * quarter))
    with (Rtrigo_def.sin (3 * quarter - 3 * (Rtrigo1.PI / 2))).
  - apply Rle_trans with (Rabs (3 * quarter - 3 * (Rtrigo1.PI / 2))).
    + apply sin_small. unfold quarter in *. abs_lra.
    + unfold quarter in *. abs_lra.
  - rewrite <- (sin_shift (3 * quarter)).
    replace (Rtrigo1.PI / 2 - 3 * quarter)
      with (- (3 * quarter - 3 * (Rtrigo1.PI / 2) + Rtrigo1.PI)) by lra.
    rewrite sin_neg, neg_sin. lra.
Qed.

Lemma sin_three_quarters_neg : Rtrigo_def.sin (3 * quarter) < 0.
Proof.
  pose proof pi_bounds. apply sin_lt_0; unfold quarter, PIr; lra.
Qed.

Lemma ray_0 : eps <= Rabs (ray_x 0) /\ Rabs (ray_y 0) < eps /\ 0 <= ray_x 0.
Proof.
  unfold ray_x, ray_y. rewrite Rmult_0_l, cos_0, sin_0.
  unfold radius, compensation, eps. repeat split; abs_lra.
Qed.

Lemma ray_1 : Rabs (ray_x 1) < eps /\ 0 <= ray_y 1.
Proof.
  pose proof cos_quarter_small. pose proof sin_quarter_pos.
  unfold ray_x, ray_y, radius, compensation, eps. split; [abs_lra | nra].
Qed.

Lemma ray_2 : eps <= Rabs (ray_x 2) /\ Rabs (ray_y 2) < eps /\ ray_x 2 < 0.
Proof.
  pose proof sin_half_small. pose proof cos_half_negative.
  unfold ray_x, ray_y, radius, compensation, eps. repeat split; abs_lra.
Qed.

Lemma ray_3 : Rabs (ray_x 3) < eps /\ ray_y 3 < 0.
Proof.
  pose proof cos_three_quarters_small. pose proof sin_three_quarters_neg.
  unfold ray_x, ray_y, radius, compensation, eps. split; [abs_lra | nra].
Qed.
End ScenarioAngles.

(** C7: origin (0,0) (the cursor at the centre of the window), no wall,
    the four borders at +-1.1, four rays.  In exact arithmetic the rays at
    0, 90, 180 and 270 degrees end at (1.1, 0), (0, 1.1), (-1.1, 0) and
    (0, -1.1); in binary64, with the library values of [cos] and [sin] at
    the four angles, they end at the same points, 1.1 being rounded to the
    nearest binary64 number. *)
Theorem four_rays_reach_the_borders :
  drawRaysAmong [] (of_int 4 : ideal) #960%D #540%D
  = Some [ (rpoint 0 0, Some (rpoint w 0));
           (rpoint 0 0, Some (rpoint 0 w));
           (rpoint 0 0, Some (rpoint (- w) 0));
           (rpoint 0 0, Some (rpoint 0 (- w))) ] /\
  drawRaysAmong (LM := libm_sampled) [] (of_int 4 : float) #960%D #540%D
  = Some (map (fun p => (normalizeMonitorCoordinates #960%D #540%D, Some p))
              [fpoint 1.1 0; fpoint 0 1.1; fpoint (-1.1) 0; fpoint 0 (-1.1)]).
Proof.
  split; [|vm_compute; reflexivity].
  unfold drawRaysAmong, probes. rewrite ideal_origin.
  rewrite (to_int_of_int (D := ideal)) by (unfold INT_MAX; lia).
  change (counter_values 4) with [0; 1; 2; 3]%Z. cbn [map].
  rewrite !ideal_probe.
  destruct ray_0 as (A0 & B0 & C0). destruct ray_1 as (A1 & B1).
  destruct ray_2 as (A2 & B2 & C2). destruct ray_3 as (A3 & B3).
  rewrite (@search_east (ray_x 0) (ray_y 0) A0 B0 C0),
    (@search_north (ray_x 1) (ray_y 1) A1 B1),
    (@search_west (ray_x 2) (ray_y 2) A2 B2 C2),
    (@search_south (ray_x 3) (ray_y 3) A3 B3).
  reflexivity.
Qed.

(** ** The direction of the extension *)

(** In any arithmetic the extension starts where the probe starts. *)
Lemma expandLine_keeps_start {D : Type} {DD : Double D} (original : Line D) :
  point1 (expandLine original) = point1 original.
Proof.
  unfold expandLine.
  repeat match goal with
  | |- context [if ?c then _ else _] => destruct c
  end; reflexivity.
Qed.

Section ExactDirection.
Local Open Scope R_scope.

Lemma sloped_extension (x1 y1 x2 y2 : R) :
  eps <= Rabs (x2 - x1) -> eps <= Rabs (y2 - y1) ->
  expandLine (rline x1 y1 x2 y2)
  = rline x1 y1 (if Rltb x2 x1 then - far else far)
          (y1 + (y2 - y1) / (x2 - x1) * (far - x1)).
Proof.
  intros Hx Hy. rewrite ideal_expandLine.
  rewrite (proj2 (Rltb_false _ _) Hx), (proj2 (Rltb_false _ _) Hy).
  cbv zeta. apply rline_eq; try reflexivity. lra.
Qed.

(** A probe that points right and is neither horizontal nor vertical is
    extended along its direction: the end of the extension is the start
    plus a positive multiple of the probe. *)
Lemma expandLine_rightward_along (x1 y1 x2 y2 : R) :
  x1 < x2 -> eps <= Rabs (x2 - x1) -> eps <= Rabs (y2 - y1) -> x1 < far ->
  exists k ex ey,
    expandLine (rline x1 y1 x2 y2) = rline x1 y1 ex ey /\ 0 < k /\
    ex - x1 = k * (x2 - x1) /\ ey - y1 = k * (y2 - y1).
Proof.
  intros Hlt Hx Hy Hf. rewrite sloped_extension by assumption.
  rewrite (proj2 (Rltb_false x2 x1)) by lra.
  exists ((far - x1) / (x2 - x1)). do 2 eexists.
  split; [reflexivity|]. split; [|split; field; lra].
  apply Rdiv_lt_0_compat; lra.
Qed.

(** A probe that points left and is neither horizontal nor vertical is
    not: the extension goes left, but up where the probe goes down and
    down where it goes up. *)
Lemma expandLine_leftward_reversed (x1 y1 x2 y2 : R) :
  x2 < x1 -> eps <= Rabs (x2 - x1) -> eps <= Rabs (y2 - y1) -> x1 < far ->
  exists ey,
    expandLine (rline x1 y1 x2 y2) = rline x1 y1 (- far) ey /\
    (ey - y1) * (y2 - y1) < 0.
Proof.
  intros Hlt Hx Hy Hf. rewrite sloped_extension by assumption.
  rewrite (proj2 (Rltb_true x2 x1)) by lra.
  eexists. split; [reflexivity|].
  assert (Hy' : y2 - y1 <> 0).
  { intros E. rewrite E, Rabs_R0 in Hy. unfold eps in Hy. lra. }
  assert (Hsq : 0 < (y2 - y1) * (y2 - y1)) by nra.
  assert (Hq : (far - x1) / (x2 - x1) < 0)
    by (apply quotient_negative; lra).
  replace (y1 + (y2 - y1) / (x2 - x1) * (far - x1) - y1)
    with ((y2 - y1) * ((far - x1) / (x2 - x1))) by (field; lra).
  nra.
Qed.
End ExactDirection.

(** * Further properties of the program *)

(** ** Exact products and differences in binary64 *)

Lemma iter_pos_Pos_iter (A : Type) (f : A -> A) (k : positive) (a : A) :
  iter_pos f k a = Pos.iter f a k.
Proof.
  revert a. induction k as [k IH|k IH|]; intros a; simpl.
  - rewrite !IH. now rewrite <- !Pos.iter_swap.
  - now rewrite !IH.
  - reflexivity.
Qed.

Lemma shr_1_xO (p : positive) :
  shr_1 {| shr_m := Zpos p~0; shr_r := false; shr_s := false |}
  = {| shr_m := Zpos p; shr_r := false; shr_s := false |}.
Proof. reflexivity. Qed.

Lemma shr_iter_xO (m k : positive) :
  iter_pos shr_1 k
    {| shr_m := Zpos (Pos.iter xO m k); shr_r := false; shr_s := false |}
  = {| shr_m := Zpos m; shr_r := false; shr_s := false |}.
Proof.
  rewrite iter_pos_Pos_iter.
  induction k as [|k IH] using Pos.peano_ind.
  - reflexivity.
  - rewrite Pos.iter_succ_r, Pos.iter_succ, shr_1_xO. exact IH.
Qed.

(** A canonical significand shifted up by [k] binary digits is rounded
    back to itself. *)
Lemma round_shifted (s : bool) (m k : positive) (e : Z) :
  fexp prec emax (Zpos (digits2_pos m) + e) = e -> (e <= emax - prec)%Z ->
  binary_round_aux prec emax s (Zpos (Pos.iter xO m k)) (e - Zpos k) loc_Exact
  = S754_finite s m e.
Proof.
  intros Hf He. unfold binary_round_aux, shr_fexp.
  cbn [Zdigits2 shr_record_of_loc]. rewrite iter_xO_digits.
  replace (Zpos (digits2_pos m + k) + (e - Zpos k))%Z
    with (Zpos (digits2_pos m) + e)%Z by lia.
  rewrite Hf. replace (e - (e - Zpos k))%Z with (Zpos k) by lia.
  cbn [shr]. rewrite shr_iter_xO.
  cbn [shr_m loc_of_shr_record round_nearest_even Zdigits2 shr_record_of_loc].
  replace (e - Zpos k + Zpos k)%Z with e by lia.
  rewrite Hf, Z.sub_diag. cbn [shr shr_m].
  destruct (Z.leb_spec e (emax - prec)); [reflexivity | lia].
Qed.

Lemma valid_finite (s : bool) (m : positive) (e : Z) :
  SpecFloat.valid_binary prec emax (S754_finite s m e) = true ->
  fexp prec emax (Zpos (digits2_pos m) + e) = e /\ (e <= emax - prec)%Z.
Proof.
  unfold SpecFloat.valid_binary, bounded, canonical_mantissa.
  intros H. apply andb_prop in H. destruct H as [H1 H2].
  split; [now apply Z.eqb_eq | now apply Z.leb_le].
Qed.

Lemma SFmul_minus_one (a : spec_float) :
  SpecFloat.valid_binary prec emax a = true ->
  SF64mul a (S754_finite true 4503599627370496 (-52)) = SFopp a.
Proof.
  destruct a as [s|s| |s m e]; intros Hv;
    try (destruct s; reflexivity); try reflexivity.
  destruct (valid_finite _ _ _ Hv) as [Hf He].
  unfold SF64mul, SFmul.
  replace (m * 4503599627370496)%positive with (Pos.iter xO m 52)
    by (rewrite Pos.mul_comm; reflexivity).
  change (e + -52)%Z with (e - 52)%Z.
  rewrite (round_shifted _ _ 52 Hf He). now destruct s.
Qed.

(** The statement [norm.y *= -1] negates, exactly. *)
Lemma mul_minus_one (f : float) : (f * of_int (-1))%D = (- f)%D.
Proof.
  apply Prim2SF_inj. cbn [mul neg of_int binary64].
  rewrite FloatAxioms.mul_spec, FloatAxioms.opp_spec.
  change (Prim2SF (float_of_Z (-1)))
    with (S754_finite true 4503599627370496 (-52)).
  apply SFmul_minus_one, FloatAxioms.Prim2SF_valid.
Qed.

(** ** The cursor position in binary64 *)

Lemma SFltb_leb_trans a b c :
  SFltb a b = true -> SFleb b c = true -> SFltb a c = true.
Proof.
  unfold SFltb, SFleb.
  destruct c as [[|]|[|]| |[|] ? ?]; sf_cases a b; intros H1 H2; cmp_cases.
Qed.

Lemma SFleb_opp a b : SFleb (SFopp a) (SFopp b) = SFleb b a.
Proof.
  unfold SFleb.
  destruct a as [[|]|[|]| |[|] ma ea], b as [[|]|[|]| |[|] mb eb]; simpl;
    try reflexivity;
    rewrite (Z.compare_antisym ea eb);
    change (Pos.compare_cont Eq mb ma) with (Pos.compare mb ma);
    change (Pos.compare_cont Eq ma mb) with (Pos.compare ma mb);
    rewrite (Pos.compare_antisym ma mb);
    destruct (Z.compare ea eb); simpl; try reflexivity;
    destruct (Pos.compare ma mb); reflexivity.
Qed.

Lemma SFsub_not_nan a s m e :
  a <> S754_nan -> SF64sub a (S754_finite s m e) <> S754_nan.
Proof.
  destruct a as [sa|sa| |sa ma ea]; intros Ha; try congruence; simpl;
    try discriminate.
  apply binary_normalize_not_nan.
Qed.

Lemma SFdiv_not_nan a s m e :
  a <> S754_nan -> SF64div a (S754_finite s m e) <> S754_nan.
Proof.
  destruct a as [sa|sa| |sa ma ea]; intros Ha; try congruence; simpl;
    try discriminate.
  unfold SF64div, SFdiv, SFdiv_core_binary.
  set (m' := match _ with Z0 => _ | Zpos _ => _ | Zneg _ => _ end).
  assert (Hm : (0 <= m')%Z).
  { subst m'. destruct (_ - _ - _)%Z; try lia.
    rewrite Z.shiftl_mul_pow2 by lia. apply Z.mul_nonneg_nonneg; lia. }
  pose proof (Z_div_mod m' (Zpos m) ltac:(lia)) as Hq.
  destruct (Z.div_eucl m' (Zpos m)) as [q r].
  apply binary_round_aux_not_nan. destruct Hq as [Hq Hr]. nia.
Qed.

Lemma float_ltb_false_leb (a b : float) :
  PrimFloat.is_nan a = false -> PrimFloat.is_nan b = false ->
  (a <? b)%D = false -> (b <=? a)%D = true.
Proof.
  cbn [ltb leb binary64].
  rewrite !is_nan_Prim2SF, FloatAxioms.ltb_spec, FloatAxioms.leb_spec.
  apply SFltb_false_leb.
Qed.

Lemma float_leb_opp (a b : float) : (- a <=? - b)%D = (b <=? a)%D.
Proof.
  cbn [neg leb binary64].
  rewrite !FloatAxioms.leb_spec, !FloatAxioms.opp_spec. apply SFleb_opp.
Qed.

Lemma float_ltb_leb_trans (a b c : float) :
  (a <? b)%D = true -> (b <=? c)%D = true -> (a <? c)%D = true.
Proof.
  cbn [ltb leb binary64].
  rewrite !FloatAxioms.ltb_spec, FloatAxioms.leb_spec.
  apply SFltb_leb_trans.
Qed.

(** The offset and the scaling of one coordinate keep a number a number. *)
Lemma scaled_not_nan (pos : float) (half : Q) :
  SF_is_number (Prim2SF (lit half)) = true ->
  (0 <? lit half)%float = true ->
  PrimFloat.is_nan pos = false ->
  PrimFloat.is_nan ((pos - lit half) / lit half)%D = false.
Proof.
  cbn [sub div lit binary64]. intros Hnum Hpos.
  rewrite !is_nan_Prim2SF, FloatAxioms.div_spec, FloatAxioms.sub_spec.
  rewrite FloatAxioms.ltb_spec in Hpos. revert Hnum Hpos.
  destruct (Prim2SF (float_of_Q half)) as [s|s| |s m e]; try discriminate.
  intros _ _ H. now apply SFdiv_not_nan, SFsub_not_nan.
Qed.

(** The clamp of one coordinate. *)
Lemma clamp_unit (n : float) :
  PrimFloat.is_nan n = false ->
  let r := (if n >? #1.0 then #1.0 else if n <? - #1.0 then - #1.0 else n)%D in
  (- #1.0 <=? r)%D = true /\ (r <=? #1.0)%D = true.
Proof.
  intros Hn r. subst r.
  destruct (n >? #1.0)%D eqn:E1; [split; reflexivity|].
  destruct (n <? - #1.0)%D eqn:E2; [split; reflexivity|].
  split; apply float_ltb_false_leb; auto.
Qed.

(** X1: in binary64, whatever position the cursor is reported at (inside
    the window, outside of it, at infinity), as long as its coordinates
    are numbers, [normalizeMonitorCoordinates] returns a point with both
    coordinates in [-1, 1]; such a point is strictly inside the border
    square of [findNearestIntersectionPoint]. *)
Theorem normalized_in_unit_square (xpos ypos : float) :
  PrimFloat.is_nan xpos = false -> PrimFloat.is_nan ypos = false ->
  in_unit_square (normalizeMonitorCoordinates xpos ypos) = true /\
  strictly_inside (normalizeMonitorCoordinates xpos ypos) = true.
Proof.
  intros Hx Hy.
  assert (Hx' : PrimFloat.is_nan ((xpos - #960) / #960)%D = false)
    by (apply scaled_not_nan; auto).
  assert (Hy' : PrimFloat.is_nan ((ypos - #540) / #540)%D = false)
    by (apply scaled_not_nan; auto).
  destruct (clamp_unit _ Hx') as [X1 X2].
  destruct (clamp_unit _ Hy') as [Y1 Y2].
  assert (B : in_unit_square (normalizeMonitorCoordinates xpos ypos) = true).
  { unfold in_unit_square, normalizeMonitorCoordinates. cbn [x y].
    rewrite mul_minus_one.
    change (of_int MONITOR_SIZE_X / #2.0)%D with (#960%D : float).
    change (of_int MONITOR_SIZE_Y / #2.0)%D with (#540%D : float).
    rewrite X1, X2. cbn [andb].
    rewrite andb_true_iff. split.
    - etransitivity; [apply float_leb_opp | exact Y2].
    - change (#1.0%D : float) with (- - #1.0 : float)%D.
      etransitivity; [apply float_leb_opp | exact Y1]. }
  split; [exact B|].
  unfold in_unit_square in B. unfold strictly_inside.
  repeat (apply andb_prop in B; destruct B as [B ?]).
  rewrite !andb_true_iff. repeat split.
  - eapply float_ltb_leb_trans; [|eassumption]. reflexivity.
  - eapply leb_ltb_trans; [eassumption|]. reflexivity.
  - eapply float_ltb_leb_trans; [|eassumption]. reflexivity.
  - eapply leb_ltb_trans; [eassumption|]. reflexivity.
Qed.

Lemma normalized_in_unit_square_witness :
  PrimFloat.is_nan (#5000 : float)%D = false /\
  PrimFloat.is_nan (#(-3) : float)%D = false /\
  in_unit_square (normalizeMonitorCoordinates #5000 #(-3) : Point float)%D
  = true.
Proof.
  split; [reflexivity|]. split; [reflexivity|].
  apply (@normalized_in_unit_square (#5000)%D (#(-3))%D); reflexivity.
Defined.

(** ** The distance in binary64 *)





Lemma SFsqrt_not_negative a : SFltb (SF64sqrt a) (S754_zero false) = false.
Proof.
  destruct a as [[|]|[|]| |[|] m e]; try reflexivity.
  unfold SF64sqrt, SFsqrt.
  destruct (SFsqrt_core_binary prec emax (Zpos m) e) as [[mz ez] lz].
  unfold binary_round_aux.
  destruct (shr_fexp prec emax mz ez lz) as [mrs' e'].
  destruct (shr_fexp prec emax _ e' loc_Exact) as [mrs'' e''].
  destruct (shr_m mrs'') as [|p|p]; try reflexivity.
  destruct (_ <=? _)%Z; reflexivity.
Qed.

Lemma SFsub_same a : SF_is_number a = true -> SF64sub a a = S754_zero false.
Proof.
  destruct a as [[|]|[|]| |s m e]; try discriminate; try reflexivity.
  intros _. unfold SF64sub, SFsub. now rewrite Z.sub_diag.
Qed.

Lemma sub_same (a : float) : is_finite a = true -> (a - a)%D = #0.0%D.
Proof.
  intros H. apply Prim2SF_inj. cbn [sub binary64].
  rewrite FloatAxioms.sub_spec. now apply SFsub_same.
Qed.

(** X3: in binary64 [pointDistance] never returns a negative number,
    whatever the coordinates (its result may be a not-a-number, which is
    not less than zero either), and the distance of a point with finite
    coordinates from itself is [+0.0]. *)
Theorem pointDistance_never_negative (p q : Point float) :
  (pointDistance p q <? #0.0)%D = false /\
  (is_finite (x p) = true -> is_finite (y p) = true ->
   pointDistance p p = #0.0%D).
Proof.
  split.
  - unfold pointDistance. cbn [sqrt ltb binary64].
    rewrite FloatAxioms.ltb_spec, FloatAxioms.sqrt_spec.
    apply SFsqrt_not_negative.
  - intros Hx Hy. unfold pointDistance, pow_2.
    rewrite (sub_same _ Hx), (sub_same _ Hy). reflexivity.
Qed.

Lemma pointDistance_never_negative_witness :
  is_finite (x (fpoint 0.3 (-0.7))) = true /\
  is_finite (y (fpoint 0.3 (-0.7))) = true /\
  pointDistance (fpoint 0.3 (-0.7)) (fpoint 0.3 (-0.7)) = #0.0%D.
Proof.
  split; [reflexivity|]. split; [reflexivity|].
  apply (proj2 (@pointDistance_never_negative
                  (fpoint 0.3 (-0.7)) (fpoint 0 0)));
    reflexivity.
Defined.

(** X5: in binary64 a probe of length zero (both end points the same,
    with a finite abscissa) is taken for a vertical one pointing up: the
    difference of the abscissas is [+0.0], below the threshold, and the
    ordinate of the end is not less than that of the start, so the
    extension ends at [(x, 32767)]. *)
Theorem expandLine_degenerate (p : Point float) :
  is_finite (x p) = true ->
  expandLine (mkLine p p) = mkLine p (mkPoint (x p) (of_int 32767)).
Proof.
  intros Hx. unfold expandLine. cbn [point1 point2].
  rewrite (sub_same _ Hx).
  change (fabs #0.0 <? #10e-7)%D with true. cbn iota.
  now rewrite ltb_irrefl.
Qed.

Lemma expandLine_degenerate_witness :
  is_finite (x (fpoint 0.3 (-0.7))) = true /\
  expandLine (mkLine (fpoint 0.3 (-0.7)) (fpoint 0.3 (-0.7)))
  = fline 0.3 (-0.7) 0.3 32767.
Proof.
  split; [reflexivity|].
  apply (@expandLine_degenerate (fpoint 0.3 (-0.7))). reflexivity.
Defined.

(** ** Bookkeeping of the search *)

Section Bookkeeping.
Context {D : Type} {DD : Double D} {OK : DoubleOk D}.
Variable start : Line D.

Lemma ltb_trans (a b c : D) :
  (a <? b)%D = true -> (b <? c)%D = true -> (a <? c)%D = true.
Proof. intros H1 H2. exact (leb_ltb_trans _ _ _ (ltb_leb _ _ H1) H2). Qed.

(** One more obstacle leaves the bound and the recorded point as they
    are, or lowers the bound to the distance of the new hit. *)
Lemma bound_step (o : Line D) (st : Search D) :
  let st' := evaluateIntersection start (expandLine start) o st in
  (dist_to_intersection st' = dist_to_intersection st /\
   intersection st' = intersection st) \/
  ((dist_to_intersection st' <? dist_to_intersection st)%D = true /\
   exists q, hit start o = Some q /\ intersection st' = Some q /\
             dist_to_intersection st' = dist start q).
Proof.
  unfold evaluateIntersection. fold (hit start o).
  destruct (hit start o) as [q|]; [|now left].
  fold (dist start q).
  destruct (dist start q <? dist_to_intersection st)%D eqn:E; [|now left].
  right. split; [exact E|]. now exists q.
Qed.

Lemma bound_never_grows (l1 l2 : list (Line D)) :
  let s1 := run start l1 in
  let s2 := run start (l1 ++ l2) in
  (dist_to_intersection s2 = dist_to_intersection s1 /\
   intersection s2 = intersection s1) \/
  ((dist_to_intersection s2 <? dist_to_intersection s1)%D = true /\
   exists o q, In o l2 /\ hit start o = Some q /\
               intersection s2 = Some q /\
               dist_to_intersection s2 = dist start q).
Proof.
  induction l2 as [|o l2 IH] using rev_ind; cbv zeta.
  - rewrite app_nil_r. now left.
  - rewrite app_assoc, run_snoc.
    destruct (bound_step o (run start (l1 ++ l2)))
      as [[Hd Hi]|(Hlt & q & Hq & Hi & Hd)].
    + rewrite Hd, Hi. destruct IH as [IH|(Hlt & o' & q & Hin & IH)].
      * now left.
      * right. split; [exact Hlt|]. exists o', q.
        split; [apply in_or_app; now left | exact IH].
    + right. split.
      * destruct IH as [[IHd _]|[IHlt _]].
        -- now rewrite <- IHd.
        -- exact (ltb_trans _ _ _ Hlt IHlt).
      * exists o, q. split; [apply in_or_app; right; now left|]. auto.
Qed.
End Bookkeeping.

(** X7: the locals of [findNearestIntersectionPoint] stay coupled while
    [evaluateIntersection] is applied to one obstacle after the other.
    After any number of obstacles either no point is recorded and the
    bound is still [(double) INT64_MAX], or the recorded point is the hit
    of one of the obstacles seen and the bound is its distance from the
    start of the probe.  Further obstacles leave the bound as it is or
    lower it strictly, and a point once recorded is replaced, never
    lost. *)
Theorem search_bookkeeping {D : Type} {DD : Double D} {OK : DoubleOk D}
    (start : Line D) (l1 l2 : list (Line D)) :
  let s1 := run start l1 in
  let s2 := run start (l1 ++ l2) in
  ((intersection s1 = None /\ dist_to_intersection s1 = sentinel) \/
   (exists o p, In o l1 /\ hit start o = Some p /\
                intersection s1 = Some p /\
                dist_to_intersection s1 = dist start p /\
                (dist start p <? sentinel)%D = true)) /\
  (dist_to_intersection s2 = dist_to_intersection s1 \/
   (dist_to_intersection s2 <? dist_to_intersection s1)%D = true) /\
  (intersection s1 <> None -> intersection s2 <> None).
Proof.
  cbv zeta. split; [|split].
  - destruct (search_invariant start l1)
      as [(Hi & Hd & _)|(i & p & Hi & Hd & (o & Ho & Hp) & Hs & _)].
    + now left.
    + right. exists o, p. split; [eapply nth_error_In; eassumption|]. auto.
  - destruct (bound_never_grows start l1 l2) as [[H _]|[H _]]; auto.
  - destruct (bound_never_grows start l1 l2)
      as [[_ H]|(_ & o & q & _ & _ & H & _)]; rewrite H; congruence.
Qed.

Lemma search_bookkeeping_witness :
  intersection (run probe_east walls) <> None /\
  intersection (run probe_east (walls ++ borders)) <> None.
Proof.
  assert (H : intersection (run probe_east walls) <> None)
    by (vm_compute; discriminate).
  split; [exact H|].
  exact (proj2 (proj2 (@search_bookkeeping _ _ _ probe_east walls borders)) H).
Defined.

(** What a returned point is: the hit of an obstacle, within the initial
    bound, and no hit of any obstacle is strictly nearer. *)
Lemma returned_is_nearest {D : Type} {DD : Double D} {OK : DoubleOk D}
    (ws : list (Line D)) (start : Line D) (p : Point D) :
  findNearestIntersectionPointAmong ws start = Some p ->
  (exists o, In o (ws ++ borders) /\ hit start o = Some p) /\
  (dist start p <? sentinel)%D = true /\
  forall o q, In o (ws ++ borders) -> hit start o = Some q ->
              (dist start q <? dist start p)%D = false.
Proof.
  intros Hp. rewrite findNearest_run in Hp.
  destruct (search_invariant start (ws ++ borders))
    as [(Hi & _)|(i & p0 & Hi & _ & (o & Ho & Hq) & Hs & Hm)];
    [congruence|].
  assert (p0 = p) by congruence. subst p0.
  split; [exists o; split; [eapply nth_error_In; eassumption | exact Hq]|].
  split; [exact Hs|]. intros o' q Hin Hq'.
  destruct (In_nth_error _ _ Hin) as [j Hj].
  exact (proj1 (Hm j o' q Hj Hq')).
Qed.

(** A hit within the initial bound makes the search return a point. *)
Lemma hit_in_reach_returns {D : Type} {DD : Double D} {OK : DoubleOk D}
    (ws : list (Line D)) (start : Line D) (o : Line D) (q : Point D) :
  In o (ws ++ borders) -> hit start o = Some q ->
  (dist start q <? sentinel)%D = true ->
  exists p, findNearestIntersectionPointAmong ws start = Some p.
Proof.
  intros Hin Hq Hs. rewrite findNearest_run.
  destruct (In_nth_error _ _ Hin) as [j Hj].
  destruct (search_invariant start (ws ++ borders))
    as [(_ & _ & Hn)|(i & p & Hi & _)].
  - rewrite (Hn j o q Hj Hq) in Hs. discriminate.
  - now exists p.
Qed.

Lemma incl_with_borders {D : Type} {DD : Double D} (ws ws' : list (Line D))
    (o : Line D) :
  incl ws ws' -> In o (ws ++ borders) -> In o (ws' ++ borders).
Proof.
  intros Hincl Hin. apply in_app_or in Hin. apply in_or_app.
  destruct Hin; [left; now apply Hincl | now right].
Qed.

(** X8: more walls never push the end of a ray farther away.  If the
    search among the walls [ws] returns a point and every wall of [ws] is
    among the walls [ws'] (in any order, with or without repetitions and
    further walls), the search among [ws'] returns a point too, and the
    first point is not strictly nearer to the start of the probe than the
    second. *)
Theorem more_obstacles_never_farther {D : Type} {DD : Double D}
    {OK : DoubleOk D} (ws ws' : list (Line D)) (start : Line D)
    (p : Point D) :
  incl ws ws' ->
  findNearestIntersectionPointAmong ws start = Some p ->
  exists p', findNearestIntersectionPointAmong ws' start = Some p' /\
             (dist start p <? dist start p')%D = false.
Proof.
  intros Hincl Hp.
  destruct (returned_is_nearest _ _ Hp) as ((o & Hin & Hq) & Hs & _).
  pose proof (incl_with_borders _ Hincl Hin) as Hin'.
  destruct (hit_in_reach_returns _ _ _ Hin' Hq Hs) as [p' Hp'].
  exists p'. split; [exact Hp'|].
  destruct (returned_is_nearest _ _ Hp') as (_ & _ & Hm).
  exact (Hm o p Hin' Hq).
Qed.

Lemma more_obstacles_never_farther_witness :
  incl [] (walls (D := float)) /\
  findNearestIntersectionPointAmong [] probe_east = Some (fpoint 1.1 0) /\
  exists p', findNearestIntersectionPoint probe_east = Some p' /\
             (dist probe_east (fpoint 1.1 0) <? dist probe_east p')%D = false.
Proof.
  assert (H1 : incl [] (walls (D := float))) by (intros o []).
  assert (H2 : findNearestIntersectionPointAmong [] probe_east
               = Some (fpoint 1.1 0)) by (vm_compute; reflexivity).
  split; [exact H1|]. split; [exact H2|].
  exact (@more_obstacles_never_farther _ _ _ _ _ _ _ H1 H2).
Defined.

Lemma float_ltb_number (a b : float) :
  (a <? b)%D = true -> PrimFloat.is_nan a = false.
Proof.
  cbn [ltb binary64]. rewrite is_nan_Prim2SF, FloatAxioms.ltb_spec.
  unfold SFltb. now destruct (Prim2SF a).
Qed.

Lemma SF_neither_less a b :
  a <> S754_nan -> b <> S754_nan ->
  SFltb a b = false -> SFltb b a = false -> SFeqb a b = true.
Proof.
  unfold SFltb, SFeqb.
  destruct a as [[|]|[|]| |[|] ma ea], b as [[|]|[|]| |[|] mb eb]; simpl;
    try discriminate; try reflexivity; try congruence;
    rewrite (Z.compare_antisym ea eb);
    change (Pos.compare_cont Eq mb ma) with (Pos.compare mb ma);
    change (Pos.compare_cont Eq ma mb) with (Pos.compare ma mb);
    rewrite (Pos.compare_antisym ma mb);
    destruct (Z.compare ea eb); simpl; try discriminate;
    destruct (Pos.compare ma mb); simpl; try discriminate; reflexivity.
Qed.

(** X9: in binary64 the distance of the point returned depends on the
    set of walls only, not on their order in the array nor on
    repetitions: two wall lists with the same members give both no point,
    or two points at equal distance from the start of the probe (the
    points themselves can differ when several hits are equally near). *)
Theorem nearest_distance_order_independent (ws ws' : list (Line float))
    (start : Line float) :
  incl ws ws' -> incl ws' ws ->
  match findNearestIntersectionPointAmong ws start,
        findNearestIntersectionPointAmong ws' start with
  | Some p, Some p' => (dist start p =? dist start p')%float = true
  | None, None => True
  | _, _ => False
  end.
Proof.
  intros H1 H2.
  destruct (findNearestIntersectionPointAmong ws start) as [p|] eqn:E;
    destruct (findNearestIntersectionPointAmong ws' start) as [p'|] eqn:E'.
  - destruct (returned_is_nearest _ _ E) as ((o & Hin & Hq) & Hs & Hm).
    destruct (returned_is_nearest _ _ E') as ((o' & Hin' & Hq') & Hs' & Hm').
    pose proof (Hm o' p' (incl_with_borders _ H2 Hin') Hq') as L1.
    pose proof (Hm' o p (incl_with_borders _ H1 Hin) Hq) as L2.
    pose proof (@float_ltb_number _ _ Hs) as Np.
    pose proof (@float_ltb_number _ _ Hs') as Np'.
    revert L1 L2 Np Np'. cbn [ltb binary64].
    rewrite !is_nan_Prim2SF, !FloatAxioms.ltb_spec, FloatAxioms.eqb_spec.
    intros L1 L2 Np Np'. now apply SF_neither_less.
  - destruct (returned_is_nearest _ _ E) as ((o & Hin & Hq) & Hs & _).
    destruct (hit_in_reach_returns _ _ _ (incl_with_borders _ H1 Hin) Hq Hs)
      as [q Hq']. congruence.
  - destruct (returned_is_nearest _ _ E') as ((o & Hin & Hq) & Hs & _).
    destruct (hit_in_reach_returns _ _ _ (incl_with_borders _ H2 Hin) Hq Hs)
      as [q Hq']. congruence.
  - exact I.
Qed.

Lemma nearest_distance_order_independent_witness :
  incl (walls (D := float)) (rev walls) /\
  incl (rev walls) (walls (D := float)) /\
  match findNearestIntersectionPointAmong walls probe_east,
        findNearestIntersectionPointAmong (rev walls) probe_east with
  | Some p, Some p' => (dist probe_east p =? dist probe_east p')%float = true
  | None, None => True
  | _, _ => False
  end.
Proof.
  assert (H1 : incl walls (rev (walls (D := float))))
    by (intros o Ho; now apply in_rev in Ho).
  assert (H2 : incl (rev walls) (walls (D := float)))
    by (intros o Ho; now apply in_rev).
  split; [exact H1|]. split; [exact H2|].
  exact (@nearest_distance_order_independent _ _ probe_east H1 H2).
Defined.

(** ** Further exact geometry *)

Section ExactMore.
Local Open Scope R_scope.

(** *** Exchanging the two segments *)

Lemma swapped_parameters x1 y1 x2 y2 x3 y3 x4 y4 :
  den x1 y1 x2 y2 x3 y3 x4 y4 <> 0 ->
  den x3 y3 x4 y4 x1 y1 x2 y2 = - den x1 y1 x2 y2 x3 y3 x4 y4 /\
  num_t x3 y3 x1 y1 x2 y2 / den x3 y3 x4 y4 x1 y1 x2 y2
  = num_u x1 y1 x2 y2 x3 y3 / den x1 y1 x2 y2 x3 y3 x4 y4 /\
  num_u x3 y3 x4 y4 x1 y1 / den x3 y3 x4 y4 x1 y1 x2 y2
  = num_t x1 y1 x3 y3 x4 y4 / den x1 y1 x2 y2 x3 y3 x4 y4.
Proof.
  intros Hd.
  assert (E : den x3 y3 x4 y4 x1 y1 x2 y2 = - den x1 y1 x2 y2 x3 y3 x4 y4)
    by (unfold den; ring).
  split; [exact E|]. rewrite E. unfold num_t, num_u.
  split; field; exact Hd.
Qed.

(** In exact arithmetic the order of the two arguments of
    [findLineSegmentIntersection] does not matter: exchanging the two
    segments exchanges the parameters [t] and [u], so the same decision
    is taken, and the point computed on the second segment is the point
    computed on the first. *)
Theorem intersection_symmetric (x1 y1 x2 y2 x3 y3 x4 y4 : R) :
  findLineSegmentIntersection (rline x1 y1 x2 y2) (rline x3 y3 x4 y4)
  = findLineSegmentIntersection (rline x3 y3 x4 y4) (rline x1 y1 x2 y2).
Proof.
  rewrite !ideal_intersection. cbv zeta.
  destruct (Req_dec_T (den x1 y1 x2 y2 x3 y3 x4 y4) 0) as [E|N].
  - assert (E' : den x3 y3 x4 y4 x1 y1 x2 y2 = 0)
      by (unfold den in *; lra).
    destruct (Req_dec_T (den x3 y3 x4 y4 x1 y1 x2 y2) 0); [reflexivity|].
    contradiction.
  - destruct (swapped_parameters N) as (E & Et & Eu).
    destruct (Req_dec_T (den x3 y3 x4 y4 x1 y1 x2 y2) 0) as [Z|_];
      [rewrite E in Z; lra|].
    rewrite Et, Eu, (andb_comm (in_unit (num_u _ _ _ _ _ _ / _))).
    destruct (in_unit _ && in_unit _); [|reflexivity].
    destruct (@parameters_solve x1 y1 x2 y2 x3 y3 x4 y4 N) as [Hx Hy].
    cbv zeta in Hx, Hy. unfold rpoint. now rewrite Hx, Hy.
Qed.

(** *** The direction of the extension of a sloped probe *)

(** In exact arithmetic, [expandLine] applied to a probe that is
    neither within [10e-7] of vertical nor within [10e-7] of horizontal,
    and that starts between the abscissas [-32767] and [32767], keeps the
    start and moves the end to the abscissa [32767] or [-32767] on the
    side the probe points to.  A probe pointing right is extended along
    its direction (the extension is a positive multiple of the probe); a
    probe pointing left is extended with its vertical direction
    reversed: up where the probe goes down, down where it goes up. *)
Theorem sloped_probe_extension (x1 y1 x2 y2 : R) :
  eps <= Rabs (x2 - x1) -> eps <= Rabs (y2 - y1) -> - far < x1 < far ->
  exists ex ey,
    expandLine (rline x1 y1 x2 y2) = rline x1 y1 ex ey /\
    0 < (ex - x1) * (x2 - x1) /\
    (x1 < x2 ->
     ex = far /\
     exists k, 0 < k /\ ex - x1 = k * (x2 - x1) /\ ey - y1 = k * (y2 - y1)) /\
    (x2 < x1 -> ex = - far /\ (ey - y1) * (y2 - y1) < 0).
Proof.
  intros Hx Hy Hf.
  assert (Hne : x2 - x1 <> 0).
  { intros E. rewrite E, Rabs_R0 in Hx. unfold eps in Hx. lra. }
  destruct (Rlt_le_dec x1 x2) as [Hlt|Hge].
  - destruct (@expandLine_rightward_along x1 y1 x2 y2 Hlt Hx Hy
                ltac:(lra)) as (k & ex & ey & He & Hk & Ex & Ey).
    exists ex, ey. split; [exact He|].
    assert (Hfar : ex = far).
    { rewrite sloped_extension in He by assumption.
      rewrite (proj2 (Rltb_false x2 x1)) in He by lra.
      injection He as <- _. reflexivity. }
    split; [rewrite Ex; nra|]. split; [|intros; lra].
    intros _. split; [exact Hfar|]. now exists k.
  - assert (Hlt : x2 < x1) by lra.
    destruct (@expandLine_leftward_reversed x1 y1 x2 y2 Hlt Hx Hy
                ltac:(lra)) as (ey & He & Hrev).
    exists (- far), ey. split; [exact He|].
    split; [nra|]. split; [intros; lra|].
    intros _. split; [reflexivity | exact Hrev].
Qed.

Lemma sloped_probe_extension_witness :
  (eps <= Rabs (-1 - 0)) /\ (eps <= Rabs (1 - 0)) /\ (- far < 0 < far) /\
  exists ex ey,
    expandLine (rline 0 0 (-1) 1) = rline 0 0 ex ey /\
    ex = - far /\ (ey - 0) * (1 - 0) < 0.
Proof.
  assert (H1 : eps <= Rabs (-1 - 0))
    by (unfold eps, Rabs; destruct (Rcase_abs _); lra).
  assert (H2 : eps <= Rabs (1 - 0))
    by (unfold eps, Rabs; destruct (Rcase_abs _); lra).
  assert (H3 : - far < 0 < far) by (unfold far; lra).
  split; [exact H1|]. split; [exact H2|]. split; [exact H3|].
  destruct (@sloped_probe_extension 0 0 (-1) 1 H1 H2 H3)
    as (ex & ey & He & _ & _ & Hl).
  exists ex, ey. split; [exact He|]. apply Hl. lra.
Defined.

(** *** Where the returned point lies *)

(** A hit of a segment with real end points is a point of that segment. *)
Lemma hit_parameter (x1 y1 ex ey : R) (o : Line ideal) (p : Point ideal) :
  findLineSegmentIntersection (rline x1 y1 ex ey) o = Some p ->
  exists t, (0 <= t <= 1) /\
            p = rpoint (x1 + t * (ex - x1)) (y1 + t * (ey - y1)).
Proof.
  unfold findLineSegmentIntersection.
  destruct (param_t (rline x1 y1 ex ey) o) as [t|]; [|discriminate].
  cbn -[param_u]. rewrite Q2R_0, Q2R_1.
  destruct (Rleb 0 t) eqn:E0; [|discriminate].
  destruct (Rleb t 1) eqn:E1; [|discriminate].
  cbn -[param_u].
  destruct (_ && _); [|discriminate].
  intros H. injection H as <-. exists t.
  apply Rleb_true in E0, E1. split; [lra | reflexivity].
Qed.

Lemma sqrt_le_squares (t s l : R) :
  0 <= t -> 0 <= s -> 0 < l ->
  R_sqrt.sqrt (t * t * l) <= R_sqrt.sqrt (s * s * l) -> t <= s.
Proof.
  intros Ht Hs Hl H.
  destruct (Rle_lt_dec t s) as [|Hlt]; [assumption | exfalso].
  assert (s * s < t * t) by nra.
  assert (s * s * l < t * t * l) by (apply Rmult_lt_compat_r; lra).
  assert (0 <= s * s * l) by (apply Rmult_le_pos; nra).
  pose proof (sqrt_lt_1_alt (s * s * l) (t * t * l) ltac:(lra)). lra.
Qed.

Lemma point_distance_on_ray (x1 y1 x2 y2 dx dy t : R) :
  dist (rline x1 y1 x2 y2) (rpoint (x1 + t * dx) (y1 + t * dy))
  = Some (R_sqrt.sqrt (t * t * (dx * dx + dy * dy))).
Proof.
  unfold dist, rline. cbn [point1]. rewrite ideal_pointDistance.
  do 2 f_equal. ring.
Qed.

(** A point between a start inside the square and a point of the square
    is in the square. *)
Lemma between_start_and_exit (a d t s c : R) :
  - c < a < c -> - c <= a + s * d <= c -> 0 <= t <= s ->
  - c <= a + t * d <= c.
Proof.
  intros Ha Hs Ht. destruct (Rle_lt_dec 0 d) as [Hd|Hd].
  - assert (0 <= t * d) by (apply Rmult_le_pos; lra).
    assert (t * d <= s * d) by (apply Rmult_le_compat_r; lra).
    lra.
  - assert (0 <= t * - d) by (apply Rmult_le_pos; lra).
    assert (t * - d <= s * - d) by (apply Rmult_le_compat_r; lra).
    lra.
Qed.

(** From a start strictly inside the border square the search returns a
    point of the square. *)
Lemma returned_point_in_square (ws : list (Line ideal)) (x1 y1 x2 y2 : R) :
  - w < x1 < w -> - w < y1 < w ->
  exists a b,
    findNearestIntersectionPointAmong ws (rline x1 y1 x2 y2)
    = Some (rpoint a b) /\
    - w <= a <= w /\ - w <= b <= w.
Proof.
  intros Hx Hy.
  destruct (expandLine_end_far x1 y1 x2 y2) as (ex & ey & He & Hf).
  assert (Ho : w < Rabs ex \/ w < Rabs ey)
    by (unfold w, far in *; destruct Hf as [-> | ->]; [left|right]; lra).
  destruct (@some_border_hit x1 y1 ex ey Hx Hy Ho)
    as (o & a & b & Hin & Hh & Ha & Hb).
  assert (Hq : hit (rline x1 y1 x2 y2) o = Some (rpoint a b))
    by (unfold hit; now rewrite He).
  destruct (search_final_state ws (rline x1 y1 x2 y2))
    as [[_ Hn]|(i & o' & p & Hp & _ & Hq' & Hm)].
  { specialize (Hn o (rpoint a b) (in_or_app _ _ _ (or_intror Hin)) Hq).
    rewrite (@border_point_in_reach x1 y1 a b x2 y2) in Hn
      by (unfold w in *; lra).
    discriminate. }
  destruct (In_nth_error _ _ (in_or_app ws _ _ (or_intror Hin))) as [j Hj].
  destruct (Hm j o (rpoint a b) Hj Hq) as [Hnear _].
  unfold hit in Hq, Hq'. rewrite He in Hq, Hq'.
  destruct (@hit_parameter _ _ _ _ _ _ Hq) as (s & Hs & Eb).
  destruct (@hit_parameter _ _ _ _ _ _ Hq') as (t & Ht & Ep).
  injection Eb as -> ->. subst p.
  rewrite !point_distance_on_ray in Hnear. cbn in Hnear.
  apply Rltb_false in Hnear.
  set (dx := ex - x1) in *. set (dy := ey - y1) in *.
  assert (Hl : 0 < dx * dx + dy * dy).
  { assert (Hd : dx <> 0 \/ dy <> 0).
    { subst dx dy. unfold Rabs in Ho.
      destruct Ho as [Ho|Ho]; [left|right];
        destruct (Rcase_abs _); unfold w in *; lra. }
    pose proof (Rle_0_sqr dx). pose proof (Rle_0_sqr dy).
    unfold Rsqr in *. destruct Hd; nra. }
  assert (Hts : t <= s)
    by (apply (@sqrt_le_squares t s (dx * dx + dy * dy)); lra).
  rewrite Hp. do 2 eexists. split; [reflexivity|].
  split; eapply between_start_and_exit; eauto; lra.
Qed.

(** In exact arithmetic, from every start strictly inside the
    border square, whatever the second point of the probe and whatever
    the walls, [findNearestIntersectionPoint] returns a point, this point
    lies in the closed border square [-1.1, 1.1] x [-1.1, 1.1], and it
    is the first among the nearest hits of the extended probe. *)
Theorem ray_ends_within_border (ws : list (Line ideal)) (x1 y1 x2 y2 : R) :
  - w < x1 < w -> - w < y1 < w ->
  (exists a b,
     findNearestIntersectionPointAmong ws (rline x1 y1 x2 y2)
     = Some (rpoint a b) /\
     - w <= a <= w /\ - w <= b <= w) /\
  returns_first_nearest ws (rline x1 y1 x2 y2).
Proof.
  intros Hx Hy. split; [now apply returned_point_in_square|].
  destruct (@returned_point_in_square ws x1 y1 x2 y2 Hx Hy)
    as (a & b & Hp & _).
  destruct (search_final_state ws (rline x1 y1 x2 y2)) as [[Hn _]|H];
    [congruence | exact H].
Qed.

Lemma ray_ends_within_border_witness :
  (- w < 0 < w) /\
  exists a b,
    findNearestIntersectionPointAmong [] (rline 0 0 1 1) = Some (rpoint a b) /\
    - w <= a <= w /\ - w <= b <= w.
Proof.
  assert (H : - w < 0 < w) by (unfold w; lra).
  split; [exact H|]. exact (proj1 (@ray_ends_within_border [] 0 0 1 1 H H)).
Defined.

(** *** The frame in exact arithmetic *)

Lemma ideal_normalized (xpos ypos : R) :
  exists a b,
    normalizeMonitorCoordinates (Some xpos : ideal) (Some ypos)
    = rpoint a b /\
    -1 <= a <= 1 /\ -1 <= b <= 1.
Proof.
  unfold normalizeMonitorCoordinates, MONITOR_SIZE_X, MONITOR_SIZE_Y.
  cbn -[ideal_div Rltb]. unfold Q2R; cbn -[ideal_div Rltb Rinv Rmult IZR].
  rewrite !ideal_div_some by lra. cbn -[Rltb Rinv Rmult IZR Rdiv].
  set (nx := (xpos - _) / _). set (ny := (ypos - _) / _).
  replace (10 * / 10) with 1 by lra.
  destruct (Rltb 1 nx) eqn:X1; [|destruct (Rltb nx (- (1))) eqn:X2];
    (destruct (Rltb 1 ny) eqn:Y1; [|destruct (Rltb ny (- (1))) eqn:Y2]);
    cbn -[Rltb Rinv Rmult IZR Rdiv];
    do 2 eexists; (split; [reflexivity|]);
    rewrite ?Rltb_true, ?Rltb_false in *; lra.
Qed.

Lemma ideal_probe_at (a b : R) (N i : Z) :
  (N <> 0)%Z ->
  let angle := IZR i * (2 * PIr / IZR N) in
  probe (rpoint a b) (angle_increment (of_int N)) i
  = rline a b (a + radius * Rtrigo_def.cos angle)
          (b + radius * compensation * Rtrigo_def.sin angle).
Proof.
  intros HN angle.
  assert (HN' : IZR N <> 0) by (apply not_0_IZR; exact HN).
  unfold probe, angle_increment, PI, CIRCLE_RADIUS,
    monitor_widescreen_compensation, MONITOR_SIZE_X, MONITOR_SIZE_Y.
  cbn -[ideal_div]. rewrite !ideal_div_some by lra. cbn.
  apply rline_eq; try reflexivity;
    unfold angle, radius, compensation, PIr, Q2R; simpl;
    repeat f_equal; field; exact HN'.
Qed.

(** In exact arithmetic, at every density [N > 0] and for every
    index [i], the probe built by [drawRays] ends on the ellipse around
    the origin with the half-axes [0.05] (horizontal) and
    [0.05 * 1920 / 1080] (vertical), the circle of the source's comment
    on a 16:9 screen; in particular the probe is never of length zero. *)
Theorem probes_on_the_reference_ellipse (a b : R) (N i : Z) :
  (0 < N)%Z ->
  exists c d,
    probe (rpoint a b) (angle_increment (of_int N)) i = rline a b c d /\
    ((c - a) / radius) ^ 2 + ((d - b) / (radius * compensation)) ^ 2 = 1 /\
    (c <> a \/ d <> b).
Proof.
  intros HN. rewrite ideal_probe_at by lia. cbv zeta.
  set (angle := IZR i * (2 * PIr / IZR N)).
  do 2 eexists. split; [reflexivity|].
  pose proof (sin2_cos2 angle) as H. unfold Rsqr in H.
  assert (E : ((a + radius * Rtrigo_def.cos angle - a) / radius) ^ 2 +
              ((b + radius * compensation * Rtrigo_def.sin angle - b)
               / (radius * compensation)) ^ 2 = 1).
  { unfold radius, compensation. field_simplify. lra. }
  split; [exact E|].
  destruct (Req_dec (Rtrigo_def.cos angle) 0) as [C|C].
  - right. rewrite C in H. unfold radius, compensation. nra.
  - left. unfold radius. nra.
Qed.

Lemma probes_on_the_reference_ellipse_witness :
  (0 < 180)%Z /\
  exists c d,
    probe (rpoint 0 0) (angle_increment (of_int 180)) 7 = rline 0 0 c d /\
    ((c - 0) / radius) ^ 2 + ((d - 0) / (radius * compensation)) ^ 2 = 1 /\
    (c <> 0 \/ d <> 0).
Proof.
  assert (H : (0 < 180)%Z) by lia.
  split; [exact H|].
  exact (@probes_on_the_reference_ellipse 0 0 180 7 H).
Defined.

(** In exact arithmetic [drawRays] is safe for every cursor
    position and every wall list: at an integer density [N > 0] the
    frame has [N] rays, every one of them has an end point (the local
    [endPoint] is never drawn unassigned), and every end point lies in
    the closed border square. *)
Theorem every_ray_ends_within_border (ws : list (Line ideal)) (N : Z)
    (xpos ypos : R) :
  (0 < N <= INT_MAX)%Z ->
  exists frame,
    drawRaysAmong ws (of_int N) (Some xpos) (Some ypos) = Some frame /\
    length frame = Z.to_nat N /\
    Forall (fun ray => exists a b, snd ray = Some (rpoint a b) /\
                                   - w <= a <= w /\ - w <= b <= w) frame.
Proof.
  intros HN. unfold drawRaysAmong, probes.
  rewrite (to_int_of_int (D := ideal)) by lia.
  destruct (ideal_normalized xpos ypos) as (a & b & -> & Ha & Hb).
  eexists. split; [reflexivity|].
  split; [now rewrite !length_map, counter_values_length|].
  rewrite !Forall_map. apply Forall_forall. intros i _. cbn [snd].
  rewrite ideal_probe_at by lia. cbv zeta.
  apply returned_point_in_square; unfold w; lra.
Qed.

Lemma every_ray_ends_within_border_witness :
  (0 < 180 <= INT_MAX)%Z /\
  exists frame,
    drawRaysAmong walls (of_int 180) (Some 1514) (Some 1008) = Some frame /\
    length frame = 180%nat /\
    Forall (fun ray => exists a b, snd ray = Some (rpoint a b) /\
                                   - w <= a <= w /\ - w <= b <= w) frame.
Proof.
  assert (H : (0 < 180 <= INT_MAX)%Z) by (unfold INT_MAX; lia).
  split; [exact H|].
  exact (@every_ray_ends_within_border walls 180 1514 1008 H).
Defined.
End ExactMore.

(** ** The density that [drawRays] casts *)

Lemma digits2_pos_above (p : positive) :
  (Zpos p < 2 ^ Zpos (digits2_pos p))%Z.
Proof.
  induction p as [p IH|p IH|]; simpl digits2_pos;
    rewrite ?Pos2Z.inj_succ, ?Z.pow_succ_r by lia; lia.
Qed.

Lemma valid_significand (s : bool) (m : positive) (e : Z) :
  SpecFloat.valid_binary prec emax (S754_finite s m e) = true ->
  (Zpos m < 2 ^ 53)%Z.
Proof.
  intros H. destruct (valid_finite _ _ _ H) as [Hf _].
  pose proof (digits2_pos_above m) as Hd.
  assert (Zpos (digits2_pos m) <= 53)%Z
    by (revert Hf; unfold fexp, SpecFloat.emin, prec, emax; lia).
  eapply Z.lt_le_trans; [exact Hd|]. apply Z.pow_le_mono_r; lia.
Qed.

Lemma SFleb_finite_positive (m c : positive) (e ec : Z) :
  SFleb (S754_finite false m e) (S754_finite false c ec) = true ->
  (e < ec)%Z \/ (e = ec /\ (m <= c)%positive).
Proof.
  unfold SFleb, SFcompare.
  destruct (Z.compare_spec e ec) as [E|E|E]; [|now left|discriminate].
  intros H. right. split; [exact E|].
  destruct (Pos.compare_cont Eq m c) eqn:F; try discriminate.
  - apply Pos.compare_eq in F. subst. apply Pos.le_refl.
  - apply Pos.lt_le_incl. exact F.
Qed.

(** The integer part of a [double] between 0 and 1080. *)
Lemma SF_truncate_clamped (a : spec_float) :
  SpecFloat.valid_binary prec emax a = true ->
  SFleb (S754_zero false) a = true ->
  SFleb a (S754_finite false 4749890231992320 (-42)) = true ->
  match a with
  | S754_zero _ => True
  | S754_finite s m e => s = false /\ (0 <= Z.shiftl (Zpos m) e <= 1080)%Z
  | _ => False
  end.
Proof.
  destruct a as [s|[|]| |[|] m e]; try discriminate; try easy.
  intros Hv _ H. split; [reflexivity|].
  pose proof (valid_significand _ _ _ Hv) as Hm.
  apply SFleb_finite_positive in H.
  assert (Hneg : (e <= -42)%Z) by (clear - H; destruct H as [H|[H _]]; lia).
  assert (Hs : Z.shiftl (Zpos m) e = (Zpos m / 2 ^ (- e))%Z).
  { rewrite <- Z.shiftr_opp_r. apply Z.shiftr_div_pow2. clear - Hneg. lia. }
  assert (Hpos : (0 < 2 ^ (- e))%Z)
    by (apply Z.pow_pos_nonneg; clear - Hneg; lia).
  rewrite Hs. split; [apply Z.div_pos; [apply Pos2Z.is_nonneg | exact Hpos]|].
  destruct H as [He|[-> He]].
  - apply Z.lt_le_incl, Z.lt_le_trans with 1024%Z; [|clear; lia].
    apply Z.div_lt_upper_bound; [exact Hpos|].
    assert (Hp : (2 ^ 43 <= 2 ^ (- e))%Z)
      by (apply Z.pow_le_mono_r; clear - He; lia).
    eapply Z.lt_le_trans; [exact Hm|].
    change (2 ^ 53)%Z with (2 ^ 43 * 1024)%Z.
    apply Z.mul_le_mono_nonneg_r; [clear; lia | exact Hp].
  - apply Pos2Z.pos_le_pos in He.
    change (2 ^ (- -42))%Z with 4398046511104%Z.
    apply Z.div_le_upper_bound; [reflexivity|].
    eapply Z.le_trans; [exact He|]. discriminate.
Qed.

(** A density within the bounds of the clamp is cast to an [int] without
    leaving the range of the type. *)
Lemma to_int_within_bounds (d : float) :
  within_bounds d = true ->
  exists n : Z, to_int d = Some n /\ (0 <= n <= 1080)%Z.
Proof.
  unfold within_bounds. cbn [leb lit to_int binary64].
  rewrite !FloatAxioms.leb_spec, Prim2SF_lit_0, Prim2SF_lit_1080,
    andb_true_iff.
  intros [H1 H2].
  pose proof (SF_truncate_clamped _ (FloatAxioms.Prim2SF_valid d) H1 H2) as H.
  unfold float_to_Z. destruct (Prim2SF d) as [s|s| |s m e]; try easy.
  - exists 0%Z. split; [reflexivity | lia].
  - destruct H as [-> H]. exists (Z.shiftl (Zpos m) e). split; [|exact H].
    unfold int_range, INT_MIN, INT_MAX.
    destruct (Z.leb_spec (-2147483648) (Z.shiftl (Zpos m) e)); [|lia].
    destruct (Z.leb_spec (Z.shiftl (Zpos m) e) 2147483647); [reflexivity|lia].
Qed.

Lemma densities_within (events : list float) (d : float) :
  Forall (fun yoffset => PrimFloat.is_nan yoffset = false) events ->
  within_bounds d = true ->
  Forall (fun d' => within_bounds d' = true) (densities d events).
Proof.
  intros Hev. revert d.
  induction Hev as [|y ys Hy _ IH]; intros d Hd; simpl; constructor.
  - now apply scroll_callback_within.
  - apply IH. now apply scroll_callback_within.
Qed.

(** X13: in binary64 the cast [(int) RAY_DENSITY] of [drawRays] is
    always defined on the densities the program can reach: for the
    initial density and the density after each of any sequence of scroll
    events whose offsets are numbers, the cast gives an integer between 0
    and 1080, and the fan of probes has that many segments (at most
    1080), whatever the origin and the values of [cos] and [sin]. *)
Theorem reachable_density_casts (LM : Libm float) (events : list float)
    (origin : Point float) :
  Forall (fun yoffset => PrimFloat.is_nan yoffset = false) events ->
  Forall (fun d => exists (n : Z) (ps : list (Line float)),
                     to_int d = Some n /\ (0 <= n <= 1080)%Z /\
                     probes d origin = Some ps /\ length ps = Z.to_nat n)
         (RAY_DENSITY_init :: densities RAY_DENSITY_init events).
Proof.
  intros Hev.
  assert (H : Forall (fun d : float => within_bounds d = true)
                (RAY_DENSITY_init :: densities RAY_DENSITY_init events)).
  { constructor; [reflexivity|]. now apply densities_within. }
  eapply Forall_impl; [|exact H]. intros d Hd. cbv beta in Hd.
  destruct (to_int_within_bounds d Hd) as (n & Hn & Hr).
  exists n. unfold probes. rewrite Hn. eexists.
  repeat split; try lia.
  now rewrite length_map, counter_values_length.
Qed.

Lemma reachable_density_casts_witness :
  let events := [lit 1; lit (-500); lit 2000; lit 0.5; PrimFloat.infinity] in
  Forall (fun yoffset => PrimFloat.is_nan yoffset = false) events /\
  Forall (fun d => exists (n : Z) (ps : list (Line float)),
                     to_int d = Some n /\ (0 <= n <= 1080)%Z /\
                     probes (LM := libm_sampled) d (fpoint 0 0) = Some ps /\
                     length ps = Z.to_nat n)
         (RAY_DENSITY_init :: densities RAY_DENSITY_init events).
Proof.
  assert (H : Forall (fun yoffset => PrimFloat.is_nan yoffset = false)
                     [lit 1; lit (-500); lit 2000; lit 0.5; PrimFloat.infinity])
    by (repeat constructor).
  split; [exact H|].
  exact (@reachable_density_casts libm_sampled _ (fpoint 0 0) H).
Defined.

(** X14: in binary64 a sequence of scroll events with integer offsets of
    up to ten units, applied to an integer density between 0 and 1080,
    keeps the density an integer: after every event it is exactly the
    running sum of the offsets, clamped to [0, 1080] after each step, and
    the cast of [drawRays] gives that integer back. *)
Theorem integer_ticks_add_up (n : Z) (ticks : list Z) :
  (0 <= n <= 1080)%Z ->
  Forall (fun k => (-10 <= k <= 10)%Z) ticks ->
  densities (of_int n : float) (map of_int ticks)
  = map of_int (tick_sums n ticks) /\
  Forall (fun m => (0 <= m <= 1080)%Z /\ to_int (of_int m : float) = Some m)
         (tick_sums n ticks).
Proof.
  intros Hn Ht. revert n Hn.
  induction Ht as [|k ks Hk _ IH]; intros n Hn;
    cbn [densities map tick_sums].
  - split; constructor.
  - rewrite (scroll_ticks_exact Hn Hk).
    assert (Hn' : (0 <= Z.max 0 (Z.min 1080 (n + k)) <= 1080)%Z) by lia.
    destruct (IH _ Hn') as [E F]. split.
    + now rewrite E.
    + constructor; [|exact F]. split; [exact Hn'|].
      apply to_int_of_int. unfold INT_MAX. lia.
Qed.

Lemma integer_ticks_add_up_witness :
  (0 <= 180 <= 1080)%Z /\
  Forall (fun k => (-10 <= k <= 10)%Z) [3; -3; 10; -7]%Z /\
  densities (of_int 180 : float) (map of_int [3; -3; 10; -7]%Z)
  = map of_int [183; 180; 190; 183]%Z.
Proof.
  assert (H1 : (0 <= 180 <= 1080)%Z) by lia.
  assert (H2 : Forall (fun k => (-10 <= k <= 10)%Z) [3; -3; 10; -7]%Z)
    by (repeat constructor; lia).
  split; [exact H1|]. split; [exact H2|].
  exact (proj1 (@integer_ticks_add_up _ _ H1 H2)).
Defined.

(** ** The rendering loop *)

Lemma number_of_app (A : Type) (p : A -> bool) (l1 l2 : list A) :
  number_of p (l1 ++ l2) = number_of p l1 + number_of p l2.
Proof. unfold number_of. now rewrite filter_app, length_app. Qed.

Lemma number_of_cons (A : Type) (p : A -> bool) (a : A) (l : list A) :
  number_of p (a :: l) = (if p a then 1 else 0) + number_of p l.
Proof. unfold number_of. simpl. now destruct (p a). Qed.

Lemma follow_app (D : Type) (s : Discipline) (l1 l2 : list (Call D)) :
  follow s (l1 ++ l2)
  = match follow s l1 with Some s' => follow s' l2 | None => None end.
Proof.
  revert s. induction l1 as [|c l1 IH]; intros s; simpl; [reflexivity|].
  destruct (allowed s c); [apply IH | reflexivity].
Qed.

Section Loop.
Context {D : Type} {DD : Double D} {LM : Libm D}.

Lemma follow_vertices (rays : list (Point D * option (Point D))) n :
  follow (mkDiscipline true true (Some n)) (vertices rays)
  = Some (mkDiscipline true true (Some (2 * length rays + n))).
Proof.
  revert n. induction rays as [|r rays IH]; intros n; [reflexivity|].
  cbn [vertices flat_map app follow allowed current block initialised].
  fold (vertices rays). rewrite IH. do 3 f_equal. simpl. lia.
Qed.

Lemma number_of_vertices (rays : list (Point D * option (Point D))) :
  number_of is_vertex2d (vertices rays) = 2 * length rays /\
  number_of is_vertex2f (vertices rays) = 0 /\
  number_of is_swap (vertices rays) = 0 /\
  number_of is_terminate (vertices rays) = 0.
Proof.
  induction rays as [|r rays (I1 & I2 & I3 & I4)]; [now repeat split|].
  cbn [vertices flat_map app]. fold (vertices rays).
  rewrite !number_of_cons, I1, I2, I3, I4. simpl. repeat split; lia.
Qed.

Lemma follow_walls :
  follow drawing (flat_map drawWall (walls (D := D))) = Some drawing.
Proof. reflexivity. Qed.

Lemma number_of_walls :
  number_of is_vertex2d (flat_map drawWall (walls (D := D))) = 0 /\
  number_of is_vertex2f (flat_map drawWall (walls (D := D))) = 18 /\
  number_of is_swap (flat_map drawWall (walls (D := D))) = 0 /\
  number_of is_terminate (flat_map drawWall (walls (D := D))) = 0.
Proof. repeat split. Qed.

Lemma iteration_calls_inv d it calls :
  iteration_calls d it = Some calls ->
  exists rays,
    drawRays d (cursor_x it) (cursor_y it) = Some rays /\
    calls = [glClear_COLOR_BUFFER_BIT; glfwGetCursorPos; glLineWidth 1.0;
             glBegin_LINES]
            ++ vertices rays
            ++ [glEnd] ++ flat_map drawWall walls
            ++ [glfwSwapBuffers; glfwPollEvents].
Proof.
  unfold iteration_calls, drawRays_calls.
  destruct (drawRays d (cursor_x it) (cursor_y it)) as [rays|];
    [|discriminate].
  intros H. injection H as <-. exists rays. split; [reflexivity|].
  cbn [app]. now rewrite <- !app_assoc.
Qed.

Lemma follow_iteration d it calls :
  iteration_calls d it = Some calls -> follow drawing calls = Some drawing.
Proof.
  intros H. destruct (iteration_calls_inv _ _ H) as (rays & _ & ->).
  cbn [app follow allowed drawing current block initialised].
  rewrite follow_app, follow_vertices.
  cbn [app follow allowed current block initialised].
  replace (Nat.even (2 * length rays + 0)) with true.
  - rewrite follow_app. fold drawing. rewrite follow_walls. reflexivity.
  - symmetry. apply Nat.even_spec. exists (length rays). lia.
Qed.

Lemma follow_loop its : forall d calls d',
  render_loop d its = Some (calls, d') ->
  follow drawing calls = Some drawing.
Proof.
  induction its as [|it its IH]; intros d calls d' H; simpl in H.
  - injection H as <- _. reflexivity.
  - destruct (iteration_calls d it) as [cs|] eqn:E; [|discriminate].
    destruct (render_loop (poll d it) its) as [[cs' d'']|] eqn:E';
      [|discriminate].
    injection H as <- _.
    cbn [follow allowed drawing current block initialised].
    fold drawing. rewrite follow_app, (follow_iteration _ _ E).
    exact (IH _ _ _ E').
Qed.

Lemma number_of_iteration d it calls :
  iteration_calls d it = Some calls ->
  exists rays,
    drawRays d (cursor_x it) (cursor_y it) = Some rays /\
    number_of is_vertex2d calls = 2 * length rays /\
    number_of is_vertex2f calls = 18 /\
    number_of is_swap calls = 1 /\
    number_of is_terminate calls = 0.
Proof.
  intros H. destruct (iteration_calls_inv _ _ H) as (rays & Hr & ->).
  exists rays. split; [exact Hr|].
  destruct (number_of_vertices rays) as (V1 & V2 & V3 & V4).
  destruct number_of_walls as (W1 & W2 & W3 & W4).
  rewrite !number_of_app, V1, V2, V3, V4, W1, W2, W3, W4.
  repeat split; unfold number_of; simpl; lia.
Qed.

Lemma number_of_loop its : forall d calls d',
  render_loop d its = Some (calls, d') ->
  number_of is_vertex2f calls = 18 * length its /\
  number_of is_swap calls = length its /\
  number_of is_terminate calls = 0.
Proof.
  induction its as [|it its IH]; intros d calls d' H; simpl in H.
  - injection H as <- _. now repeat split.
  - destruct (iteration_calls d it) as [cs|] eqn:E; [|discriminate].
    destruct (render_loop (poll d it) its) as [[cs' d'']|] eqn:E';
      [|discriminate].
    injection H as <- _.
    destruct (number_of_iteration _ _ E) as (rays & _ & _ & N2 & N3 & N4).
    destruct (IH _ _ _ E') as (I2 & I3 & I4).
    rewrite !number_of_cons, !number_of_app, N2, N3, N4, I2, I3, I4.
    cbn [is_vertex2f is_swap is_terminate length]. repeat split; lia.
Qed.

(** The three ways [main] runs. *)
Lemma main_inv (r : Run D) calls out :
  main r = Some (calls, out) ->
  (init_succeeds r = false /\ calls = [glfwInit] /\ out = Returned (-1)) \/
  (init_succeeds r = true /\ window_created r = false /\
   calls = [glfwInit; glfwWindowHint_RESIZABLE_FALSE;
            glfwCreateWindow 1920 1080 window_title; glfwTerminate] /\
   out = Exited (-1)) \/
  (init_succeeds r = true /\ window_created r = true /\
   out = Returned 0 /\
   exists loop d,
     render_loop RAY_DENSITY_init (iterations r) = Some (loop, d) /\
     calls = [glfwInit; glfwWindowHint_RESIZABLE_FALSE;
              glfwCreateWindow 1920 1080 window_title;
              glfwMakeContextCurrent; glfwSetScrollCallback]
             ++ loop ++ [glfwTerminate]).
Proof.
  unfold main, initializeWindow.
  destruct (init_succeeds r); cbn [negb].
  - destruct (window_created r); cbn [negb app].
    + destruct (render_loop _ _) as [[loop d]|]; [|discriminate].
      intros H. injection H as <- <-. right. right.
      repeat split. now exists loop, d.
    + intros H. injection H as <- <-. right. left. now repeat split.
  - intros H. injection H as <- <-. left. now repeat split.
Qed.
End Loop.

(** X15: what a run of [main] amounts to.  The status is [return -1] if
    [glfwInit] fails, [exit(-1)] if the window cannot be created, and
    [return 0] otherwise.  [glfwInit] is the first call; [glfwTerminate]
    is called exactly once, as the last call, whenever [glfwInit]
    succeeded, and not at all otherwise.  Without a window no OpenGL
    call is made.  With a window, the run swaps the buffers once and
    specifies the eighteen end points of the nine walls once for every
    iteration of the loop, whatever the cursor and the scroll events
    do. *)
Theorem main_outcome {D : Type} {DD : Double D} {LM : Libm D}
    (r : Run D) (calls : list (Call D)) (out : Outcome) :
  main r = Some (calls, out) ->
  out = (if init_succeeds r
         then if window_created r then Returned 0 else Exited (-1)
         else Returned (-1)) /\
  hd_error calls = Some glfwInit /\
  number_of is_terminate calls = (if init_succeeds r then 1 else 0) /\
  (init_succeeds r = true -> last calls glfwInit = glfwTerminate) /\
  (init_succeeds r && window_created r = false ->
   number_of is_gl calls = 0) /\
  (init_succeeds r && window_created r = true ->
   number_of is_swap calls = length (iterations r) /\
   number_of is_vertex2f calls = 18 * length (iterations r)).
Proof.
  intros H. destruct (main_inv _ H)
    as [(-> & -> & ->)
       |[(-> & -> & -> & ->)|(-> & -> & -> & loop & d & Hl & ->)]].
  - repeat split; try reflexivity; discriminate.
  - repeat split; try reflexivity; discriminate.
  - destruct (number_of_loop _ _ Hl) as (L2 & L3 & L4).
    rewrite !number_of_app, L2, L3, L4.
    split; [reflexivity|]. split; [reflexivity|].
    split; [unfold number_of; simpl; lia|].
    split; [intros _; rewrite app_assoc; apply last_last|].
    split; [discriminate|]. intros _.
    split; unfold number_of; simpl; lia.
Qed.

Lemma main_outcome_witness :
  exists calls,
    main (LM := libm_sampled) run_two_frames = Some (calls, Returned 0) /\
    number_of is_terminate calls = 1 /\
    number_of is_swap calls = 2 /\ number_of is_vertex2f calls = 36.
Proof.
  eexists. split; [vm_compute; reflexivity|].
  assert (H : main (LM := libm_sampled) run_two_frames = Some (_, Returned 0))
    by (vm_compute; reflexivity).
  destruct (@main_outcome _ _ libm_sampled run_two_frames _ _ H)
    as (_ & _ & T & _ & _ & S).
  split; [exact T|]. exact (S eq_refl).
Defined.

(** X16: every run of [main] keeps the discipline of the libraries.
    GLFW is called between [glfwInit] and [glfwTerminate] only; OpenGL
    is called only while the context made current by
    [initializeWindow] is current; every [glBegin] is closed by a
    [glEnd] before anything but vertices is specified, blocks are not
    nested, each block of [GL_LINES] holds an even number of vertices,
    and at the end of the run no block is open and no context is
    current. *)
Theorem main_keeps_the_call_discipline {D : Type} {DD : Double D}
    {LM : Libm D} (r : Run D) (calls : list (Call D)) (out : Outcome) :
  main r = Some (calls, out) -> disciplined calls.
Proof.
  intros H. destruct (main_inv _ H)
    as [(_ & -> & _)|[(_ & _ & -> & _)|(_ & _ & _ & loop & d & Hl & ->)]].
  - now eexists.
  - now eexists.
  - unfold disciplined.
    cbn [app follow allowed current block initialised].
    fold drawing. rewrite follow_app, (follow_loop _ _ Hl). now eexists.
Qed.

Lemma main_keeps_the_call_discipline_witness :
  exists calls,
    main (LM := libm_sampled) run_two_frames = Some (calls, Returned 0) /\
    disciplined calls.
Proof.
  eexists. split; [vm_compute; reflexivity|].
  eapply (@main_keeps_the_call_discipline _ _ libm_sampled run_two_frames).
  vm_compute. reflexivity.
Defined.

Section Binary64Loop.
Context {LM : Libm float}.

Lemma poll_within (d : float) (it : Iteration float) :
  within_bounds d = true ->
  Forall (fun yoffset => PrimFloat.is_nan yoffset = false) (scrolled it) ->
  within_bounds (poll d it) = true.
Proof.
  unfold poll. intros Hd Hs. revert d Hd.
  induction Hs as [|y ys Hy _ IH]; intros d Hd; [exact Hd|].
  simpl. apply IH. now apply scroll_callback_within.
Qed.

Lemma drawRays_within (d xo yo : float) :
  within_bounds d = true ->
  exists rays, drawRays d xo yo = Some rays /\ length rays <= 1080.
Proof.
  intros Hd. destruct (to_int_within_bounds d Hd) as (n & Hn & Hr).
  unfold drawRays, drawRaysAmong, probes. rewrite Hn.
  eexists. split; [reflexivity|].
  rewrite !length_map, counter_values_length. lia.
Qed.

Lemma loop_defined (its : list (Iteration float)) : forall d : float,
  within_bounds d = true ->
  Forall (fun it => Forall (fun yoffset => PrimFloat.is_nan yoffset = false)
                           (scrolled it)) its ->
  exists calls d',
    render_loop d its = Some (calls, d') /\
    within_bounds d' = true /\
    number_of is_vertex2d calls <= 2160 * length its.
Proof.
  induction its as [|it its IH]; intros d Hd Hs.
  - exists [glfwWindowShouldClose], d.
    repeat split; [exact Hd | exact (Nat.le_0_l _)].
  - inversion Hs as [|? ? Hit Hits]; subst.
    destruct (drawRays_within d (cursor_x it) (cursor_y it) Hd)
      as (rays & Hr & Hlen).
    destruct (IH (poll d it) (@poll_within d it Hd Hit) Hits)
      as (calls' & d' & Hl & Hd' & Hn).
    cbn [render_loop].
    destruct (iteration_calls d it) as [cs|] eqn:E.
    + rewrite Hl. do 2 eexists. split; [reflexivity|]. split; [exact Hd'|].
      destruct (number_of_iteration _ _ E) as (rays' & Hr' & N1 & _).
      assert (rays' = rays) by congruence. subst rays'.
      rewrite number_of_cons, number_of_app, N1. cbn [is_vertex2d length].
      lia.
    + exfalso. unfold iteration_calls, drawRays_calls in E.
      rewrite Hr in E. discriminate.
Qed.
End Binary64Loop.

(** X17: in binary64 [main] never runs into the undefined cast, whatever
    the libraries answer: for every run whose scroll offsets are numbers,
    with any cursor positions (numbers or not) and any values of [cos]
    and [sin], the run is defined, and the number of its [glVertex2d]
    calls is at most 2160 (two for each of at most 1080 rays) times the
    number of iterations of the loop. *)
Theorem main_is_defined (LM : Libm float) (r : Run float) :
  Forall (fun it => Forall (fun yoffset => PrimFloat.is_nan yoffset = false)
                           (scrolled it)) (iterations r) ->
  exists calls out,
    main r = Some (calls, out) /\
    number_of is_vertex2d calls <= 2160 * length (iterations r).
Proof.
  intros Hs.
  assert (H0 : within_bounds (RAY_DENSITY_init : float) = true)
    by (vm_compute; reflexivity).
  destruct (@loop_defined LM (iterations r) RAY_DENSITY_init H0 Hs)
    as (loop & d & Hl & _ & Hn).
  unfold main, initializeWindow.
  destruct (init_succeeds r); cbn [negb].
  - destruct (window_created r); cbn [negb].
    + rewrite Hl. do 2 eexists. split; [reflexivity|].
      cbn [app]. rewrite !number_of_cons, number_of_app.
      change (number_of is_vertex2d [@glfwTerminate float]) with 0.
      cbn [is_vertex2d]. lia.
    + do 2 eexists. split; [reflexivity|]. exact (Nat.le_0_l _).
  - do 2 eexists. split; [reflexivity|]. exact (Nat.le_0_l _).
Qed.

Lemma main_is_defined_witness :
  Forall (fun it => Forall (fun yoffset => PrimFloat.is_nan yoffset = false)
                           (scrolled it)) (iterations run_two_frames) /\
  exists calls out,
    main (LM := libm_sampled) run_two_frames = Some (calls, out) /\
    number_of is_vertex2d calls <= 2160 * 2.
Proof.
  assert (H : Forall (fun it => Forall (fun yoffset =>
                                          PrimFloat.is_nan yoffset = false)
                                       (scrolled it))
                     (iterations run_two_frames))
    by (repeat constructor).
  split; [exact H|]. exact (@main_is_defined libm_sampled run_two_frames H).
Defined.

(** * The search in the normalized space, in binary64 *)

(** ** Magnitudes of rounded results

    Every operation of the program on operands of bounded magnitude gives
    a result of bounded magnitude: a rounding adds at most one binary
    digit.  The bounds are on [digits + exponent], the position of the
    leading bit. *)

Lemma SF_below_mono (k k' : Z) (a : spec_float) :
  (k <= k')%Z -> SF_below k a -> SF_below k' a.
Proof. destruct a; simpl; auto. lia. Qed.

Lemma Zdigits2_nonneg (z : Z) : (0 <= Zdigits2 z)%Z.
Proof. destruct z; simpl; lia. Qed.

Lemma Zdigits2_bound (z n : Z) :
  (0 <= n)%Z -> (0 <= z < 2 ^ n)%Z -> (Zdigits2 z <= n)%Z.
Proof.
  intros Hn [H0 H]. destruct z as [|p|p]; simpl; [lia| |lia].
  now apply digits2_pos_bound.
Qed.

Lemma Zdigits2_above (z : Z) : (0 <= z)%Z -> (z < 2 ^ Zdigits2 z)%Z.
Proof.
  intros H. destruct z as [|p|p]; simpl Zdigits2; [simpl; lia| |lia].
  apply digits2_pos_above.
Qed.

Lemma digits2_pos_least (p : positive) :
  (2 ^ (Zpos (digits2_pos p) - 1) <= Zpos p)%Z.
Proof.
  induction p as [p IH|p IH|]; [| |simpl; lia];
    cbn [digits2_pos]; rewrite Pos2Z.inj_succ;
    replace (Z.succ (Zpos (digits2_pos p)) - 1)%Z
      with (Z.succ (Zpos (digits2_pos p) - 1))%Z by lia;
    rewrite Z.pow_succ_r by lia;
    set (q := (2 ^ _)%Z) in *;
    [rewrite Pos2Z.inj_xI | rewrite Pos2Z.inj_xO]; lia.
Qed.

Lemma Zdigits2_shr_1 (r : shr_record) :
  (0 <= shr_m r)%Z ->
  (0 <= shr_m (shr_1 r))%Z /\
  Zdigits2 (shr_m (shr_1 r)) = Z.max 0 (Zdigits2 (shr_m r) - 1).
Proof.
  destruct r as [m r s].
  destruct m as [|[p|p|]|p]; cbn [shr_1 shr_m Zdigits2 digits2_pos];
    rewrite ?Pos2Z.inj_succ; lia.
Qed.

Lemma Zdigits2_shr_iter (k : positive) (r : shr_record) :
  (0 <= shr_m r)%Z ->
  (0 <= shr_m (iter_pos shr_1 k r))%Z /\
  Zdigits2 (shr_m (iter_pos shr_1 k r))
  = Z.max 0 (Zdigits2 (shr_m r) - Zpos k).
Proof.
  intros H. rewrite iter_pos_Pos_iter.
  induction k as [|k [IH0 IH]] using Pos.peano_ind.
  - simpl. now apply Zdigits2_shr_1.
  - rewrite Pos.iter_succ.
    destruct (Zdigits2_shr_1 _ IH0) as [H0 H1].
    split; [exact H0|]. rewrite H1, IH. lia.
Qed.

Lemma shr_m_of_loc (m : Z) (l : location) :
  shr_m (shr_record_of_loc m l) = m.
Proof. destruct l as [|[]]; reflexivity. Qed.

(** One alignment step of the rounding: the significand stays
    non-negative, has at most 53 digits, and the magnitude does not
    grow (a vanishing significand is left at the exponent of the format). *)
Lemma shr_fexp_magnitude (m e : Z) (l : location) :
  (0 <= m)%Z ->
  (0 <= shr_m (fst (shr_fexp prec emax m e l)))%Z /\
  (Zdigits2 (shr_m (fst (shr_fexp prec emax m e l)))
   + snd (shr_fexp prec emax m e l)
   <= Z.max (Zdigits2 m + e) (-1074))%Z /\
  (Zdigits2 (shr_m (fst (shr_fexp prec emax m e l))) <= 53)%Z /\
  (shr_m (fst (shr_fexp prec emax m e l)) <> 0%Z ->
   Zdigits2 (shr_m (fst (shr_fexp prec emax m e l)))
   + snd (shr_fexp prec emax m e l) = Zdigits2 m + e)%Z.
Proof.
  intros Hm. unfold shr_fexp, shr.
  pose proof (Zdigits2_nonneg m) as Hd.
  set (d := Zdigits2 m) in *.
  assert (Hf : fexp prec emax (d + e) = Z.max (d + e - 53) (-1074))
    by reflexivity.
  destruct (fexp prec emax (d + e) - e)%Z as [|k|k] eqn:Ek;
    cbn [fst snd]; rewrite ?shr_m_of_loc; fold d.
  - repeat split; lia.
  - destruct (@Zdigits2_shr_iter k (shr_record_of_loc m l)) as [H0 H1];
      [now rewrite shr_m_of_loc|].
    rewrite shr_m_of_loc in H1. fold d in H1.
    split; [exact H0|]. rewrite H1.
    repeat split; try lia.
    intros Hz.
    destruct (shr_m (iter_pos shr_1 k (shr_record_of_loc m l))) eqn:E;
      [contradiction| |lia].
    simpl Zdigits2 in H1. lia.
  - repeat split; lia.
Qed.

Lemma round_nearest_even_bounds (m : Z) (l : location) :
  (m <= round_nearest_even m l <= m + 1)%Z.
Proof.
  unfold round_nearest_even. destruct l as [|[]]; try lia.
  destruct (Z.even m); lia.
Qed.

Lemma Zdigits2_succ (m n : Z) :
  (0 <= m)%Z -> (m <= n <= m + 1)%Z -> (Zdigits2 n <= Zdigits2 m + 1)%Z.
Proof.
  intros Hm Hn. pose proof (Zdigits2_above Hm) as H.
  pose proof (Zdigits2_nonneg m) as Hd.
  apply Zdigits2_bound; [lia|].
  rewrite Z.pow_add_r by lia. simpl (2 ^ 1)%Z. lia.
Qed.

(** The rounding of [m * 2^e], of magnitude below [2^k], is below
    [2^(k+1)]: a finite number or a zero. *)
Lemma binary_round_aux_below (s : bool) (m e k : Z) (l : location) :
  (0 <= m)%Z -> (Zdigits2 m + e <= k)%Z -> (-1074 <= k <= 971)%Z ->
  SF_below (k + 1) (binary_round_aux prec emax s m e l).
Proof.
  intros Hm Hk Hr. unfold binary_round_aux.
  destruct (@shr_fexp_magnitude m e l Hm) as (H0 & H1 & H2 & _).
  destruct (shr_fexp prec emax m e l) as [r1 e1]. cbn [fst snd] in *.
  pose proof (round_nearest_even_bounds (shr_m r1) (loc_of_shr_record r1))
    as Hr1.
  pose proof (Zdigits2_succ H0 Hr1) as Hd.
  set (m2 := round_nearest_even (shr_m r1) (loc_of_shr_record r1)) in *.
  destruct (@shr_fexp_magnitude m2 e1 loc_Exact ltac:(lia))
    as (G0 & G1 & G2 & G3).
  destruct (shr_fexp prec emax m2 e1 loc_Exact) as [r2 e2].
  cbn [fst snd] in *.
  destruct (shr_m r2) as [|p|p] eqn:E; [exact I| |lia].
  assert (Hp : (Zpos (digits2_pos p) + e2 <= k + 1)%Z).
  { simpl Zdigits2 in G3. rewrite G3 by discriminate. lia. }
  assert (He : (e2 <=? emax - prec)%Z = true).
  { apply Z.leb_le. change (emax - prec)%Z with 971%Z. lia. }
  rewrite He. exact Hp.
Qed.

Lemma shl_align_magnitude (m : positive) (e e' : Z) :
  (Zpos (digits2_pos (fst (shl_align m e e'))) + snd (shl_align m e e')
   = Zpos (digits2_pos m) + e)%Z.
Proof.
  unfold shl_align. destruct (e' - e)%Z as [|d|d] eqn:E; cbn [fst snd];
    try reflexivity.
  rewrite iter_xO_digits. lia.
Qed.

Lemma shl_align_value (m : positive) (e e' : Z) :
  (e' <= e)%Z ->
  (Zpos (fst (shl_align m e e')) < 2 ^ (Zpos (digits2_pos m) + e - e'))%Z.
Proof.
  intros H. unfold shl_align. pose proof (digits2_pos_above m) as Hm.
  destruct (e' - e)%Z as [|d|d] eqn:E; cbn [fst]; try lia.
  - replace (Zpos (digits2_pos m) + e - e')%Z with (Zpos (digits2_pos m))
      by lia. exact Hm.
  - rewrite iter_xO_value.
    replace (Zpos (digits2_pos m) + e - e')%Z
      with (Zpos (digits2_pos m) + Zpos d)%Z by lia.
    rewrite Z.pow_add_r by lia.
    apply Z.mul_lt_mono_pos_r; [apply Z.pow_pos_nonneg; lia | exact Hm].
Qed.

Lemma binary_round_below (s : bool) (m : positive) (e k : Z) :
  (Zpos (digits2_pos m) + e <= k)%Z -> (-1074 <= k <= 971)%Z ->
  SF_below (k + 1) (binary_round prec emax s m e).
Proof.
  intros Hk Hr. unfold binary_round.
  pose proof (shl_align_magnitude m e
                (fexp prec emax (Zpos (digits2_pos m) + e))) as H.
  destruct (shl_align m e _) as [mz ez]. cbn [fst snd] in H.
  apply binary_round_aux_below; [lia| |exact Hr].
  simpl Zdigits2. lia.
Qed.

Lemma binary_normalize_below (z e k : Z) :
  (Zdigits2 z + e <= k)%Z -> (-1074 <= k <= 971)%Z ->
  SF_below (k + 1) (binary_normalize prec emax z e false).
Proof.
  intros Hk Hr. destruct z as [|p|p]; cbn [binary_normalize].
  - exact I.
  - now apply binary_round_below.
  - now apply binary_round_below.
Qed.

Lemma Zdigits2_abs_bound (z n : Z) :
  (0 <= n)%Z -> (- 2 ^ n < z < 2 ^ n)%Z -> (Zdigits2 z <= n)%Z.
Proof.
  intros Hn H. destruct z as [|p|p]; simpl Zdigits2; [lia| |].
  - apply digits2_pos_bound; [exact Hn|lia].
  - apply digits2_pos_bound; [exact Hn|]. 
    change (Zneg p) with (- Zpos p)%Z in H. lia.
Qed.

(** Sum and difference of two aligned significands. *)
Lemma aligned_sum_below (sx sy : bool) (mx my : positive) (ex ey k : Z)
    (op : Z -> Z -> Z) :
  (forall a b, op a b = a + b \/ op a b = a - b)%Z ->
  (Zpos (digits2_pos mx) + ex <= k)%Z ->
  (Zpos (digits2_pos my) + ey <= k)%Z ->
  (-1075 <= k <= 970)%Z ->
  SF_below (k + 2)
    (binary_normalize prec emax
       (op (cond_Zopp sx (Zpos (fst (shl_align mx ex (Z.min ex ey)))))
           (cond_Zopp sy (Zpos (fst (shl_align my ey (Z.min ex ey))))))
       (Z.min ex ey) false).
Proof.
  intros Hop Hx Hy Hr.
  set (ez := Z.min ex ey).
  pose proof (@shl_align_value mx ex ez ltac:(unfold ez; lia)) as Vx.
  pose proof (@shl_align_value my ey ez ltac:(unfold ez; lia)) as Vy.
  set (a := Zpos (fst (shl_align mx ex ez))) in *.
  set (b := Zpos (fst (shl_align my ey ez))) in *.
  assert (Ha : (0 < a)%Z) by (unfold a; lia).
  assert (Hb : (0 < b)%Z) by (unfold b; lia).
  assert (Hn : (1 <= k - ez)%Z).
  { pose proof (Pos2Z.is_pos (digits2_pos mx)).
    pose proof (Pos2Z.is_pos (digits2_pos my)). unfold ez. lia. }
  assert (Pa : (a < 2 ^ (k - ez))%Z).
  { eapply Z.lt_le_trans; [exact Vx|]. apply Z.pow_le_mono_r; lia. }
  assert (Pb : (b < 2 ^ (k - ez))%Z).
  { eapply Z.lt_le_trans; [exact Vy|]. apply Z.pow_le_mono_r; lia. }
  replace (k + 2)%Z with (k + 1 + 1)%Z by lia.
  apply binary_normalize_below; [|lia].
  assert (Hs : (Zdigits2 (op (cond_Zopp sx a) (cond_Zopp sy b))
                <= k - ez + 1)%Z).
  { apply Zdigits2_abs_bound; [lia|].
    rewrite Z.pow_add_r by lia. simpl (2 ^ 1)%Z.
    set (q := (2 ^ (k - ez))%Z) in *.
    destruct (Hop (cond_Zopp sx a) (cond_Zopp sy b)) as [-> | ->];
      destruct sx, sy; unfold cond_Zopp; lia. }
  lia.
Qed.

Lemma SFadd_below (k : Z) (a b : spec_float) :
  (-1075 <= k <= 970)%Z -> SF_below k a -> SF_below k b ->
  SF_below (k + 2) (SFadd prec emax a b).
Proof.
  intros Hr Ha Hb.
  destruct a as [sa|sa| |sa ma ea]; try contradiction;
    destruct b as [sb|sb| |sb mb eb]; try contradiction;
    cbn [SFadd].
  - destruct sa, sb; exact I.
  - cbn [SF_below] in *. lia.
  - cbn [SF_below] in *. lia.
  - apply (@aligned_sum_below sa sb ma mb ea eb k Z.add); auto.
Qed.

Lemma SFsub_below (k : Z) (a b : spec_float) :
  (-1075 <= k <= 970)%Z -> SF_below k a -> SF_below k b ->
  SF_below (k + 2) (SFsub prec emax a b).
Proof.
  intros Hr Ha Hb.
  destruct a as [sa|sa| |sa ma ea]; try contradiction;
    destruct b as [sb|sb| |sb mb eb]; try contradiction;
    cbn [SFsub].
  - destruct sa, sb; exact I.
  - cbn [SF_below] in *. lia.
  - cbn [SF_below] in *. lia.
  - apply (@aligned_sum_below sa sb ma mb ea eb k Z.sub); auto.
Qed.

Lemma digits2_pos_mul (a b : positive) :
  (Zpos (digits2_pos (a * b)) <= Zpos (digits2_pos a) + Zpos (digits2_pos b))%Z.
Proof.
  apply digits2_pos_bound; [lia|].
  rewrite Pos2Z.inj_mul, Z.pow_add_r by lia.
  pose proof (digits2_pos_above a). pose proof (digits2_pos_above b).
  apply Z.mul_lt_mono_nonneg; lia.
Qed.

Lemma SFmul_below (ka kb : Z) (a b : spec_float) :
  (-1074 <= ka + kb <= 971)%Z -> SF_below ka a -> SF_below kb b ->
  SF_below (ka + kb + 1) (SFmul prec emax a b).
Proof.
  intros Hr Ha Hb.
  destruct a as [sa|sa| |sa ma ea]; try contradiction;
    destruct b as [sb|sb| |sb mb eb]; try contradiction;
    cbn [SFmul]; try exact I.
  cbn [SF_below] in Ha, Hb.
  apply binary_round_aux_below; [lia| |exact Hr].
  cbn [Zdigits2]. pose proof (digits2_pos_mul ma mb). lia.
Qed.

Lemma SFdiv_core_magnitude (ma mb : positive) (ea eb K : Z) :
  (Zpos (digits2_pos ma) + ea - (Zpos (digits2_pos mb) + eb) + 1 <= K)%Z ->
  (-1074 <= K)%Z ->
  (0 <= fst (fst (SFdiv_core_binary prec emax (Zpos ma) ea (Zpos mb) eb)))%Z /\
  (Zdigits2 (fst (fst (SFdiv_core_binary prec emax (Zpos ma) ea (Zpos mb) eb)))
   + snd (fst (SFdiv_core_binary prec emax (Zpos ma) ea (Zpos mb) eb))
   <= K)%Z.
Proof.
  intros HK HK0. unfold SFdiv_core_binary. cbn [Zdigits2].
  set (da := Zpos (digits2_pos ma)) in *.
  set (db := Zpos (digits2_pos mb)) in *.
  assert (Hf : fexp prec emax (da + ea - (db + eb))
               = Z.max (da + ea - (db + eb) - 53) (-1074)) by reflexivity.
  set (e' := Z.min (fexp prec emax (da + ea - (db + eb))) (ea - eb)) in *.
  set (s := (ea - eb - e')%Z).
  assert (Hs : (0 <= s)%Z) by (unfold s, e'; lia).
  set (m' := match s with
             | 0%Z => Zpos ma | Zpos _ => Z.shiftl (Zpos ma) s | Zneg _ => 0%Z
             end).
  assert (Hm' : m' = (Zpos ma * 2 ^ s)%Z).
  { unfold m'. destruct s as [|p|p] eqn:E; [simpl; lia| |lia].
    now rewrite Z.shiftl_mul_pow2 by lia. }
  clearbody m'.
  pose proof (Z_div_mod m' (Zpos mb) ltac:(lia)) as Hdiv.
  destruct (Z.div_eucl m' (Zpos mb)) as [q r]. cbn [fst snd].
  destruct Hdiv as [Hq Hrr].
  pose proof (digits2_pos_above ma) as Ua. fold da in Ua.
  pose proof (digits2_pos_least mb) as Lb. fold db in Lb.
  assert (Hda : (1 <= da)%Z) by (unfold da; lia).
  assert (Hdb : (1 <= db)%Z) by (unfold db; lia).
  assert (P2 : (0 < 2 ^ s)%Z) by (apply Z.pow_pos_nonneg; lia).
  assert (Pb : (0 < 2 ^ (db - 1))%Z) by (apply Z.pow_pos_nonneg; lia).
  assert (Hm0 : (0 <= m')%Z) by (rewrite Hm'; lia).
  assert (Hq0 : (0 <= q)%Z) by nia.
  split; [exact Hq0|].
  assert (Hmu : (m' < 2 ^ (da + s))%Z).
  { rewrite Hm', Z.pow_add_r by lia.
    apply Z.mul_lt_mono_pos_r; assumption. }
  destruct (Z_lt_le_dec (da + s - db + 1) 0) as [Hneg|Hpos].
  - assert (Hsmall : (m' < Zpos mb)%Z).
    { eapply Z.lt_le_trans; [exact Hmu|].
      eapply Z.le_trans; [|exact Lb]. apply Z.pow_le_mono_r; lia. }
    assert (q = 0%Z) by nia. subst q. cbn [Zdigits2].
    unfold e'. lia.
  - assert (Hqu : (q < 2 ^ (da + s - db + 1))%Z).
    { apply (Z.mul_lt_mono_pos_r (2 ^ (db - 1))); [exact Pb|].
      rewrite <- Z.pow_add_r by lia.
      replace (da + s - db + 1 + (db - 1))%Z with (da + s)%Z by lia.
      eapply Z.le_lt_trans; [|exact Hmu].
      eapply Z.le_trans; [apply Z.mul_le_mono_nonneg_l; [exact Hq0|exact Lb]|].
      lia. }
    pose proof (@Zdigits2_bound q _ Hpos (conj Hq0 Hqu)). unfold s in *. lia.
Qed.

(** A quotient: the dividend below [2^k], the divisor at least
    [2^(j-1)]. *)
Lemma SFdiv_below (k j : Z) (a b : spec_float) :
  (-1075 <= k - j <= 970)%Z -> SF_below k a -> SF_above j b ->
  SF_below (k - j + 2) (SFdiv prec emax a b).
Proof.
  intros Hr Ha Hb.
  destruct a as [sa|sa| |sa ma ea]; try contradiction;
    destruct b as [sb|sb| |sb mb eb]; try contradiction;
    cbn [SFdiv]; try exact I.
  cbn [SF_below SF_above] in Ha, Hb.
  destruct (@SFdiv_core_magnitude ma mb ea eb (k - j + 1)) as [H0 H1];
    [lia|lia|].
  destruct (SFdiv_core_binary prec emax (Zpos ma) ea (Zpos mb) eb)
    as [[q e'] l]. cbn [fst snd] in *.
  replace (k - j + 2)%Z with (k - j + 1 + 1)%Z by lia.
  apply binary_round_aux_below; [exact H0|exact H1|lia].
Qed.

Lemma SFsqrt_core_magnitude (m : positive) (e h : Z) :
  (Zpos (digits2_pos m) + e + 1 <= 2 * h)%Z ->
  (0 <= fst (fst (SFsqrt_core_binary prec emax (Zpos m) e)))%Z /\
  (Zdigits2 (fst (fst (SFsqrt_core_binary prec emax (Zpos m) e)))
   + snd (fst (SFsqrt_core_binary prec emax (Zpos m) e)) <= h)%Z.
Proof.
  intros Hh. unfold SFsqrt_core_binary. cbn [Zdigits2].
  set (d := Zpos (digits2_pos m)) in *.
  assert (Hd : (1 <= d)%Z) by (unfold d; lia).
  set (e' := Z.min (fexp prec emax (Z.div2 (d + e + 1))) (Z.div2 e)).
  assert (He' : (2 * e' <= e)%Z).
  { assert (2 * Z.div2 e <= e)%Z.
    { rewrite Z.div2_div. pose proof (Z.mul_div_le e 2). lia. }
    unfold e'. lia. }
  set (s := (e - 2 * e')%Z).
  assert (Hs : (0 <= s)%Z) by (unfold s; lia).
  set (m' := match s with
             | 0%Z => Zpos m | Zpos _ => Z.shiftl (Zpos m) s | Zneg _ => 0%Z
             end).
  assert (Hm' : m' = (Zpos m * 2 ^ s)%Z).
  { unfold m'. destruct s as [|p|p] eqn:E; [simpl; lia| |lia].
    now rewrite Z.shiftl_mul_pow2 by lia. }
  clearbody m'.
  assert (P2 : (0 < 2 ^ s)%Z) by (apply Z.pow_pos_nonneg; lia).
  assert (Hm0 : (0 <= m')%Z) by (rewrite Hm'; lia).
  pose proof (Z.sqrtrem_spec m' Hm0) as Hsq.
  destruct (Z.sqrtrem m') as [q r]. cbn [fst snd].
  destruct Hsq as [Hq Hrr].
  assert (Hq0 : (0 <= q)%Z) by lia.
  split; [exact Hq0|].
  pose proof (digits2_pos_above m) as Um. fold d in Um.
  assert (Hn : (0 <= h - e')%Z) by lia.
  assert (Hmu : (m' < 2 ^ (h - e') * 2 ^ (h - e'))%Z).
  { rewrite <- Z.pow_add_r by lia.
    apply Z.lt_le_trans with (2 ^ (d + s))%Z.
    - rewrite Hm', Z.pow_add_r by lia.
      apply Z.mul_lt_mono_pos_r; assumption.
    - apply Z.pow_le_mono_r; unfold s; lia. }
  assert (Hqu : (q < 2 ^ (h - e'))%Z).
  { assert (0 < 2 ^ (h - e'))%Z by (apply Z.pow_pos_nonneg; lia).
    set (t := (2 ^ (h - e'))%Z) in *. nia. }
  pose proof (@Zdigits2_bound q _ Hn (conj Hq0 Hqu)). lia.
Qed.

(** A square root: the radicand not negative and below [2^k]. *)
Lemma SFsqrt_below (k h : Z) (a : spec_float) :
  (k + 1 <= 2 * h)%Z -> (-1074 <= h <= 971)%Z ->
  SF_below k a -> SF_not_negative a ->
  SF_below (h + 1) (SFsqrt prec emax a).
Proof.
  intros Hk Hr Ha Hn.
  destruct a as [sa|sa| |sa ma ea]; try contradiction; cbn [SFsqrt].
  - exact I.
  - destruct sa; [contradiction|]. cbn [SF_below] in Ha.
    destruct (@SFsqrt_core_magnitude ma ea h) as [H0 H1]; [lia|].
    destruct (SFsqrt_core_binary prec emax (Zpos ma) ea) as [[q e'] l].
    cbn [fst snd] in *.
    apply binary_round_aux_below; [exact H0|exact H1|lia].
Qed.

(** Signs: a rounding keeps the sign it is given. *)
Lemma binary_round_aux_sign (s : bool) (m e : Z) (l : location) :
  match binary_round_aux prec emax s m e l with
  | S754_finite s' _ _ => s' = s
  | _ => True
  end.
Proof.
  unfold binary_round_aux.
  destruct (shr_fexp prec emax m e l) as [r1 e1].
  destruct (shr_fexp prec emax _ e1 loc_Exact) as [r2 e2].
  destruct (shr_m r2); auto. destruct (_ <=? _)%Z; auto.
Qed.

Lemma SFsquare_not_negative (k k' : Z) (a : spec_float) :
  SF_below k a -> SF_below k' (SFmul prec emax a a) ->
  SF_not_negative (SFmul prec emax a a).
Proof.
  destruct a as [sa|sa| |sa ma ea]; try contradiction; cbn [SFmul].
  - intros _ _. exact I.
  - intros _ H. rewrite xorb_nilpotent in *.
    pose proof (binary_round_aux_sign false (Zpos (ma * ma)) (ea + ea)
                  loc_Exact) as Hs.
    destruct (binary_round_aux prec emax false _ _ _); try contradiction.
    + exact I.
    + subst. exact I.
Qed.

Lemma SFadd_not_negative (k : Z) (a b : spec_float) :
  SF_not_negative a -> SF_not_negative b ->
  SF_below k (SFadd prec emax a b) ->
  SF_not_negative (SFadd prec emax a b).
Proof.
  destruct a as [sa|sa| |[|] ma ea]; try contradiction;
    destruct b as [sb|sb| |[|] mb eb]; try contradiction;
    intros _ _; cbn [SFadd]; try (intros _; exact I).
  - destruct sa, sb; intros _; exact I.
  - cbn [cond_Zopp].
    set (za := Zpos (fst (shl_align ma ea (Z.min ea eb)))).
    set (zb := Zpos (fst (shl_align mb eb (Z.min ea eb)))).
    assert (Hz : (0 < za + zb)%Z) by (unfold za, zb; lia).
    destruct (za + zb)%Z as [|p|p]; try lia.
    cbn [binary_normalize]. unfold binary_round.
    destruct (shl_align p _ _) as [mz ez].
    pose proof (binary_round_aux_sign false (Zpos mz) ez loc_Exact) as Hs.
    destruct (binary_round_aux prec emax false _ _ _); try contradiction.
    + intros _. exact I.
    + subst. intros _. exact I.
Qed.

(** *** Magnitudes of binary64 values *)

Lemma below_mono (k k' : Z) (a : float) :
  (k <= k')%Z -> below k a -> below k' a.
Proof. apply SF_below_mono. Qed.

Lemma below_add (ka kb k : Z) (a b : float) :
  below ka a -> below kb b -> (ka <= k - 2)%Z -> (kb <= k - 2)%Z ->
  (-1073 <= k <= 972)%Z -> below k (a + b)%D.
Proof.
  intros Ha Hb H1 H2 Hr. unfold below. cbn [add binary64].
  rewrite FloatAxioms.add_spec.
  replace k with (k - 2 + 2)%Z by lia.
  apply SFadd_below;
    [lia | eapply SF_below_mono; [|exact Ha]
         | eapply SF_below_mono; [|exact Hb]]; lia.
Qed.

Lemma below_sub (ka kb k : Z) (a b : float) :
  below ka a -> below kb b -> (ka <= k - 2)%Z -> (kb <= k - 2)%Z ->
  (-1073 <= k <= 972)%Z -> below k (a - b)%D.
Proof.
  intros Ha Hb H1 H2 Hr. unfold below. cbn [sub binary64].
  rewrite FloatAxioms.sub_spec.
  replace k with (k - 2 + 2)%Z by lia.
  apply SFsub_below;
    [lia | eapply SF_below_mono; [|exact Ha]
         | eapply SF_below_mono; [|exact Hb]]; lia.
Qed.

Lemma below_mul (ka kb k : Z) (a b : float) :
  below ka a -> below kb b -> (ka + kb + 1 <= k)%Z ->
  (-1074 <= ka + kb)%Z -> (k <= 972)%Z -> below k (a * b)%D.
Proof.
  intros Ha Hb H1 H2 Hr. unfold below. cbn [mul binary64].
  rewrite FloatAxioms.mul_spec.
  eapply SF_below_mono; [exact H1|]. apply SFmul_below; auto. lia.
Qed.

Lemma below_div (ka j k : Z) (a b : float) :
  below ka a -> at_least j b -> (ka - j + 2 <= k)%Z ->
  (-1075 <= ka - j)%Z -> (k <= 972)%Z -> below k (a / b)%D.
Proof.
  intros Ha Hb H1 H2 Hr. unfold below. cbn [div binary64].
  rewrite FloatAxioms.div_spec.
  eapply SF_below_mono; [exact H1|]. apply SFdiv_below; auto. lia.
Qed.

Lemma below_sqrt (ka k : Z) (a : float) :
  below ka a -> not_negative a -> (ka + 3 <= 2 * k)%Z ->
  (-1073 <= k <= 972)%Z -> below k (sqrt a)%D.
Proof.
  intros Ha Hn H1 Hr. unfold below. cbn [sqrt binary64].
  rewrite FloatAxioms.sqrt_spec.
  replace k with (k - 1 + 1)%Z by lia.
  apply SFsqrt_below with (k := ka); auto; lia.
Qed.

Lemma square_not_negative (k : Z) (a : float) :
  below k a -> (-1074 <= k + k <= 971)%Z -> not_negative (pow_2 a).
Proof.
  intros Ha Hr. unfold not_negative, pow_2. cbn [mul binary64].
  rewrite FloatAxioms.mul_spec.
  apply SFsquare_not_negative with (k := k) (k' := (k + k + 1)%Z).
  - exact Ha.
  - apply SFmul_below; auto.
Qed.

Lemma sum_not_negative (k : Z) (a b : float) :
  not_negative a -> not_negative b -> below k (a + b)%D ->
  not_negative (a + b)%D.
Proof.
  unfold not_negative, below. cbn [add binary64].
  rewrite FloatAxioms.add_spec. apply SFadd_not_negative.
Qed.

Lemma valid_digits (s : bool) (m : positive) (e : Z) :
  SpecFloat.valid_binary prec emax (S754_finite s m e) = true ->
  (Zpos (digits2_pos m) <= 53)%Z /\
  ((-1074 < e)%Z -> Zpos (digits2_pos m) = 53%Z).
Proof.
  intros H. destruct (valid_finite _ _ _ H) as [Hf _].
  assert (Hf' : fexp prec emax (Zpos (digits2_pos m) + e)
                = Z.max (Zpos (digits2_pos m) + e - 53) (-1074))
    by reflexivity.
  rewrite Hf' in Hf. clear - Hf. lia.
Qed.

(** [|a| < c] for a power of two [c = 2^(52 + ec)] (or less). *)
Lemma SFltb_abs_below (a : spec_float) (c : positive) (ec : Z) :
  SpecFloat.valid_binary prec emax a = true ->
  (Zpos c <= 2 ^ 52)%Z ->
  SFltb (SFabs a) (S754_finite false c ec) = true ->
  SF_below (52 + ec) a.
Proof.
  intros Hv Hc. destruct a as [s|s| |s m e]; cbn [SFabs SF_below].
  - auto.
  - discriminate.
  - discriminate.
  - destruct (valid_digits _ _ _ Hv) as [Hd _].
    unfold SFltb, SFcompare.
    destruct (Z.compare_spec e ec) as [E|E|E]; try discriminate.
    + intros H. subst ec.
      change (Pos.compare_cont Eq m c) with (Pos.compare m c) in H.
      destruct (Pos.compare_spec m c) as [F|F|F]; try discriminate.
      assert (Hm : (Zpos m < 2 ^ 52)%Z).
      { eapply Z.lt_le_trans; [|exact Hc]. apply Pos2Z.pos_lt_pos, F. }
      pose proof (@digits2_pos_bound m 52 ltac:(clear; lia) Hm) as Hb.
      clear - Hb. lia.
    + intros _. clear - Hd E. lia.
Qed.

(** [|a| >= c] for a normal number [c] of exponent [ec]. *)
Lemma SFltb_abs_above (k : Z) (a : spec_float) (c : positive) (ec : Z) :
  SpecFloat.valid_binary prec emax a = true -> SF_below k a ->
  (-1074 < ec)%Z ->
  SFltb (SFabs a) (S754_finite false c ec) = false ->
  SF_above (53 + ec) a.
Proof.
  intros Hv Hb Hc. destruct a as [s|s| |s m e]; try contradiction;
    cbn [SFabs SF_above].
  - discriminate.
  - destruct (valid_digits _ _ _ Hv) as [_ Hd].
    unfold SFltb, SFcompare.
    destruct (Z.compare_spec e ec) as [E|E|E]; try discriminate;
      intros _; rewrite Hd by lia; lia.
Qed.

(** [0 <= a <= 1]. *)
Lemma SF_unit_below (a : spec_float) :
  SpecFloat.valid_binary prec emax a = true ->
  SFleb (S754_zero false) a = true ->
  SFleb a (S754_finite false 4503599627370496 (-52)) = true ->
  SF_below 1 a.
Proof.
  intros Hv. destruct a as [s|s| |s m e]; cbn [SF_below].
  - auto.
  - destruct s; discriminate.
  - discriminate.
  - destruct s; [discriminate|]. intros _ H.
    destruct (valid_digits _ _ _ Hv) as [Hd _].
    apply SFleb_finite_positive in H. clear - H Hd.
    destruct H as [H|[H _]]; lia.
Qed.

Lemma SF_below_sentinel (a : spec_float) :
  SpecFloat.valid_binary prec emax a = true -> SF_below 63 a ->
  SFltb a (S754_finite false 4503599627370496 11) = true.
Proof.
  intros Hv. destruct a as [s|s| |s m e]; cbn [SF_below]; try contradiction.
  - reflexivity.
  - intros H. destruct s; [reflexivity|].
    destruct (valid_finite _ _ _ Hv) as [Hf _].
    assert (Hf' : fexp prec emax (Zpos (digits2_pos m) + e)
                  = Z.max (Zpos (digits2_pos m) + e - 53) (-1074))
      by reflexivity.
    rewrite Hf' in Hf.
    assert (He : (e < 11)%Z) by (clear - Hf H; lia).
    unfold SFltb, SFcompare.
    destruct (Z.compare_spec e 11) as [E|E|E]; [lia|reflexivity|lia].
Qed.

Lemma in_view_below (p : Point float) :
  in_view p = true -> below 8 (x p) /\ below 8 (y p).
Proof.
  unfold in_view, below. cbn [fabs ltb binary64]. intros H.
  apply andb_prop in H. destruct H as [Hx Hy].
  rewrite FloatAxioms.ltb_spec, FloatAxioms.abs_spec in Hx, Hy.
  change (Prim2SF (lit 256.0))
    with (S754_finite false 4503599627370496 (-44)) in Hx, Hy.
  assert (Hc : (Zpos 4503599627370496 <= 2 ^ 52)%Z)
    by (vm_compute; discriminate).
  split.
  - exact (@SFltb_abs_below _ _ _ (FloatAxioms.Prim2SF_valid _) Hc Hx).
  - exact (@SFltb_abs_below _ _ _ (FloatAxioms.Prim2SF_valid _) Hc Hy).
Qed.

(** A difference that fails the test [fabs(d) < 10e-7]. *)
Lemma not_small_at_least (k : Z) (d : float) :
  below k d -> (fabs d <? #10e-7)%D = false -> at_least (-19) d.
Proof.
  unfold below, at_least. cbn [fabs ltb binary64]. intros Hb H.
  rewrite FloatAxioms.ltb_spec, FloatAxioms.abs_spec in H.
  change (Prim2SF (lit 10e-7))
    with (S754_finite false 4722366482869645 (-72)) in H.
  assert (Hc : (-1074 < -72)%Z) by reflexivity.
  exact (@SFltb_abs_above k _ _ _ (FloatAxioms.Prim2SF_valid _) Hb Hc H).
Qed.

Lemma unit_below (t : float) :
  (#0.0 <=? t)%D = true -> (t <=? #1.0)%D = true -> below 1 t.
Proof.
  unfold below. cbn [leb binary64]. intros H0 H1.
  rewrite FloatAxioms.leb_spec in H0, H1.
  apply SF_unit_below; [apply FloatAxioms.Prim2SF_valid|exact H0|exact H1].
Qed.

Lemma below_sentinel (d : float) :
  below 63 d -> (d <? sentinel)%D = true.
Proof.
  unfold below. cbn [ltb binary64]. intros H.
  rewrite FloatAxioms.ltb_spec.
  change (Prim2SF sentinel) with (S754_finite false 4503599627370496 11).
  apply SF_below_sentinel; [apply FloatAxioms.Prim2SF_valid|exact H].
Qed.

Lemma far_below :
  below 15 (ARBITRARY_OUT_OF_BOUNDS_COORD : float) /\
  below 15 (of_int (-1) * ARBITRARY_OUT_OF_BOUNDS_COORD : float)%D /\
  below 15 (#(-1.0) * ARBITRARY_OUT_OF_BOUNDS_COORD : float)%D /\
  below 15 (ARBITRARY_OUT_OF_BOUNDS_COORD * of_int (-1) : float)%D /\
  below 1 (of_int 1 : float).
Proof. repeat split; vm_compute; discriminate. Qed.

(** *** The search in the normalized space *)

(** The far end of the extension of a probe in view: the slope is the
    quotient of a difference below [2^10] by one of at least [2^-20]. *)
Lemma expandLine_magnitude (l : Line float) :
  in_view (point1 l) = true -> in_view (point2 l) = true ->
  below 15 (x (point2 (expandLine l))) /\
  below 51 (y (point2 (expandLine l))).
Proof.
  intros H1 H2.
  destruct (@in_view_below _ H1) as [X1 Y1].
  destruct (@in_view_below _ H2) as [X2 Y2].
  destruct far_below as (F1 & F2 & F3 & F4 & F5).
  assert (DX : below 10 (x (point2 l) - x (point1 l))%D)
    by (eapply below_sub; [exact X2|exact X1|lia..]).
  assert (DY : below 10 (y (point2 l) - y (point1 l))%D)
    by (eapply below_sub; [exact Y2|exact Y1|lia..]).
  unfold expandLine.
  destruct (fabs (x (point2 l) - x (point1 l)) <? #10e-7)%D eqn:E1.
  - destruct (y (point2 l) <? y (point1 l))%D; cbn [point2 x y]; split;
      eapply below_mono; try eassumption; lia.
  - destruct (fabs (y (point2 l) - y (point1 l)) <? #10e-7)%D eqn:E2.
    + destruct (x (point2 l) <? x (point1 l))%D; cbn [point2 x y]; split;
        eapply below_mono; try eassumption; lia.
    + pose proof (@not_small_at_least _ _ DX E1) as A.
      set (slope := ((y (point2 l) - y (point1 l))
                     / (x (point2 l) - x (point1 l)))%D).
      assert (S : below 31 slope)
        by (eapply below_div; [exact DY|exact A|lia..]).
      assert (SX : below 40 (slope * x (point1 l))%D)
        by (eapply below_mul; [exact S|exact X1|lia..]).
      assert (YI : below 42 (y (point1 l) - slope * x (point1 l))%D)
        by (eapply below_sub; [exact Y1|exact SX|lia..]).
      assert (SE : below 47 (slope * ARBITRARY_OUT_OF_BOUNDS_COORD)%D)
        by (eapply below_mul; [exact S|exact F1|lia..]).
      assert (EY : below 49 (slope * ARBITRARY_OUT_OF_BOUNDS_COORD
                             + (y (point1 l) - slope * x (point1 l)))%D)
        by (eapply below_add; [exact SE|exact YI|lia..]).
      cbn [point2 x y]. split.
      * destruct (x (point2 l) <? x (point1 l))%D;
          [exact F4|exact F1].
      * destruct (y (point2 l) <? y (point1 l))%D.
        -- eapply below_mul; [exact EY|exact F5|lia..].
        -- eapply below_mono; [|exact EY]. lia.
Qed.

(** A reported intersection lies between the two ends of the first
    segment, the parameter being in [0, 1]. *)
Lemma intersection_magnitude (e o : Line float) (p : Point float) :
  below 8 (x (point1 e)) -> below 8 (y (point1 e)) ->
  below 15 (x (point2 e)) -> below 51 (y (point2 e)) ->
  findLineSegmentIntersection e o = Some p ->
  below 21 (x p) /\ below 57 (y p).
Proof.
  intros X1 Y1 X2 Y2. unfold findLineSegmentIntersection.
  destruct (_ && _)%bool eqn:E; [|discriminate]. intros [= <-].
  apply andb_prop in E. destruct E as [E _].
  apply andb_prop in E. destruct E as [E _].
  apply andb_prop in E. destruct E as [T0 T1].
  pose proof (@unit_below _ T0 T1) as T.
  set (t := param_t e o) in *.
  assert (DX : below 17 (x (point2 e) - x (point1 e))%D)
    by (eapply below_sub; [exact X2|exact X1|lia..]).
  assert (DY : below 53 (y (point2 e) - y (point1 e))%D)
    by (eapply below_sub; [exact Y2|exact Y1|lia..]).
  assert (TX : below 19 (t * (x (point2 e) - x (point1 e)))%D)
    by (eapply below_mul; [exact T|exact DX|lia..]).
  assert (TY : below 55 (t * (y (point2 e) - y (point1 e)))%D)
    by (eapply below_mul; [exact T|exact DY|lia..]).
  cbn [x y]. split.
  - eapply below_add; [exact X1|exact TX|lia..].
  - eapply below_add; [exact Y1|exact TY|lia..].
Qed.

Lemma pointDistance_magnitude (s p : Point float) :
  below 8 (x s) -> below 8 (y s) -> below 21 (x p) -> below 57 (y p) ->
  below 62 (pointDistance s p).
Proof.
  intros X1 Y1 X2 Y2. unfold pointDistance.
  assert (DX : below 23 (x p - x s)%D)
    by (eapply below_sub; [exact X2|exact X1|lia..]).
  assert (DY : below 59 (y p - y s)%D)
    by (eapply below_sub; [exact Y2|exact Y1|lia..]).
  assert (QX : below 47 (pow_2 (x p - x s)%D))
    by (eapply below_mul; [exact DX|exact DX|lia..]).
  assert (QY : below 119 (pow_2 (y p - y s)%D))
    by (eapply below_mul; [exact DY|exact DY|lia..]).
  assert (NX : not_negative (pow_2 (x p - x s)%D))
    by (eapply square_not_negative; [exact DX|lia]).
  assert (NY : not_negative (pow_2 (y p - y s)%D))
    by (eapply square_not_negative; [exact DY|lia]).
  assert (Q : below 121 (pow_2 (x p - x s) + pow_2 (y p - y s))%D)
    by (eapply below_add; [exact QX|exact QY|lia..]).
  eapply below_sqrt; [exact Q| |lia..].
  eapply sum_not_negative; eassumption.
Qed.

(** Every hit of the extension of a probe in view is nearer than the
    initial bound of the search. *)
Lemma hit_within_reach (start o : Line float) (q : Point float) :
  in_view (point1 start) = true -> in_view (point2 start) = true ->
  hit start o = Some q -> (dist start q <? sentinel)%D = true.
Proof.
  intros H1 H2 Hq.
  destruct (@in_view_below _ H1) as [X1 Y1].
  destruct (@expandLine_magnitude _ H1 H2) as [X2 Y2].
  unfold hit in Hq.
  destruct (@intersection_magnitude (expandLine start) o q) as [XQ YQ];
    rewrite ?expandLine_keeps_start; auto.
  apply below_sentinel. eapply below_mono; [|unfold dist].
  2: apply pointDistance_magnitude; eassumption.
  lia.
Qed.

(** C1: in binary64, for every wall list and every probe segment whose
    end points are in view (coordinates of magnitude below 256: the
    normalized space of the program and far beyond), if some obstacle
    (walls in array order, then the four borders) is hit by the extended
    probe, [findNearestIntersectionPoint] returns the hit of an obstacle
    whose distance from the start of the probe is minimal over all
    obstacles hit, and of equally near hits the one of the obstacle first
    in iteration order.  The initial bound [(double) INT64_MAX] of the
    search is never in the way: every hit is nearer. *)
Theorem nearest_hit_first_minimum (ws : list (Line float))
    (start : Line float) :
  in_view (point1 start) = true -> in_view (point2 start) = true ->
  some_hit ws start -> returns_first_nearest ws start.
Proof.
  intros H1 H2 (o & q & Hin & Hq).
  destruct (search_final_state ws start) as [[_ Hn]|H]; [|exact H].
  pose proof (@hit_within_reach _ _ _ H1 H2 Hq) as Hr.
  rewrite (Hn o q Hin Hq) in Hr. discriminate.
Qed.

Lemma nearest_hit_first_minimum_witness :
  in_view (point1 probe_east) = true /\
  in_view (point2 probe_east) = true /\
  some_hit walls probe_east /\ returns_first_nearest walls probe_east.
Proof.
  assert (H1 : in_view (point1 probe_east) = true) by reflexivity.
  assert (H2 : in_view (point2 probe_east) = true) by reflexivity.
  assert (H : some_hit walls probe_east).
  { exists (seg 0.2 0.3 0.4 (-0.2)). eexists.
    split; [right; left; reflexivity|]. vm_compute; reflexivity. }
  split; [exact H1|]. split; [exact H2|]. split; [exact H|].
  exact (@nearest_hit_first_minimum walls probe_east H1 H2 H).
Defined.

(** *** The probes of [drawRays] are in view *)

Lemma SF_below_ltb_abs (k : Z) (a : spec_float) (c : positive) (ec : Z) :
  SpecFloat.valid_binary prec emax a = true -> SF_below k a ->
  (k - 53 < ec)%Z -> (-1074 < ec)%Z ->
  SFltb (SFabs a) (S754_finite false c ec) = true.
Proof.
  intros Hv. destruct a as [s|s| |s m e]; cbn [SF_below SFabs];
    try contradiction.
  - reflexivity.
  - intros H H1 H2.
    destruct (valid_finite _ _ _ Hv) as [Hf _].
    assert (Hf' : fexp prec emax (Zpos (digits2_pos m) + e)
                  = Z.max (Zpos (digits2_pos m) + e - 53) (-1074))
      by reflexivity.
    rewrite Hf' in Hf.
    assert (He : (e < ec)%Z) by (clear - Hf H H1 H2; lia).
    unfold SFltb, SFcompare.
    destruct (Z.compare_spec e ec) as [E|E|E]; [lia|reflexivity|lia].
Qed.

Lemma below_in_view (p : Point float) :
  below 8 (x p) -> below 8 (y p) -> in_view p = true.
Proof.
  unfold in_view, below. cbn [fabs ltb binary64]. intros Hx Hy.
  rewrite !FloatAxioms.ltb_spec, !FloatAxioms.abs_spec.
  change (Prim2SF (lit 256.0))
    with (S754_finite false 4503599627370496 (-44)).
  assert (H1 : (8 - 53 < -44)%Z) by reflexivity.
  assert (H2 : (-1074 < -44)%Z) by reflexivity.
  rewrite (@SF_below_ltb_abs 8 _ _ _ (FloatAxioms.Prim2SF_valid _) Hx H1 H2).
  rewrite (@SF_below_ltb_abs 8 _ _ _ (FloatAxioms.Prim2SF_valid _) Hy H1 H2).
  reflexivity.
Qed.

(** [-1 <= a <= 1]. *)
Lemma SF_unit_square_below (a : spec_float) :
  SpecFloat.valid_binary prec emax a = true ->
  SFleb (S754_finite true 4503599627370496 (-52)) a = true ->
  SFleb a (S754_finite false 4503599627370496 (-52)) = true ->
  SF_below 1 a.
Proof.
  intros Hv. destruct a as [s|s| |s m e]; cbn [SF_below].
  - auto.
  - destruct s; discriminate.
  - discriminate.
  - destruct (valid_digits _ _ _ Hv) as [Hd _]. destruct s.
    + intros H _. unfold SFleb, SFcompare in H.
      destruct (Z.compare_spec (-52) e) as [E|E|E]; try discriminate H;
        clear - E Hd; lia.
    + intros _ H. apply SFleb_finite_positive in H. clear - H Hd.
      destruct H as [H|[H _]]; lia.
Qed.

Lemma SF_abs_unit_below (a : spec_float) :
  SpecFloat.valid_binary prec emax a = true ->
  SFleb (SFabs a) (S754_finite false 4503599627370496 (-52)) = true ->
  SF_below 1 a.
Proof.
  intros Hv. destruct a as [s|s| |s m e]; cbn [SF_below SFabs].
  - auto.
  - discriminate.
  - discriminate.
  - destruct (valid_digits _ _ _ Hv) as [Hd _].
    intros H. apply SFleb_finite_positive in H. clear - H Hd.
    destruct H as [H|[H _]]; lia.
Qed.

Lemma in_unit_square_below (p : Point float) :
  in_unit_square p = true -> below 1 (x p) /\ below 1 (y p).
Proof.
  unfold in_unit_square, below. cbn [neg leb binary64]. intros H.
  repeat (apply andb_prop in H; destruct H as [H ?]).
  rewrite FloatAxioms.leb_spec in *.
  split; apply SF_unit_square_below;
    auto using FloatAxioms.Prim2SF_valid.
Qed.

Lemma abs_unit_below (c : float) :
  (fabs c <=? #1.0)%D = true -> below 1 c.
Proof.
  unfold below. cbn [fabs leb binary64]. intros H.
  rewrite FloatAxioms.leb_spec, FloatAxioms.abs_spec in H.
  apply SF_abs_unit_below; [apply FloatAxioms.Prim2SF_valid|exact H].
Qed.

Lemma circle_below :
  below (-4) (CIRCLE_RADIUS : float) /\
  below (-2) (CIRCLE_RADIUS * monitor_widescreen_compensation : float)%D.
Proof. split; vm_compute; discriminate. Qed.

(** Every probe built by [drawRays] from an origin in [-1, 1] x [-1, 1]
    is in view, provided the library's [cos] and [sin] return values in
    [-1, 1] at its angle. *)
Lemma probe_in_view (LM : Libm float) (origin : Point float) (inc : float)
    (i : Z) :
  in_unit_square origin = true ->
  (fabs (cos (of_int i * inc)) <=? #1.0)%D = true ->
  (fabs (sin (of_int i * inc)) <=? #1.0)%D = true ->
  in_view (point1 (probe origin inc i)) = true /\
  in_view (point2 (probe origin inc i)) = true.
Proof.
  intros Ho Hc Hs.
  destruct (@in_unit_square_below _ Ho) as [X Y].
  destruct circle_below as [R RC].
  pose proof (@abs_unit_below _ Hc) as C.
  pose proof (@abs_unit_below _ Hs) as S.
  unfold probe. cbn [point1 point2]. split.
  - apply below_in_view; eapply below_mono; try eassumption; lia.
  - apply below_in_view; cbn [x y].
    + eapply below_add with (ka := 1%Z) (kb := (-2)%Z);
        [exact X| |lia..].
      eapply below_mul; [exact R|exact C|lia..].
    + eapply below_add with (ka := 1%Z) (kb := 0%Z); [exact Y| |lia..].
      eapply below_mul; [exact RC|exact S|lia..].
Qed.

(** The search for a ray of [drawRays]: with the cursor normalized into
    [-1, 1] x [-1, 1] and the library's [cos] and [sin] in [-1, 1], the
    first of the nearest hits is the end of the ray, whenever an obstacle
    is hit. *)
Lemma drawn_ray_first_minimum (LM : Libm float) (ws : list (Line float))
    (origin : Point float) (inc : float) (i : Z) :
  in_unit_square origin = true ->
  (fabs (cos (of_int i * inc)) <=? #1.0)%D = true ->
  (fabs (sin (of_int i * inc)) <=? #1.0)%D = true ->
  some_hit ws (probe origin inc i) ->
  returns_first_nearest ws (probe origin inc i).
Proof.
  intros Ho Hc Hs (o & q & Hin & Hq).
  destruct (@probe_in_view LM origin inc i Ho Hc Hs) as [H1 H2].
  destruct (search_final_state ws (probe origin inc i)) as [[_ Hn]|H];
    [|exact H].
  pose proof (@hit_within_reach _ _ _ H1 H2 Hq) as Hr.
  rewrite (Hn o q Hin Hq) in Hr. discriminate.
Qed.

(** * The intersection test on binary64 coordinates *)


(** ** The decision does not depend on the order of the segments *)

Lemma SF_same_refl a : SF_same a a.
Proof. reflexivity. Qed.

Lemma SF_same_sym a b : SF_same a b -> SF_same b a.
Proof. unfold SF_same. congruence. Qed.

Lemma SF_same_trans a b c : SF_same a b -> SF_same b c -> SF_same a c.
Proof. unfold SF_same. congruence. Qed.

Lemma SFopp_congruent a b : SF_same a b -> SF_same (SFopp a) (SFopp b).
Proof.
  unfold SF_same, SF_unsigned_zero.
  destruct a as [sa|sa| |sa ma ea], b as [sb|sb| |sb mb eb]; simpl;
    intros H; try discriminate; try reflexivity; congruence.
Qed.

Lemma SFopp_involutive a : SFopp (SFopp a) = a.
Proof. destruct a as [s|s| |s m e]; simpl; now rewrite ?negb_involutive. Qed.

Lemma round_aux_opp s m e l :
  binary_round_aux prec emax (negb s) m e l
  = SFopp (binary_round_aux prec emax s m e l).
Proof.
  unfold binary_round_aux.
  destruct (shr_fexp prec emax m e l) as [r1 e1].
  destruct (shr_fexp prec emax _ e1 loc_Exact) as [r2 e2].
  destruct (shr_m r2); try reflexivity.
  destruct (_ <=? _)%Z; reflexivity.
Qed.

Lemma normalize_opp z e :
  SF_same (binary_normalize prec emax (- z) e false)
          (SFopp (binary_normalize prec emax z e false)).
Proof.
  destruct z as [|p|p]; simpl; try reflexivity; unfold binary_round;
    destruct (shl_align _ _ _) as [mz ez].
  - pose proof (round_aux_opp false (Zpos mz) ez loc_Exact) as H.
    cbn [negb] in H. rewrite H. reflexivity.
  - pose proof (round_aux_opp false (Zpos mz) ez loc_Exact) as H.
    cbn [negb] in H. rewrite H, SFopp_involutive. reflexivity.
Qed.

Lemma SFmul_comm a b : SF64mul a b = SF64mul b a.
Proof.
  unfold SF64mul, SFmul.
  destruct a as [sa|sa| |sa ma ea], b as [sb|sb| |sb mb eb];
    rewrite ?(xorb_comm sa sb); try reflexivity.
  now rewrite (Pos.mul_comm ma mb), (Z.add_comm ea eb).
Qed.

Lemma SFmul_opp_r a b : SF64mul a (SFopp b) = SFopp (SF64mul a b).
Proof.
  unfold SF64mul, SFmul.
  destruct a as [sa|sa| |sa ma ea], b as [sb|sb| |sb mb eb]; cbn [SFopp];
    try reflexivity; try (now destruct sa, sb).
  rewrite <- round_aux_opp. f_equal. now destruct sa, sb.
Qed.

Lemma SFmul_congruent a a' b b' :
  SF_same a a' -> SF_same b b' -> SF_same (SF64mul a b) (SF64mul a' b').
Proof.
  unfold SF_same, SF_unsigned_zero.
  destruct a as [sa|sa| |sa ma ea], a' as [sa'|sa'| |sa' ma' ea'];
    intros Ha; try discriminate Ha;
    destruct b as [sb|sb| |sb mb eb], b' as [sb'|sb'| |sb' mb' eb'];
    intros Hb; try discriminate Hb; try reflexivity;
    try (injection Ha as ?); try (injection Hb as ?); subst;
    reflexivity.
Qed.

Lemma SFsub_congruent a a' b b' :
  SF_same a a' -> SF_same b b' -> SF_same (SF64sub a b) (SF64sub a' b').
Proof.
  unfold SF_same, SF_unsigned_zero.
  destruct a as [sa|sa| |sa ma ea], a' as [sa'|sa'| |sa' ma' ea'];
    intros Ha; try discriminate Ha;
    destruct b as [sb|sb| |sb mb eb], b' as [sb'|sb'| |sb' mb' eb'];
    intros Hb; try discriminate Hb; try reflexivity;
    try (injection Ha as ?); try (injection Hb as ?); subst;
    try reflexivity.
  destruct sa, sa', sb, sb'; reflexivity.
Qed.

Lemma cond_Zopp_negb s z : cond_Zopp (negb s) z = (- cond_Zopp s z)%Z.
Proof. destruct s; simpl; lia. Qed.

(** Exchanging the operands of a difference changes its sign. *)
Lemma SFsub_swap a b : SF_same (SF64sub b a) (SFopp (SF64sub a b)).
Proof.
  destruct a as [sa|sa| |sa ma ea], b as [sb|sb| |sb mb eb];
    try reflexivity; try (destruct sa; reflexivity);
    try (destruct sb; reflexivity); try (destruct sa, sb; reflexivity).
  unfold SF64sub, SFsub. rewrite (Z.min_comm eb ea).
  set (za := cond_Zopp sa _). set (zb := cond_Zopp sb _).
  replace (zb - za)%Z with (- (za - zb))%Z by lia.
  apply normalize_opp.
Qed.

Lemma SFsub_opp_opp a b :
  SF_same (SF64sub (SFopp a) (SFopp b)) (SF64sub b a).
Proof.
  destruct a as [sa|sa| |sa ma ea], b as [sb|sb| |sb mb eb];
    try reflexivity; try (destruct sa; reflexivity);
    try (destruct sb; reflexivity); try (destruct sa, sb; reflexivity).
  unfold SF64sub, SFsub. cbn [SFopp]. rewrite !cond_Zopp_negb.
  rewrite (Z.min_comm eb ea).
  set (za := cond_Zopp sa _). set (zb := cond_Zopp sb _).
  replace (- za - - zb)%Z with (zb - za)%Z by lia. reflexivity.
Qed.

(** A quotient of two negated operands. *)
Lemma SFdiv_opp_opp n n' d d' :
  SF_same n' (SFopp n) -> SF_same d' (SFopp d) ->
  SF_alike (SF64div n' d') (SF64div n d).
Proof.
  unfold SF_same, SF_alike, SF_unsigned_zero.
  destruct n as [sn|sn| |sn mn en], n' as [sn'|sn'| |sn' mn' en'];
    intros Hn; try discriminate Hn;
    destruct d as [sd|sd| |sd md ed], d' as [sd'|sd'| |sd' md' ed'];
    intros Hd; try discriminate Hd; try reflexivity;
    cbn [SFopp] in Hn, Hd;
    try (injection Hn as ?); try (injection Hd as ?); subst;
    try reflexivity.
  unfold SF64div, SFdiv. replace (xorb (negb sn) (negb sd)) with (xorb sn sd)
    by (now destruct sn, sd). reflexivity.
Qed.

Lemma SF_in_range_alike a b :
  SF_alike a b ->
  SFleb (S754_zero false) a && SFleb a (S754_finite false 4503599627370496 (-52))
  = SFleb (S754_zero false) b && SFleb b (S754_finite false 4503599627370496 (-52)).
Proof.
  unfold SF_alike, SF_unsigned.
  destruct a as [[|]|[|]| |sa ma ea], b as [[|]|[|]| |sb mb eb];
    intros H; try discriminate H; try reflexivity.
  now injection H as -> -> ->.
Qed.

Lemma SF_same_alike a b : SF_same a b -> SF_alike a b.
Proof.
  unfold SF_same, SF_alike, SF_unsigned_zero, SF_unsigned.
  destruct a as [sa|sa| |sa ma ea], b as [sb|sb| |sb mb eb];
    intros H; try discriminate H; try reflexivity; congruence.
Qed.

Lemma in_range_alike (a b : float) :
  SF_alike (Prim2SF a) (Prim2SF b) -> in_range a = in_range b.
Proof.
  intros H. unfold in_range. cbn [leb binary64].
  rewrite !FloatAxioms.leb_spec. apply (SF_in_range_alike H).
Qed.

Lemma SFmul_sub_swap a b c :
  SF_same (SF64mul a (SF64sub c b)) (SFopp (SF64mul a (SF64sub b c))).
Proof.
  rewrite <- SFmul_opp_r.
  apply SFmul_congruent; [apply SF_same_refl|apply SFsub_swap].
Qed.

(** With the two segments exchanged the numerators and the denominator
    change sign: the quotients are the same, up to the sign of a zero or
    of an infinity. *)
Lemma parameters_exchanged (l1 l2 : Line float) :
  SF_alike (Prim2SF (param_u l2 l1)) (Prim2SF (param_t l1 l2)) /\
  SF_alike (Prim2SF (param_t l2 l1)) (Prim2SF (param_u l1 l2)).
Proof.
  unfold param_u, param_t, denominator. cbn [sub mul div neg binary64].
  rewrite !FloatAxioms.div_spec, !FloatAxioms.opp_spec,
    !FloatAxioms.sub_spec, !FloatAxioms.mul_spec, !FloatAxioms.sub_spec.
  set (x1 := Prim2SF (x (point1 l1))). set (y1 := Prim2SF (y (point1 l1))).
  set (x2 := Prim2SF (x (point2 l1))). set (y2 := Prim2SF (y (point2 l1))).
  set (x3 := Prim2SF (x (point1 l2))). set (y3 := Prim2SF (y (point1 l2))).
  set (x4 := Prim2SF (x (point2 l2))). set (y4 := Prim2SF (y (point2 l2))).
  assert (Hd : SF_same
            (SF64sub (SF64mul (SF64sub x3 x4) (SF64sub y1 y2))
                     (SF64mul (SF64sub y3 y4) (SF64sub x1 x2)))
            (SFopp (SF64sub (SF64mul (SF64sub x1 x2) (SF64sub y3 y4))
                            (SF64mul (SF64sub y1 y2) (SF64sub x3 x4))))).
  { rewrite (SFmul_comm (SF64sub x3 x4)), (SFmul_comm (SF64sub y3 y4)).
    apply SFsub_swap. }
  split; apply SFdiv_opp_opp; try exact Hd.
  - apply SFopp_congruent.
    eapply SF_same_trans; [|apply SFsub_opp_opp].
    apply SFsub_congruent.
    + rewrite (SFmul_comm (SF64sub y1 y3)). apply SFmul_sub_swap.
    + rewrite (SFmul_comm (SF64sub x1 x3)). apply SFmul_sub_swap.
  - rewrite SFopp_involutive.
    eapply SF_same_trans; [|apply SFsub_opp_opp].
    apply SFsub_congruent.
    + rewrite (SFmul_comm (SF64sub x3 x1)). apply SFmul_sub_swap.
    + rewrite (SFmul_comm (SF64sub y3 y1)). apply SFmul_sub_swap.
Qed.

Lemma intersection_reported (l1 l2 : Line float) :
  findLineSegmentIntersection l1 l2 = None <->
  in_range (param_t l1 l2) && in_range (param_u l1 l2) = false.
Proof.
  unfold findLineSegmentIntersection, in_range. rewrite <- !andb_assoc.
  match goal with
  | |- context [if ?c then _ else _] => destruct c
  end; split; intros H; try reflexivity; discriminate H.
Qed.

(** X4: in binary64 the decision of [findLineSegmentIntersection] does
    not depend on the order of its two arguments: for all segments, with
    coordinates that may be infinite or not numbers, an intersection is
    reported for [(l1, l2)] exactly when one is reported for [(l2, l1)].
    The point reported may differ in the last place, being computed along
    the first segment: the segments (0.1, 0.2)-(0.9, 0.7) and
    (0.2, 0.8)-(0.7, 0.1) give two different values of [y]. *)
Theorem intersection_decision_symmetric :
  (forall l1 l2 : Line float,
     findLineSegmentIntersection l1 l2 = None <->
     findLineSegmentIntersection l2 l1 = None) /\
  findLineSegmentIntersection (fline 0.1 0.2 0.9 0.7) (fline 0.2 0.8 0.7 0.1)
  <> findLineSegmentIntersection (fline 0.2 0.8 0.7 0.1)
       (fline 0.1 0.2 0.9 0.7).
Proof.
  split.
  - intros l1 l2. rewrite !intersection_reported.
    destruct (parameters_exchanged l1 l2) as [H1 H2].
    rewrite <- (in_range_alike _ _ H1), <- (in_range_alike _ _ H2).
    now rewrite andb_comm.
  - vm_compute. discriminate.
Qed.
